(** * Tyre-catalogue scraper: a shallow embedding of [scraper.js]

    The repository holds two scripts that share most of their text:

    - the URL-list script (the first one in [scraper.js]), which reads the
      product URLs from a spreadsheet and scrapes them one after the other;
    - the sitemap script (the second one), which reads them from a sitemap,
      keeps a third ledger for URLs outside the target domain and scrapes in
      batches.

    Both are embedded below, each in a module of its own ([UrlList] and
    [Sitemap]), over a common model of the JavaScript values they use
    ([JS]): strings, the one regular expression of the price code, and
    binary64 numbers (through [SpecFloat]).

    Conventions of the model:

    - a string is a sequence of bytes; the character classes of the code
      (digits, comma, point, space, colon) are single bytes;
    - a data file is what [JSON.parse] makes of it; a file that is present
      and well formed is always read, and every write succeeds;
    - the network is an oracle from the log of requests and a URL to an
      answer; a page is a function from the queries of the code to texts;
    - every function takes the state of the files, the log of requests and
      the time slept, and returns the new state; a function that throws
      returns [Throw];
    - recursion that is not structural takes fuel, and is proved to end
      with the fuel it is given.

    Left out: the reading of the spreadsheet and of the sitemap (the list
    of URLs is given), the batch loop of the sitemap script (the pipeline it
    starts for one URL is modelled), and the columns of a record that no
    code inspects. *)

From Stdlib Require Import ssreflect ZArith Lia Bool Ascii String List.
From Stdlib Require Import Floats.SpecFloat Numbers.DecimalString.
From stdpp Require Import base decidable list strings gmap.

Set Warnings "-rewrite-rw".

Local Open Scope string_scope.
Local Open Scope Z_scope.

(** ** JavaScript values *)

Module JS.

(** A string is truthy when it is not empty ([!s], [a || b]). *)
Definition truthy (s : string) : bool :=
  match s with
  | EmptyString => false
  | String _ _ => true
  end.

(** [a || b] on strings. *)
Definition or_else (a b : string) : string := if truthy a then a else b.

Definition is_digit (c : ascii) : bool :=
  let n := nat_of_ascii c in (Nat.leb 48 n && Nat.leb n 57)%bool.

Definition is_comma (c : ascii) : bool := Ascii.eqb c ","%char.

Definition is_digit_or_comma (c : ascii) : bool := (is_digit c || is_comma c)%bool.

(** White space that [String.prototype.trim] removes, as far as it is made
    of a single byte: tab, line feed, vertical tab, form feed, carriage
    return and space. *)
Definition is_space (c : ascii) : bool :=
  let n := nat_of_ascii c in (Nat.leb 9 n && Nat.leb n 13 || Nat.eqb n 32)%bool.

Fixpoint trimStart (s : string) : string :=
  match s with
  | String c s' => if is_space c then trimStart s' else s
  | EmptyString => EmptyString
  end.

(** [trimEnd] keeps a character when it is not white space or when something
    is kept after it. *)
Fixpoint trimEnd (s : string) : string :=
  match s with
  | EmptyString => EmptyString
  | String c s' =>
      match trimEnd s' with
      | EmptyString => if is_space c then EmptyString else String c EmptyString
      | t => String c t
      end
  end.

Definition trim (s : string) : string := trimEnd (trimStart s).

(** [span p s]: the longest prefix of [s] whose characters satisfy [p], and
    what follows it (a greedy [p*]). *)
Fixpoint span (p : ascii -> bool) (s : string) : string * string :=
  match s with
  | String c s' =>
      if p c then let '(a, b) := span p s' in (String c a, b)
      else (EmptyString, s)
  | EmptyString => (EmptyString, EmptyString)
  end.

(** The regular expression [/[\d,]+\.?\d*/] tried at the start of [s].  The
    first group is greedy and what follows it can match the empty string, so
    the first attempt of the backtracking matcher is the one that succeeds:
    the whole run of digits and commas, a point when one follows, and the
    digits after it. *)
Definition numeric_match_here (s : string) : option string :=
  let '(run, rest) := span is_digit_or_comma s in
  if truthy run then
    let '(dot, rest') :=
      match rest with
      | String "."%char r => ("."%string, r)
      | _ => (EmptyString, rest)
      end in
    let '(frac, _) := span is_digit rest' in
    Some (run ++ dot ++ frac)
  else None.

(** [s.match(/[\d,]+\.?\d*/)]: the match at the leftmost position that has
    one, [None] for [null].  Only element 0 of the result is used. *)
Fixpoint numeric_match (s : string) : option string :=
  match numeric_match_here s with
  | Some m => Some m
  | None =>
      match s with
      | String _ s' => numeric_match s'
      | EmptyString => None
      end
  end.

(** [s.replace(/,/g, "")]. *)
Fixpoint remove_commas (s : string) : string :=
  match s with
  | String c s' => if is_comma c then remove_commas s' else String c (remove_commas s')
  | EmptyString => EmptyString
  end.

Fixpoint drop (n : nat) (s : string) : string :=
  match n, s with
  | S n', String _ s' => drop n' s'
  | _, _ => s
  end.

(** [s.replace(pat, repl)] with a string pattern: the first occurrence only;
    [repl] holds no [$]. *)
Fixpoint replace_first (pat repl s : string) : string :=
  if String.prefix pat s then repl ++ drop (String.length pat) s
  else
    match s with
    | String c s' => String c (replace_first pat repl s')
    | EmptyString => EmptyString
    end.

(** [s.split(" ")[0] || ""]: what precedes the first space. *)
Fixpoint before_space (s : string) : string :=
  match s with
  | String c s' => if Ascii.eqb c " "%char then EmptyString else String c (before_space s')
  | EmptyString => EmptyString
  end.

(** *** Numbers: binary64 *)

Definition prec : Z := 53.
Definition emax : Z := 1024.

Definition Number := spec_float.

(** The Number nearest to an integer. *)
Definition of_Z (z : Z) : Number := binary_normalize prec emax z 0 false.

(** The Number nearest to [n / d] (ties to even), [d] positive. *)
Definition of_ratio (n : N) (d : positive) : Number :=
  match n with
  | N0 => S754_zero false
  | Npos p => SFdiv prec emax (S754_finite false p 0) (S754_finite false d 0)
  end.

Fixpoint pow10 (k : nat) : positive :=
  match k with
  | O => 1
  | S k' => 10 * pow10 k'
  end%positive.

Definition digit_value (c : ascii) : N := N.of_nat (nat_of_ascii c - 48).

(** The value of a string of digits read in base ten, after [acc]. *)
Fixpoint digits_value (acc : N) (s : string) : N :=
  match s with
  | String c s' => digits_value (acc * 10 + digit_value c)%N s'
  | EmptyString => acc
  end.

(** [parseFloat s] for the strings the script gives it: no leading blank,
    sign or exponent.  It reads the longest prefix made of digits, a point
    and digits; a prefix without any digit gives NaN. *)
Definition parseFloat (s : string) : Number :=
  let '(int, rest) := span is_digit s in
  let frac :=
    match rest with
    | String "."%char r => fst (span is_digit r)
    | _ => EmptyString
    end in
  if (truthy int || truthy frac)%bool then
    of_ratio (digits_value (digits_value 0 int) frac)
             (pow10 (String.length frac))
  else S754_nan.

Definition isNaN (x : Number) : bool :=
  match x with
  | S754_nan => true
  | _ => false
  end.

(** The decimal digits of a natural number, ["0"] for zero. *)
Definition decimal (n : N) : string := NilZero.string_of_uint (N.to_uint n).

Fixpoint zeros (k : nat) : string :=
  match k with
  | O => EmptyString
  | S k' => String "0"%char (zeros k')
  end.

Fixpoint take (n : nat) (s : string) : string :=
  match n, s with
  | S n', String c s' => String c (take n' s')
  | _, _ => EmptyString
  end.

(** The integer nearest to [m * 2^e * k], the larger one when two are as
    near. *)
Definition round_scaled (k m : positive) (e : Z) : N :=
  match e with
  | Z0 => Npos (m * k)
  | Zpos p => Npos (m * k * 2 ^ p)
  | Zneg p => (Npos (m * k * 2) + Npos (2 ^ p)) / Npos (2 ^ (p + 1))
  end%N.

(** [10^21 <= m * 2^e]. *)
Definition at_least_1e21 (m : positive) (e : Z) : bool :=
  match e with
  | Zneg p => (pow10 21 * 2 ^ p <=? m)%positive
  | _ => (Zpos (pow10 21) <=? Zpos m * 2 ^ e)
  end.

(** Steps 5 and 6 of [Number::toString] for an integer [X >= 10^21] that is
    the value of the Number [x] and has [d] decimal digits: the least [k] in
    [k0 .. k0 + fuel - 1] for which some [s] of [k] digits has [s * 10^(d-k)]
    read back as [x]; of the two neighbours of [X / 10^(d-k)] the nearer to
    [X] that reads back, the even one when both are as near. *)
Fixpoint shortest_digits (X : Z) (x : Number) (d k0 fuel : nat) : option Z :=
  match fuel with
  | O => None
  | S fuel' =>
      let unit := Zpos (pow10 (d - k0)) in
      let lo := X / unit in
      let hi := lo + 1 in
      let ok s := SFeqb (of_Z (s * unit)) x in
      match ok lo, ok hi with
      | true, true =>
          match (X - lo * unit ?= hi * unit - X) with
          | Lt => Some lo
          | Gt => Some hi
          | Eq => Some (if Z.even lo then lo else hi)
          end
      | true, false => Some lo
      | false, true => Some hi
      | false, false => shortest_digits X x d (S k0) fuel'
      end
  end.

(** [Number::toString] for a finite [m * 2^e >= 10^21]: exponential
    notation, with the fewest digits that read back as the same Number. *)
Definition toString_large (m : positive) (e : Z) : string :=
  let X := Zpos m * 2 ^ e in
  let d := String.length (decimal (Z.to_N X)) in
  match shortest_digits X (of_Z X) d 1 17 with
  | Some s =>
      let ds := decimal (Z.to_N s) in
      (* [s = 10^k] stands for the single digit 1 one decade higher *)
      let '(digits, n) :=
        if String.eqb ds "10" then ("1"%string, S d) else (ds, d) in
      match digits with
      | String c EmptyString => String c EmptyString ++ "e+" ++ decimal (N.of_nat (n - 1))
      | String c rest => String c EmptyString ++ "." ++ rest ++ "e+" ++ decimal (N.of_nat (n - 1))
      | EmptyString => EmptyString
      end
  | None => EmptyString
  end.

(** [n] written with [f] decimals: the digits of [n], padded with zeros on
    the left to [f + 1] digits, with a point before the last [f]. *)
Definition fixed_digits (n : N) (f : nat) : string :=
  let m := decimal n in
  match f with
  | O => m
  | _ =>
      let k := String.length m in
      let m' := if Nat.leb k f then zeros (S f - k) ++ m else m in
      let k' := String.length m' in
      take (k' - f) m' ++ "." ++ drop (k' - f) m'
  end.

(** [x.toFixed(f)]. *)
Definition toFixed (x : Number) (f : nat) : string :=
  match x with
  | S754_nan => "NaN"
  | S754_infinity s => if s then "-Infinity" else "Infinity"
  | S754_zero _ => fixed_digits 0 f
  | S754_finite s m e =>
      (if s then "-" else "") ++
      (if at_least_1e21 m e then toString_large m e
       else fixed_digits (round_scaled (pow10 f) m e) f)
  end.

End JS.

Local Close Scope Z_scope.
Local Open Scope list_scope.

(** ** The platform: files, the network, pages *)

(** *** Files

    A data file is modelled by what [JSON.parse] makes of it.  [Absent]: no
    such file.  [Garbled]: a file that cannot be read or parsed.  An empty
    file reads as the empty array and is modelled as [Content []].  Reading
    a well-formed file and writing any file succeed. *)
Inductive File (A : Type) : Type :=
| Absent
| Garbled
| Content (a : A).
Arguments Absent {A}.
Arguments Garbled {A}.
Arguments Content {A} a.

(** [fs.existsSync]. *)
Definition existsSync {A} (f : File A) : bool :=
  match f with
  | Absent => false
  | _ => true
  end.

(** [try { content ? JSON.parse(content) : [] } catch { [] }], and [[]]
    too where the script first asks whether the file exists. *)
Definition read_array {A} (f : File (list A)) : list A :=
  match f with
  | Content l => l
  | _ => []
  end.

(** [xs.includes(x)] on an array of strings. *)
Definition includes (x : string) (xs : list string) : bool := bool_decide (x ∈ xs).

(** *** Pages

    A page is seen through the queries the scripts put to it; each query
    stands for a selector and the way its text is taken. *)
Inductive Query : Type :=
| PageTitleOwnText   (* $("h1[data-ui-id='page-title-wrapper']").clone().children().remove().end().text() *)
| ProductNameH1      (* $("h1.product-name").text() *)
| FirstH1            (* $("h1").first().text() *)
| SizeNoSpan         (* $("span.size_no").text() *)
| TireSize           (* $(".tire-size").text() *)
| ProductSize        (* $(".product-size").text() *)
| ProductPriceFirst  (* $('span[id^=product-price-]').first().text() *)
| PriceFinal         (* $(".price-final").text() *)
| RegularPrice       (* $(".regular-price").text() *)
| SetPrice           (* $("div.set_price span.price").text() *)
| YearOfManufacture. (* $('div[title=Year of manufacture]').text() *)

Definition Page : Type := Query -> string.

(** *** The network

    What one GET brings back.  The answer may depend on the URL and on every
    request made before (the log, oldest first). *)
Inductive Response : Type :=
| NoResponse                              (* connection error or timeout *)
| Answer (status : nat) (data : Page).

Definition Web : Type := list string -> string -> Response.

Inductive Error : Type :=
| RequestFailed            (* axios rejects: no answer, or a status outside 2xx *)
| HttpStatus (status : nat) (* "HTTP <status> received" *)
| TypeError                (* a method called on undefined *)
| EssentialDataMissing     (* "Essential data (name/size) not found on page" *)
| IncompleteData.          (* "Incomplete data received" *)

(** How a call ends: with a value or with an exception. *)
Inductive Completion (A : Type) : Type :=
| Return (a : A)
| Throw (e : Error).
Arguments Return {A} a.
Arguments Throw {A} e.

(** [axios.get(url, ...)] with the default [validateStatus]: the promise is
    rejected unless the status is in 200..299. *)
Definition axios_get (web : Web) (log : list string) (url : string)
  : Completion (nat * Page) :=
  match web log url with
  | NoResponse => Throw RequestFailed
  | Answer status data =>
      if ((200 <=? status) && (status <? 300))%nat then Return (status, data)
      else Throw RequestFailed
  end.

(** [new URL(s)]: the parser is the runtime's, and the scripts read nothing
    but the host name of what it returns. *)
Record URL : Type := { hostname : string }.

Definition URLParser : Type := string -> option URL.

(** [text.split(":")[1]]: what stands between the first colon and the next
    one, [None] ([undefined]) when there is no colon. *)
Fixpoint until_colon (s : string) : string :=
  match s with
  | String c s' => if Ascii.eqb c ":"%char then EmptyString else String c (until_colon s')
  | EmptyString => EmptyString
  end.

Fixpoint split_colon_1 (s : string) : option string :=
  match s with
  | String c s' => if Ascii.eqb c ":"%char then Some (until_colon s') else split_colon_1 s'
  | EmptyString => None
  end.

(** The two price helpers of the sitemap script differ by the amount only:
    [calculateDiscountedPrice] takes 5 off, [calculateDiscountedsetPrice]
    20. *)
Definition discounted (offset : Z) (priceStr : string) : string :=
  if negb (JS.truthy priceStr) then ""
  else
    match JS.numeric_match priceStr with
    | None => priceStr
    | Some numericMatch =>
        let numericValue := JS.parseFloat (JS.remove_commas numericMatch) in
        if JS.isNaN numericValue then priceStr
        else
          let discountedPrice := SFsub JS.prec JS.emax numericValue (JS.of_Z offset) in
          let currencyPart := JS.replace_first numericMatch "" priceStr in
          currencyPart +:+ JS.toFixed discountedPrice 2
    end.

(** [[...new Set(urls)]]: the first occurrence of each element, in order. *)
Fixpoint unique_from (seen : gset string) (urls : list string) : list string :=
  match urls with
  | [] => []
  | u :: rest =>
      if bool_decide (u ∈ seen) then unique_from seen rest
      else u :: unique_from ({[u]} ∪ seen) rest
  end.

Definition unique (urls : list string) : list string := unique_from ∅ urls.

(** ** The URL-list script *)

Module UrlList.

Record Config : Type := {
  delayBetweenRequests : N;
  maxRetries : nat
}.

Definition CONFIG : Config := {|
  delayBetweenRequests := 1000%N;
  maxRetries := 3
|}.

(** The fields of a record that the code below reads; the other columns are
    texts of further selectors that are stored and exported as they are. *)
Record TireData : Type := {
  url : string;
  name : string;
  sizeNo : string;
  price : string;
  setprice : string;
  manufactureYear : string
}.

Inductive Ledger : Type := successFile | failedFile.

Record State : Type := {
  success : File (list string);         (* success.json *)
  failed : File (list string);          (* failed.json *)
  jsonOutputFile : File (list TireData);  (* tireData.json *)
  outputFile : File (list TireData);      (* tireData.xlsx, one row per record *)
  exports : nat;                        (* how many times the workbook was written *)
  requests : list string;               (* the GETs issued, oldest first *)
  clock : N                             (* milliseconds spent in setTimeout *)
}.

Definition ledger (f : Ledger) (st : State) : File (list string) :=
  match f with
  | successFile => success st
  | failedFile => failed st
  end.

Definition set_ledger (f : Ledger) (v : File (list string)) (st : State) : State :=
  match f with
  | successFile =>
      {| success := v; failed := failed st; jsonOutputFile := jsonOutputFile st;
         outputFile := outputFile st; exports := exports st;
         requests := requests st; clock := clock st |}
  | failedFile =>
      {| success := success st; failed := v; jsonOutputFile := jsonOutputFile st;
         outputFile := outputFile st; exports := exports st;
         requests := requests st; clock := clock st |}
  end.

Definition log_request (u : string) (st : State) : State :=
  {| success := success st; failed := failed st; jsonOutputFile := jsonOutputFile st;
     outputFile := outputFile st; exports := exports st;
     requests := requests st ++ [u]; clock := clock st |}.

(** [await new Promise((resolve) => setTimeout(resolve, ms))]. *)
Definition sleep (ms : N) (st : State) : State :=
  {| success := success st; failed := failed st; jsonOutputFile := jsonOutputFile st;
     outputFile := outputFile st; exports := exports st;
     requests := requests st; clock := (clock st + ms)%N |}.

Definition write_json (d : list TireData) (st : State) : State :=
  {| success := success st; failed := failed st; jsonOutputFile := Content d;
     outputFile := outputFile st; exports := exports st;
     requests := requests st; clock := clock st |}.

Definition write_xlsx (d : list TireData) (st : State) : State :=
  {| success := success st; failed := failed st; jsonOutputFile := jsonOutputFile st;
     outputFile := Content d; exports := S (exports st);
     requests := requests st; clock := clock st |}.

Definition initializeFiles (st : State) : State :=
  let init f st :=
    if existsSync (ledger f st) then st else set_ledger f (Content []) st in
  init failedFile (init successFile st).

Definition loadProcessedUrls (f : Ledger) (st : State) : list string :=
  read_array (ledger f st).

Definition saveProgress (u : string) (f : Ledger) (st : State) : State :=
  let processedUrls := loadProcessedUrls f st in
  if negb (includes u processedUrls) then set_ledger f (Content (processedUrls ++ [u])) st
  else st.

(** [getText(selector, defaultValue = "")]. *)
Definition getText (page : Page) (q : Query) : string :=
  JS.or_else (JS.trim (page q)) "".

(** The year is [text.split(":")[1].trim()]: a text without a colon makes
    [trim] be called on [undefined], which throws. *)
Definition scrapeTireData (page : Page) (u : string) : Completion TireData :=
  let name :=
    JS.or_else (JS.trim (page PageTitleOwnText))
      (JS.or_else (JS.trim (page ProductNameH1)) (JS.trim (page FirstH1))) in
  let sizeNo :=
    JS.or_else (getText page SizeNoSpan)
      (JS.or_else (getText page TireSize) (getText page ProductSize)) in
  let price :=
    JS.or_else (JS.trim (page ProductPriceFirst))
      (JS.or_else (JS.trim (page PriceFinal)) (JS.trim (page RegularPrice))) in
  match split_colon_1 (page YearOfManufacture) with
  | None => Throw TypeError
  | Some year =>
      Return {| url := u; name := name; sizeNo := sizeNo; price := price;
                setprice := getText page SetPrice;
                manufactureYear := JS.trim year |}
  end.

(** [!tireData.name || !tireData.sizeNo]. *)
Definition essential_missing (t : TireData) : bool :=
  negb (JS.truthy (name t)) || negb (JS.truthy (sizeNo t)).

(** The [try] block of [scrapeUrl]: one request and one extraction. *)
Definition scrapeUrl_try (web : Web) (u : string) (st : State)
  : State * Completion TireData :=
  let st1 := log_request u st in
  match axios_get web (requests st) u with
  | Throw e => (st1, Throw e)
  | Return (status, data) =>
      if negb (status =? 200)%nat then (st1, Throw (HttpStatus status))
      else
        match scrapeTireData data u with
        | Throw e => (st1, Throw e)
        | Return tireData =>
            if essential_missing tireData then (st1, Throw EssentialDataMissing)
            else (st1, Return tireData)
        end
  end.

(** [scrapeUrl(url, retryCount)]; [fuel] bounds the depth of the recursion
    and [None] means that it ran out. *)
Fixpoint scrapeUrl_fuel (fuel : nat) (cfg : Config) (web : Web) (u : string)
    (retryCount : nat) (st : State) : option (State * Completion TireData) :=
  match fuel with
  | O => None
  | S fuel' =>
      match scrapeUrl_try web u st with
      | (st1, Return tireData) => Some (st1, Return tireData)
      | (st1, Throw error) =>
          if (retryCount <? maxRetries cfg)%nat then
            let delay := (2000 * N.of_nat (retryCount + 1))%N in
            scrapeUrl_fuel fuel' cfg web u (retryCount + 1) (sleep delay st1)
          else Some (st1, Throw error)
      end
  end.

Definition scrapeUrl (cfg : Config) (web : Web) (u : string) (retryCount : nat)
    (st : State) : option (State * Completion TireData) :=
  scrapeUrl_fuel (S (maxRetries cfg - retryCount)) cfg web u retryCount st.

(** The merge loop of [saveData]; [existingUrls] is the [Set]. *)
Fixpoint merge (existingUrls : gset string) (mergedData newData : list TireData)
  : list TireData :=
  match newData with
  | [] => mergedData
  | newItem :: rest =>
      if negb (bool_decide (url newItem ∈ existingUrls)) then
        merge ({[url newItem]} ∪ existingUrls) (mergedData ++ [newItem]) rest
      else merge existingUrls mergedData rest
  end.

Definition loadExistingData (st : State) : list TireData :=
  read_array (jsonOutputFile st).

Definition saveData (newData : list TireData) (finalSave : bool) (st : State) : State :=
  let existingData := loadExistingData st in
  let existingUrls : gset string := list_to_set (url <$> existingData) in
  let mergedData := merge existingUrls existingData newData in
  let st1 := write_json mergedData st in
  if finalSave || (length mergedData mod 50 =? 0)%nat then write_xlsx mergedData st1
  else st1.

(** The [while (attempts < CONFIG.maxRetries && !success)] loop of
    [runScraper] for one URL.  It returns the state, [newTireData] and
    [success]. *)
Fixpoint attempt_loop (fuel : nat) (cfg : Config) (web : Web) (u : string)
    (attempts : nat) (success : bool) (newTireData : list TireData) (st : State)
  : option (State * list TireData * bool) :=
  if (attempts <? maxRetries cfg)%nat && negb success then
    match fuel with
    | O => None
    | S fuel' =>
        let attempts := S attempts in
        let on_error st1 :=
          if (maxRetries cfg <=? attempts)%nat then
            attempt_loop fuel' cfg web u attempts success newTireData
              (saveProgress u failedFile st1)
          else
            attempt_loop fuel' cfg web u attempts success newTireData
              (sleep (3000 * N.of_nat attempts)%N st1) in
        match scrapeUrl cfg web u 0 st with
        | None => None
        | Some (st1, Throw _) => on_error st1
        | Some (st1, Return tireData) =>
            if essential_missing tireData then on_error st1
            else
              let newTireData := newTireData ++ [tireData] in
              let st2 := saveProgress u successFile st1 in
              attempt_loop fuel' cfg web u attempts true newTireData
                (saveData newTireData false st2)
        end
    end
  else Some (st, newTireData, success).

(** The [for] loop over [urlsToProcess]; [total] is its length and [index]
    the position of the first URL of [urls] in it. *)
Fixpoint process_urls (cfg : Config) (web : Web) (total index : nat)
    (urls : list string) (newTireData : list TireData) (st : State)
  : option (State * list TireData) :=
  match urls with
  | [] => Some (st, newTireData)
  | u :: rest =>
      match attempt_loop (maxRetries cfg) cfg web u 0 false newTireData st with
      | None => None
      | Some (st1, newTireData, success) =>
          let st2 :=
            if success && (index <? total - 1)%nat
            then sleep (delayBetweenRequests cfg) st1 else st1 in
          process_urls cfg web total (S index) rest newTireData st2
      end
  end.

Definition urlsToProcess (urls : list string) (st : State) : list string :=
  let successUrls := loadProcessedUrls successFile st in
  let failedUrls := loadProcessedUrls failedFile st in
  List.filter (fun u => negb (includes u successUrls) && negb (includes u failedUrls))
    (unique urls).

(** [runScraper], given what [loadUrls] returned.  Its [catch] logs and goes
    on to the end, so every path ends with a state. *)
Definition runScraper (cfg : Config) (web : Web) (urls : list string) (st : State)
  : option State :=
  let st0 := initializeFiles st in
  match urls with
  | [] => Some st0
  | _ =>
      let todo := urlsToProcess urls st0 in
      match todo with
      | [] => Some st0
      | _ =>
          match process_urls cfg web (length todo) 0 todo [] st0 with
          | None => None
          | Some (st1, newTireData) =>
              if (0 <? length newTireData)%nat then Some (saveData newTireData true st1)
              else Some st1
          end
      end
  end.

End UrlList.

(** ** The sitemap script *)

Module Sitemap.

Record Config : Type := {
  delayBetweenRequests : N;
  maxRetries : nat;
  maxRetriesForNonMatches : nat;
  targetDomains : list string;
  maxConcurrentRequests : nat;
  saveInterval : nat
}.

Definition CONFIG : Config := {|
  delayBetweenRequests := 2000%N;
  maxRetries := 3;
  maxRetriesForNonMatches := 1;
  targetDomains := ["www.pitstoparabia.com"];
  maxConcurrentRequests := 5;
  saveInterval := 5
|}.

(** The fields of a record that the code below reads or derives; the other
    columns are texts of further selectors and constants, stored and
    exported as they are. *)
Record TireData : Type := {
  url : string;
  name : string;
  brand : string;
  sizeNo : string;
  price : string;
  setprice : string;
  manufactureYear : option string
}.

Inductive Ledger : Type := successFile | failedFile | nonMatchFile.

Record State : Type := {
  success : File (list string);           (* success.json *)
  failed : File (list string);            (* failed.json *)
  nonMatch : File (list string);          (* nonmatch.json *)
  jsonOutputFile : File (list TireData);  (* tireData.json *)
  outputFile : File (list TireData);      (* tireData.xlsx, one row per record *)
  exports : nat;                          (* how many times the workbook was written *)
  requests : list string;                 (* the GETs issued, oldest first *)
  clock : N                               (* milliseconds spent in setTimeout *)
}.

Definition ledger (f : Ledger) (st : State) : File (list string) :=
  match f with
  | successFile => success st
  | failedFile => failed st
  | nonMatchFile => nonMatch st
  end.

Definition set_ledger (f : Ledger) (v : File (list string)) (st : State) : State :=
  {| success := match f with successFile => v | _ => success st end;
     failed := match f with failedFile => v | _ => failed st end;
     nonMatch := match f with nonMatchFile => v | _ => nonMatch st end;
     jsonOutputFile := jsonOutputFile st; outputFile := outputFile st;
     exports := exports st; requests := requests st; clock := clock st |}.

Definition log_request (u : string) (st : State) : State :=
  {| success := success st; failed := failed st; nonMatch := nonMatch st;
     jsonOutputFile := jsonOutputFile st; outputFile := outputFile st;
     exports := exports st; requests := requests st ++ [u]; clock := clock st |}.

(** [await new Promise((resolve) => setTimeout(resolve, ms))]. *)
Definition sleep (ms : N) (st : State) : State :=
  {| success := success st; failed := failed st; nonMatch := nonMatch st;
     jsonOutputFile := jsonOutputFile st; outputFile := outputFile st;
     exports := exports st; requests := requests st; clock := (clock st + ms)%N |}.

Definition write_json (d : list TireData) (st : State) : State :=
  {| success := success st; failed := failed st; nonMatch := nonMatch st;
     jsonOutputFile := Content d; outputFile := outputFile st;
     exports := exports st; requests := requests st; clock := clock st |}.

Definition write_xlsx (d : list TireData) (st : State) : State :=
  {| success := success st; failed := failed st; nonMatch := nonMatch st;
     jsonOutputFile := jsonOutputFile st; outputFile := Content d;
     exports := S (exports st); requests := requests st; clock := clock st |}.

Definition initializeFiles (st : State) : State :=
  let init f st :=
    if existsSync (ledger f st) then st else set_ledger f (Content []) st in
  init nonMatchFile (init failedFile (init successFile st)).

Definition isTargetUrl (cfg : Config) (parse : URLParser) (u : string) : bool :=
  match parse u with
  | Some urlObj => includes (hostname urlObj) (targetDomains cfg)
  | None => false
  end.

Definition loadProcessedUrls (f : Ledger) (st : State) : list string :=
  read_array (ledger f st).

Definition saveProgress (u : string) (f : Ledger) (st : State) : State :=
  let processedUrls := loadProcessedUrls f st in
  if negb (includes u processedUrls) then set_ledger f (Content (processedUrls ++ [u])) st
  else st.

Definition getText (page : Page) (q : Query) : string :=
  JS.or_else (JS.trim (page q)) "".

Definition extractBrand (productName : string) : string :=
  if negb (JS.truthy productName) then ""
  else JS.or_else (JS.before_space productName) "".

Definition calculateDiscountedPrice : string -> string := discounted 5.

Definition calculateDiscountedsetPrice : string -> string := discounted 20.

Definition scrapeTireData (page : Page) (u : string) : TireData :=
  let name :=
    JS.or_else (JS.trim (page PageTitleOwnText))
      (JS.or_else (JS.trim (page ProductNameH1)) (JS.trim (page FirstH1))) in
  let sizeNo :=
    JS.or_else (getText page SizeNoSpan)
      (JS.or_else (getText page TireSize) (getText page ProductSize)) in
  let brand := extractBrand name in
  let price :=
    JS.or_else (JS.trim (page ProductPriceFirst))
      (JS.or_else (JS.trim (page PriceFinal)) (JS.trim (page RegularPrice))) in
  let originalSetPrice := getText page SetPrice in
  {| url := u; name := name; brand := brand; sizeNo := sizeNo;
     price := calculateDiscountedPrice price;
     setprice := calculateDiscountedsetPrice originalSetPrice;
     manufactureYear := JS.trim <$> split_colon_1 (page YearOfManufacture) |}.

(** [!tireData.name || !tireData.sizeNo]. *)
Definition essential_missing (t : TireData) : bool :=
  negb (JS.truthy (name t)) || negb (JS.truthy (sizeNo t)).

(** The [try] block of [scrapeUrl]: the domain check, then one request and
    one extraction.  [Return None] is [return null]. *)
Definition scrapeUrl_try (cfg : Config) (parse : URLParser) (web : Web)
    (u : string) (st : State) : State * Completion (option TireData) :=
  if negb (isTargetUrl cfg parse u) then
    (saveProgress u nonMatchFile st, Return None)
  else
    let st1 := log_request u st in
    match axios_get web (requests st) u with
    | Throw e => (st1, Throw e)
    | Return (status, data) =>
        if negb (status =? 200)%nat then (st1, Throw (HttpStatus status))
        else
          let tireData := scrapeTireData data u in
          if essential_missing tireData then (st1, Throw EssentialDataMissing)
          else (saveProgress u successFile st1, Return (Some tireData))
    end.

(** [scrapeUrl(url, retryCount)]; [fuel] bounds the depth of the recursion
    and [None] means that it ran out. *)
Fixpoint scrapeUrl_fuel (fuel : nat) (cfg : Config) (parse : URLParser) (web : Web)
    (u : string) (retryCount : nat) (st : State)
  : option (State * Completion (option TireData)) :=
  match fuel with
  | O => None
  | S fuel' =>
      match scrapeUrl_try cfg parse web u st with
      | (st1, Return r) => Some (st1, Return r)
      | (st1, Throw error) =>
          let maxRetries :=
            if isTargetUrl cfg parse u then maxRetries cfg
            else maxRetriesForNonMatches cfg in
          if (retryCount <? maxRetries)%nat then
            let delay := (1000 * N.of_nat (retryCount + 1))%N in
            scrapeUrl_fuel fuel' cfg parse web u (retryCount + 1) (sleep delay st1)
          else
            let st2 :=
              if isTargetUrl cfg parse u then saveProgress u failedFile st1
              else saveProgress u nonMatchFile st1 in
            Some (st2, Throw error)
      end
  end.

Definition scrapeUrl (cfg : Config) (parse : URLParser) (web : Web) (u : string)
    (retryCount : nat) (st : State) : option (State * Completion (option TireData)) :=
  scrapeUrl_fuel
    (S (Nat.max (maxRetries cfg) (maxRetriesForNonMatches cfg) - retryCount))
    cfg parse web u retryCount st.

(** What [processUrlsInBatches] starts for each URL of a batch:
    [scrapeUrl(url).then(...).catch(...)].  It settles with the record or
    with [null]. *)
Definition pipeline (cfg : Config) (parse : URLParser) (web : Web) (u : string)
    (st : State) : option (State * option TireData) :=
  match scrapeUrl cfg parse web u 0 st with
  | None => None
  | Some (st1, Return (Some result)) => Some (saveProgress u successFile st1, Some result)
  | Some (st1, Return None) => Some (saveProgress u nonMatchFile st1, None)
  | Some (st1, Throw _) => Some (st1, None)
  end.

(** The filter of [saveData]:
    [item && item.url && item.name && item.sizeNo && item.price]. *)
Definition valid (item : TireData) : bool :=
  JS.truthy (url item) && JS.truthy (name item) && JS.truthy (sizeNo item)
  && JS.truthy (price item).

(** The merge loop of [saveData]; [existingUrls] is the [Set]. *)
Fixpoint merge (existingUrls : gset string) (mergedData validNewData : list TireData)
  : list TireData :=
  match validNewData with
  | [] => mergedData
  | newItem :: rest =>
      if JS.truthy (url newItem) && negb (bool_decide (url newItem ∈ existingUrls)) then
        merge ({[url newItem]} ∪ existingUrls) (mergedData ++ [newItem]) rest
      else merge existingUrls mergedData rest
  end.

Definition loadExistingData (st : State) : list TireData :=
  read_array (jsonOutputFile st).

Definition saveData (newData : list TireData) (finalSave : bool) (st : State) : State :=
  let validNewData := List.filter valid newData in
  if (length validNewData =? 0)%nat && negb finalSave then st
  else
    let existingData := read_array (jsonOutputFile st) in
    let existingUrls : gset string := list_to_set (url <$> existingData) in
    let mergedData := merge existingUrls existingData validNewData in
    let st1 := write_json mergedData st in
    if finalSave || (0 <? length validNewData)%nat then write_xlsx mergedData st1
    else st1.

(** The filtering step of [runScraper]: what is handed to the batches. *)
Definition urlsToProcess (urls : list string) (st : State) : list string :=
  let successUrls := loadProcessedUrls successFile st in
  let failedUrls := loadProcessedUrls failedFile st in
  let nonMatchUrls := loadProcessedUrls nonMatchFile st in
  List.filter
    (fun u => negb (includes u successUrls) && negb (includes u failedUrls)
              && negb (includes u nonMatchUrls))
    urls.

(** [parseSizeComponents], which [scrapeTireData] applies to the size to
    fill the columns width, ratio and rim.

    The regular expression [/(\d+)\/(\d+)\s*R(\d+)/] tried at the start of
    [s]: each greedy group is followed by a character outside its class, so
    giving back characters never helps and the first attempt of the
    backtracking matcher decides: the whole run of digits, a slash, the whole
    run of digits, the whole run of blanks, [R], the whole run of digits.
    The blanks of [\s] are those of [trim]. *)
Definition size_match_here (s : string) : option (string * string * string) :=
  let '(width, rest) := JS.span JS.is_digit s in
  if JS.truthy width then
    match rest with
    | String "/"%char rest1 =>
        let '(ratio, rest2) := JS.span JS.is_digit rest1 in
        if JS.truthy ratio then
          match (JS.span JS.is_space rest2).2 with
          | String "R"%char rest3 =>
              let '(rim, _) := JS.span JS.is_digit rest3 in
              if JS.truthy rim then Some (width, ratio, rim) else None
          | _ => None
          end
        else None
    | _ => None
    end
  else None.

(** The match at the leftmost position that has one; the three groups. *)
Fixpoint size_match (s : string) : option (string * string * string) :=
  match size_match_here s with
  | Some groups => Some groups
  | None =>
      match s with
      | String _ s' => size_match s'
      | EmptyString => None
      end
  end.

Record SizeComponents : Type := {
  width : string;
  ratio : string;
  rim : string
}.

Definition parseSizeComponents (sizeStr : string) : SizeComponents :=
  if negb (JS.truthy sizeStr) then {| width := ""; ratio := ""; rim := "" |}
  else
    match size_match sizeStr with
    | Some (w, r, d) => {| width := w; ratio := r; rim := "R" +:+ d |}
    | None => {| width := ""; ratio := ""; rim := "" |}
    end.

(** [processedCount % CONFIG.saveInterval === 0]: the remainder by zero is
    NaN, which is not 0. *)
Definition remainder_is_zero (n m : nat) : bool :=
  match m with
  | O => false
  | _ => (n mod m =? 0)%nat
  end.

(** The control of the loop of [processUrlsInBatches]: the slice each round
    takes ([urls.slice(i, i + maxConcurrentRequests)]), whether the round
    ends with a call of [saveData] and whether it ends with the pause
    between batches.  Every pipeline of a batch adds one to [processedCount]
    when it settles, and the loop reads the counter after all have.  [fuel]
    bounds the number of rounds. *)
Record Round : Type := {
  batch : list string;
  saves : bool;
  pauses : bool
}.

Fixpoint rounds_from (fuel : nat) (cfg : Config) (urls : list string)
    (i processedCount : nat) : option (list Round) :=
  if (i <? length urls)%nat then
    match fuel with
    | O => None
    | S fuel' =>
        let batch := take (maxConcurrentRequests cfg) (drop i urls) in
        let processedCount := (processedCount + length batch)%nat in
        let round := {|
          batch := batch;
          saves := remainder_is_zero processedCount (saveInterval cfg)
                   || (length urls <=? i + maxConcurrentRequests cfg)%nat;
          pauses := (i + maxConcurrentRequests cfg <? length urls)%nat
        |} in
        match rounds_from fuel' cfg urls (i + maxConcurrentRequests cfg)%nat
                processedCount with
        | None => None
        | Some rest => Some (round :: rest)
        end
    end
  else Some [].

Definition rounds (cfg : Config) (urls : list string) : option (list Round) :=
  rounds_from (length urls) cfg urls 0 0.

End Sitemap.

(** ** Sample data *)

(** A URL parser for strings of the shape [scheme://host[:port][/...]], with
    the host name in lower case as the runtime gives it; every other string
    is refused.  It stands for the runtime's parser on such strings. *)
Definition is_alpha (c : ascii) : bool :=
  let n := nat_of_ascii c in
  ((65 <=? n) && (n <=? 90) || (97 <=? n) && (n <=? 122))%nat.

Definition to_lower (c : ascii) : ascii :=
  let n := nat_of_ascii c in
  if ((65 <=? n) && (n <=? 90))%nat then ascii_of_nat (n + 32) else c.

Fixpoint lower (s : string) : string :=
  match s with
  | String c s' => String (to_lower c) (lower s')
  | EmptyString => EmptyString
  end.

Definition is_host_char (c : ascii) : bool :=
  is_alpha c || JS.is_digit c || Ascii.eqb c "."%char || Ascii.eqb c "-"%char.

Definition simple_URL_parse : URLParser := fun s =>
  let '(scheme, rest) := JS.span is_alpha s in
  if JS.truthy scheme && String.prefix "://" rest then
    let '(host, rest') := JS.span is_host_char (JS.drop 3 rest) in
    let after_port :=
      match rest' with
      | String ":"%char r => snd (JS.span JS.is_digit r)
      | _ => rest'
      end in
    let ends_host :=
      match after_port with
      | EmptyString => true
      | String c _ => Ascii.eqb c "/"%char || Ascii.eqb c "?"%char || Ascii.eqb c "#"%char
      end in
    if JS.truthy host && ends_host then Some {| hostname := lower host |} else None
  else None.

(** Nothing on disk, nothing requested yet. *)
Definition fresh : Sitemap.State := {|
  Sitemap.success := Absent; Sitemap.failed := Absent; Sitemap.nonMatch := Absent;
  Sitemap.jsonOutputFile := Absent; Sitemap.outputFile := Absent;
  Sitemap.exports := 0; Sitemap.requests := []; Sitemap.clock := 0%N
|}.

Definition fresh_list : UrlList.State := {|
  UrlList.success := Absent; UrlList.failed := Absent;
  UrlList.jsonOutputFile := Absent; UrlList.outputFile := Absent;
  UrlList.exports := 0; UrlList.requests := []; UrlList.clock := 0%N
|}.

(** A site that never answers. *)
Definition web_down : Web := fun _ _ => NoResponse.

(** A product page with a title, a size and a price; one without a price;
    one without a size. *)
Definition page_full : Page := fun q =>
  match q with
  | PageTitleOwnText => " Michelin Primacy 4 "
  | TireSize => "205/55R16"
  | PriceFinal => "AED 100.00"
  | YearOfManufacture => "Year of manufacture: 2023"
  | _ => ""
  end.

Definition page_no_price : Page := fun q =>
  match q with
  | PageTitleOwnText => "Michelin Primacy 4"
  | SizeNoSpan => "205/55R16"
  | YearOfManufacture => "Year of manufacture: 2023"
  | _ => ""
  end.

Definition page_no_size : Page := fun q =>
  match q with
  | FirstH1 => "Michelin Primacy 4"
  | YearOfManufacture => "Year of manufacture: 2023"
  | _ => ""
  end.

(** A product page on which the year of manufacture is not given. *)
Definition page_no_year : Page := fun q =>
  match q with
  | PageTitleOwnText => "Michelin Primacy 4"
  | SizeNoSpan => "205/55R16"
  | PriceFinal => "AED 100.00"
  | _ => ""
  end.

Definition serve (p : Page) : Web := fun _ _ => Answer 200 p.

Definition product_url : string := "https://www.pitstoparabia.com/tyres/michelin-primacy-4".

Definition other_url : string := "https://other.com/x".

(** The configuration of the script with another list of target domains. *)
Definition with_targetDomains (domains : list string) (cfg : Sitemap.Config)
  : Sitemap.Config := {|
  Sitemap.delayBetweenRequests := Sitemap.delayBetweenRequests cfg;
  Sitemap.maxRetries := Sitemap.maxRetries cfg;
  Sitemap.maxRetriesForNonMatches := Sitemap.maxRetriesForNonMatches cfg;
  Sitemap.targetDomains := domains;
  Sitemap.maxConcurrentRequests := Sitemap.maxConcurrentRequests cfg;
  Sitemap.saveInterval := Sitemap.saveInterval cfg
|}.

(** ... and with another retry budget for the URLs outside them. *)
Definition with_maxRetriesForNonMatches (n : nat) (cfg : Sitemap.Config)
  : Sitemap.Config := {|
  Sitemap.delayBetweenRequests := Sitemap.delayBetweenRequests cfg;
  Sitemap.maxRetries := Sitemap.maxRetries cfg;
  Sitemap.maxRetriesForNonMatches := n;
  Sitemap.targetDomains := Sitemap.targetDomains cfg;
  Sitemap.maxConcurrentRequests := Sitemap.maxConcurrentRequests cfg;
  Sitemap.saveInterval := Sitemap.saveInterval cfg
|}.

(** ** Vocabulary of the properties *)

(** A string has a numeric component when it holds a digit. *)
Fixpoint has_digit (s : string) : bool :=
  match s with
  | String c s' => JS.is_digit c || has_digit s'
  | EmptyString => false
  end.

(** A sequence of flushes: the calls [saveData(newData, finalSave)] made one
    after the other. *)
Definition flushes (ops : list (list Sitemap.TireData * bool)) (st : Sitemap.State)
  : Sitemap.State :=
  foldl (fun st op => Sitemap.saveData op.1 op.2 st) st ops.

Definition flushes_list (ops : list (list UrlList.TireData * bool)) (st : UrlList.State)
  : UrlList.State :=
  foldl (fun st op => UrlList.saveData op.1 op.2 st) st ops.

(** A sequence of calls [saveProgress(url, filename)]. *)
Definition saveProgress_all (calls : list (string * Sitemap.Ledger)) (st : Sitemap.State)
  : Sitemap.State :=
  foldl (fun st c => Sitemap.saveProgress c.1 c.2 st) st calls.

(** Fetch-and-extract fails perpetually for a URL when its attempt throws
    whatever was requested before. *)
Definition always_fails (cfg : Sitemap.Config) (parse : URLParser) (web : Web)
    (u : string) : Prop :=
  ∀ st, ∃ e, (Sitemap.scrapeUrl_try cfg parse web u st).2 = Throw e.

Definition always_fails_list (web : Web) (u : string) : Prop :=
  ∀ st, ∃ e, (UrlList.scrapeUrl_try web u st).2 = Throw e.

(** [mandatory r]: name and size are both there. *)
Definition mandatory (r : Sitemap.TireData) : Prop :=
  Sitemap.name r ≠ "" ∧ Sitemap.sizeNo r ≠ "".

(** The retry budget that the [catch] of the sitemap script's [scrapeUrl]
    works out for a URL. *)
Definition budget (cfg : Sitemap.Config) (parse : URLParser) (u : string) : nat :=
  if Sitemap.isTargetUrl cfg parse u then Sitemap.maxRetries cfg
  else Sitemap.maxRetriesForNonMatches cfg.

(** Two states with the same files: they differ by the log and the clock
    at most. *)
Definition same_files (st st' : Sitemap.State) : Prop :=
  Sitemap.success st' = Sitemap.success st
  ∧ Sitemap.failed st' = Sitemap.failed st
  ∧ Sitemap.nonMatch st' = Sitemap.nonMatch st
  ∧ Sitemap.jsonOutputFile st' = Sitemap.jsonOutputFile st
  ∧ Sitemap.outputFile st' = Sitemap.outputFile st
  ∧ Sitemap.exports st' = Sitemap.exports st.

Definition same_files_list (st st' : UrlList.State) : Prop :=
  UrlList.success st' = UrlList.success st
  ∧ UrlList.failed st' = UrlList.failed st
  ∧ UrlList.jsonOutputFile st' = UrlList.jsonOutputFile st
  ∧ UrlList.outputFile st' = UrlList.outputFile st
  ∧ UrlList.exports st' = UrlList.exports st.

(** [appended key before after]: [after] is [before] followed by new
    elements whose keys are pairwise distinct and were not in [before]. *)
Definition appended {A} (key : A → string) (before after : list A) : Prop :=
  ∃ added,
    after = before ++ added
    ∧ NoDup (key <$> added)
    ∧ ∀ r, r ∈ added → key r ∉ key <$> before.

(** Every character of [s] satisfies [p]. *)
Fixpoint all_chars (p : ascii → bool) (s : string) : bool :=
  match s with
  | String c s' => p c && all_chars p s'
  | EmptyString => true
  end.

(** [s] does not begin with a character that satisfies [p]. *)
Definition stops (p : ascii → bool) (s : string) : Prop :=
  match s with
  | String c _ => p c = false
  | EmptyString => True
  end.

(** The time slept in a call of [scrapeUrl] that starts at [retryCount] and
    sleeps [sleeps] times: [base * (retryCount + 1)], then
    [base * (retryCount + 2)], and so on. *)
Fixpoint total_delay (base : N) (retryCount sleeps : nat) : N :=
  match sleeps with
  | O => 0
  | S n => base * N.of_nat (retryCount + 1) + total_delay base (retryCount + 1) n
  end%N.

(** The record store and the workbook are as they were. *)
Definition same_store (st st' : Sitemap.State) : Prop :=
  Sitemap.jsonOutputFile st' = Sitemap.jsonOutputFile st
  ∧ Sitemap.outputFile st' = Sitemap.outputFile st
  ∧ Sitemap.exports st' = Sitemap.exports st.

(** [grown u l l']: [l'] is [l], with [u] added at the end if anything. *)
Definition grown (u : string) (l l' : list string) : Prop :=
  l' = l ∨ ((u ∉ l) ∧ l' = l ++ [u]).

(** A record of the URL-list script with a name and a size. *)
Definition complete (t : UrlList.TireData) : Prop :=
  UrlList.name t ≠ "" ∧ UrlList.sizeNo t ≠ "".

(** What the loop of [runScraper] leaves behind for the URL [u], from the
    state [st] and the records [nd] to the state [st'], the records [nd']
    and the flag [success]. *)
Definition settled (u : string) (st st' : UrlList.State)
    (nd nd' : list UrlList.TireData) (success : bool) : Prop :=
  if success then
    ∃ t,
      nd' = nd ++ [t] ∧ UrlList.url t = u ∧ complete t
      ∧ UrlList.failed st' = UrlList.failed st
      ∧ grown u (UrlList.loadProcessedUrls UrlList.successFile st)
          (UrlList.loadProcessedUrls UrlList.successFile st')
      ∧ u ∈ UrlList.loadProcessedUrls UrlList.successFile st'
      ∧ UrlList.loadExistingData st'
        = UrlList.merge (list_to_set (UrlList.url <$> UrlList.loadExistingData st))
            (UrlList.loadExistingData st) nd'
  else
    nd' = nd
    ∧ UrlList.success st' = UrlList.success st
    ∧ UrlList.jsonOutputFile st' = UrlList.jsonOutputFile st
    ∧ grown u (UrlList.loadProcessedUrls UrlList.failedFile st)
        (UrlList.loadProcessedUrls UrlList.failedFile st').

(** What the loop of [runScraper] over the URLs [urls] does, from the state
    [st] and the records [nd] to the state [st'] and the records [nd']. *)
Record processed (cfg : UrlList.Config) (urls : list string)
    (st st' : UrlList.State) (nd nd' : list UrlList.TireData) : Prop := {
  (* only the URLs of the list are requested, each a bounded number of times *)
  processed_requests :
    ∃ extra,
      UrlList.requests st' = UrlList.requests st ++ extra
      ∧ Forall (λ v, v ∈ urls) extra
      ∧ (length extra
         ≤ length urls * (UrlList.maxRetries cfg * S (UrlList.maxRetries cfg)))%nat;
  (* the ledgers grow, by URLs of the list *)
  processed_added : ∀ f v,
    v ∈ UrlList.loadProcessedUrls f st' →
    v ∈ UrlList.loadProcessedUrls f st ∨ v ∈ urls;
  processed_kept : ∀ f v,
    v ∈ UrlList.loadProcessedUrls f st → v ∈ UrlList.loadProcessedUrls f st';
  (* every URL of the list ends in a ledger *)
  processed_all :
    (0 < UrlList.maxRetries cfg)%nat →
    ∀ v, v ∈ urls →
      v ∈ UrlList.loadProcessedUrls UrlList.successFile st'
      ∨ v ∈ UrlList.loadProcessedUrls UrlList.failedFile st';
  (* the new records are complete records of URLs marked as successes *)
  processed_records :
    ∃ new,
      nd' = nd ++ new
      ∧ ∀ t, t ∈ new →
          UrlList.url t ∈ urls ∧ complete t
          ∧ UrlList.url t ∈ UrlList.loadProcessedUrls UrlList.successFile st';
  (* the store grows, by records scraped in this run *)
  processed_store : ∀ r,
    r ∈ UrlList.loadExistingData st' → r ∈ UrlList.loadExistingData st ∨ r ∈ nd';
  processed_store_kept :
    ∃ added, UrlList.loadExistingData st' = UrlList.loadExistingData st ++ added;
  (* a URL newly marked as a success has a record in the store *)
  processed_success_stored : ∀ v,
    v ∈ UrlList.loadProcessedUrls UrlList.successFile st' →
    v ∈ UrlList.loadProcessedUrls UrlList.successFile st
    ∨ v ∈ UrlList.url <$> UrlList.loadExistingData st';
  processed_exists : ∀ f,
    existsSync (UrlList.ledger f st) = true → existsSync (UrlList.ledger f st') = true;
  (* no URL ends in both ledgers *)
  processed_disjoint :
    NoDup urls →
    (∀ v, v ∈ urls →
       (v ∉ UrlList.loadProcessedUrls UrlList.successFile st)
       ∧ (v ∉ UrlList.loadProcessedUrls UrlList.failedFile st)) →
    (∀ v, ¬ (v ∈ UrlList.loadProcessedUrls UrlList.successFile st
             ∧ v ∈ UrlList.loadProcessedUrls UrlList.failedFile st)) →
    ∀ v, ¬ (v ∈ UrlList.loadProcessedUrls UrlList.successFile st'
            ∧ v ∈ UrlList.loadProcessedUrls UrlList.failedFile st')
}.

(** [s] holds a tyre size: a width, a slash, a ratio, blanks if any, [R] and
    a rim, all three made of digits. *)
Definition size_shape (s before w r blanks d after : string) : Prop :=
  s = before +:+ w +:+ "/" +:+ r +:+ blanks +:+ "R" +:+ d +:+ after
  ∧ w ≠ "" ∧ all_chars JS.is_digit w = true
  ∧ r ≠ "" ∧ all_chars JS.is_digit r = true
  ∧ all_chars JS.is_space blanks = true
  ∧ d ≠ "" ∧ all_chars JS.is_digit d = true.

(** A character that is no space. *)
Definition not_blank (c : ascii) : bool := negb (Ascii.eqb c " "%char).

Definition not_colon (c : ascii) : bool := negb (Ascii.eqb c ":"%char).

(** A character that does not start or continue a number. *)
Definition not_numeric (c : ascii) : bool := negb (JS.is_digit_or_comma c).

(** A digit, a comma or a point. *)
Definition is_numeric_char (c : ascii) : bool :=
  JS.is_digit_or_comma c || Ascii.eqb c "."%char.

(** The configuration of the script with another batch size. *)
Definition with_maxConcurrentRequests (b : nat) (cfg : Sitemap.Config)
  : Sitemap.Config := {|
  Sitemap.delayBetweenRequests := Sitemap.delayBetweenRequests cfg;
  Sitemap.maxRetries := Sitemap.maxRetries cfg;
  Sitemap.maxRetriesForNonMatches := Sitemap.maxRetriesForNonMatches cfg;
  Sitemap.targetDomains := Sitemap.targetDomains cfg;
  Sitemap.maxConcurrentRequests := b;
  Sitemap.saveInterval := Sitemap.saveInterval cfg
|}.

(** ** Strings and prices *)

Section Strings.

Lemma truthy_false s : JS.truthy s = false ↔ s = "".
Proof. destruct s; simpl; split; congruence. Qed.

Lemma truthy_true s : JS.truthy s = true ↔ s ≠ "".
Proof. destruct s; simpl; split; congruence. Qed.

Lemma has_digit_app a b : has_digit (a +:+ b) = has_digit a || has_digit b.
Proof.
  induction a as [|c a IH]; simpl; [done|].
  by rewrite IH orb_assoc.
Qed.

Lemma span_has_digit p s :
  has_digit s = false →
  has_digit (JS.span p s).1 = false ∧ has_digit (JS.span p s).2 = false.
Proof.
  induction s as [|c s IH]; simpl; [done|].
  intros [Hc Hs]%orb_false_iff.
  destruct (p c); simpl.
  - destruct (JS.span p s) as [a b]; simpl in *.
    rewrite Hc. by apply IH.
  - by rewrite Hc Hs.
Qed.

Lemma span_is_digit_none s :
  has_digit s = false → JS.span JS.is_digit s = ("", s).
Proof.
  destruct s as [|c s]; simpl; [done|].
  intros [-> _]%orb_false_iff. done.
Qed.

Lemma numeric_match_here_has_digit s m :
  has_digit s = false → JS.numeric_match_here s = Some m → has_digit m = false.
Proof.
  unfold JS.numeric_match_here. intros Hs.
  destruct (span_has_digit JS.is_digit_or_comma s Hs) as [Hrun Hrest].
  destruct (JS.span JS.is_digit_or_comma s) as [run rest]; simpl in *.
  destruct (JS.truthy run); [|done].
  assert (∀ dot rest', has_digit dot = false → has_digit rest' = false →
            (let '(frac, _) := JS.span JS.is_digit rest' in Some (run ++ dot ++ frac)%string)
            = Some m → has_digit m = false) as Hfin.
  { intros dot rest' Hdot Hrest'.
    destruct (span_has_digit JS.is_digit rest' Hrest') as [Hfrac _].
    destruct (JS.span JS.is_digit rest') as [frac ?]; simpl in *.
    intros [= <-]. by rewrite !has_digit_app Hrun Hdot Hfrac. }
  destruct rest as [|c r]; [by apply (Hfin "" "")|].
  destruct (Ascii.eqb_spec c "."%char) as [->|Hne].
  - by apply (Hfin "." r).
  - intros H. apply (Hfin "" (String c r)); [done|done|].
    revert H. clear -Hne.
    destruct c as [[] [] [] [] [] [] [] []]; try done.
Qed.

Lemma numeric_match_has_digit s m :
  has_digit s = false → JS.numeric_match s = Some m → has_digit m = false.
Proof.
  induction s as [|c s IH]; [done|].
  intros Hs Hm. cbn [JS.numeric_match] in Hm.
  destruct (JS.numeric_match_here (String c s)) as [m'|] eqn:Hhere.
  - injection Hm as <-. by eapply numeric_match_here_has_digit.
  - apply IH; [|done]. simpl in Hs. by apply orb_false_iff in Hs as [_ ?].
Qed.

Lemma remove_commas_has_digit s :
  has_digit s = false → has_digit (JS.remove_commas s) = false.
Proof.
  induction s as [|c s IH]; simpl; [done|].
  intros [Hc Hs]%orb_false_iff.
  destruct (JS.is_comma c); simpl; [by apply IH|].
  by rewrite Hc IH.
Qed.

Lemma parseFloat_no_digit s : has_digit s = false → JS.parseFloat s = S754_nan.
Proof.
  intros Hs. unfold JS.parseFloat. rewrite (span_is_digit_none s Hs).
  destruct s as [|c r]; [done|].
  destruct (Ascii.eqb_spec c "."%char) as [->|Hne].
  - simpl in Hs. rewrite (span_is_digit_none r Hs). done.
  - assert (match String c r with
            | String "."%char r0 => (JS.span JS.is_digit r0).1
            | _ => ""
            end = "") as ->; [|done].
    clear -Hne. destruct c as [[] [] [] [] [] [] [] []]; try done.
Qed.

(** A price without a digit comes back as it is. *)
Lemma discounted_no_digit offset s : has_digit s = false → discounted offset s = s.
Proof.
  intros Hs. unfold discounted.
  destruct (JS.truthy s) eqn:Ht; simpl.
  - destruct (JS.numeric_match s) as [m|] eqn:Hm; [|done].
    pose proof (numeric_match_has_digit s m Hs Hm) as Hd.
    by rewrite (parseFloat_no_digit _ (remove_commas_has_digit m Hd)).
  - by apply truthy_false in Ht as ->.
Qed.

End Strings.

(** C7.  The discounted price takes 5 off the number in the price and writes
    it with two decimals after the currency: "AED 100.00" gives "AED 95.00".
    A price without a numeric component (no digit) is returned as it is, and
    the empty price gives the empty string. *)
Theorem calculateDiscountedPrice_spec :
  Sitemap.calculateDiscountedPrice "AED 100.00" = "AED 95.00"
  ∧ (∀ priceStr, has_digit priceStr = false →
       Sitemap.calculateDiscountedPrice priceStr = priceStr)
  ∧ Sitemap.calculateDiscountedPrice "" = "".
Proof.
  split; [by vm_compute|]. split; [|done].
  intros priceStr Hs. by apply discounted_no_digit.
Qed.

Lemma calculateDiscountedPrice_spec_witness :
  has_digit "Price on request, call" = false
  ∧ Sitemap.calculateDiscountedPrice "Price on request, call" = "Price on request, call".
Proof.
  split; [reflexivity|].
  apply (proj1 (proj2 calculateDiscountedPrice_spec)). reflexivity.
Defined.

(** ** The target-domain predicate *)

(** C6.  The predicate accepts a string exactly when the parser makes a URL
    of it whose host name is one of the configured target domains; a string
    the parser refuses is rejected.  With the single domain "example.com":
    "https://example.com/tyre/1" is accepted, "https://other.com/x" and a
    string that is no URL are rejected. *)
Theorem isTargetUrl_spec :
  (∀ cfg parse u,
     Sitemap.isTargetUrl cfg parse u = true ↔
     ∃ urlObj, parse u = Some urlObj ∧ hostname urlObj ∈ Sitemap.targetDomains cfg)
  ∧ (∀ cfg parse u, parse u = None → Sitemap.isTargetUrl cfg parse u = false)
  ∧ (let cfg := with_targetDomains ["example.com"] Sitemap.CONFIG in
     Sitemap.isTargetUrl cfg simple_URL_parse "https://example.com/tyre/1" = true
     ∧ Sitemap.isTargetUrl cfg simple_URL_parse "https://other.com/x" = false
     ∧ Sitemap.isTargetUrl cfg simple_URL_parse "not a url" = false).
Proof.
  split; [|split].
  - intros cfg parse u. unfold Sitemap.isTargetUrl, includes.
    destruct (parse u) as [urlObj|].
    + rewrite bool_decide_eq_true. split; [by eauto|].
      by intros (? & [= <-] & ?).
    + split; [done|]. by intros (? & ? & _).
  - intros cfg parse u Hu. unfold Sitemap.isTargetUrl. by rewrite Hu.
  - by vm_compute.
Qed.

Lemma isTargetUrl_spec_witness :
  simple_URL_parse "tyres, not a url" = None
  ∧ Sitemap.isTargetUrl Sitemap.CONFIG simple_URL_parse "tyres, not a url" = false.
Proof.
  split; [reflexivity|].
  apply (proj1 (proj2 isTargetUrl_spec)). reflexivity.
Defined.

(** ** The extractor's verdict *)

(** C1, counterexample.  A page with a product name and no size: the record
    has one of the two mandatory fields, and the attempt still ends with the
    incomplete-extraction error. *)
Lemma incomplete_with_name_counterexample :
  let t := Sitemap.scrapeTireData page_no_size product_url in
  Sitemap.name t = "Michelin Primacy 4" ∧ Sitemap.sizeNo t = ""
  ∧ (Sitemap.scrapeUrl_try Sitemap.CONFIG simple_URL_parse (serve page_no_size)
       product_url fresh).2 = Throw EssentialDataMissing.
Proof. by vm_compute. Qed.

(** C1, amended.  For a page answered with status 200, the attempt ends with
    the incomplete-extraction error exactly when the name or the size is
    empty after the selector fallbacks, and it returns the record exactly
    when both are there.  This holds in the sitemap script for a target URL
    and in the URL-list script whenever the extraction itself returns. *)
Theorem incomplete_iff_a_mandatory_field_empty :
  (∀ cfg parse web u st page,
     Sitemap.isTargetUrl cfg parse u = true →
     web (Sitemap.requests st) u = Answer 200 page →
     let t := Sitemap.scrapeTireData page u in
     ((Sitemap.scrapeUrl_try cfg parse web u st).2 = Throw EssentialDataMissing
      ↔ Sitemap.name t = "" ∨ Sitemap.sizeNo t = "")
     ∧ ((Sitemap.scrapeUrl_try cfg parse web u st).2 = Return (Some t)
        ↔ Sitemap.name t ≠ "" ∧ Sitemap.sizeNo t ≠ ""))
  ∧ (∀ web u st page t,
       web (UrlList.requests st) u = Answer 200 page →
       UrlList.scrapeTireData page u = Return t →
       ((UrlList.scrapeUrl_try web u st).2 = Throw EssentialDataMissing
        ↔ UrlList.name t = "" ∨ UrlList.sizeNo t = "")
       ∧ ((UrlList.scrapeUrl_try web u st).2 = Return t
          ↔ UrlList.name t ≠ "" ∧ UrlList.sizeNo t ≠ "")).
Proof.
  split.
  - intros cfg parse web u st page Htarget Hweb t.
    unfold Sitemap.scrapeUrl_try, axios_get. rewrite Htarget Hweb. simpl.
    fold t. unfold Sitemap.essential_missing.
    destruct (JS.truthy (Sitemap.name t)) eqn:Hn;
      destruct (JS.truthy (Sitemap.sizeNo t)) eqn:Hs; simpl;
      rewrite ?truthy_true ?truthy_false in Hn Hs; intuition congruence.
  - intros web u st page t Hweb Ht.
    unfold UrlList.scrapeUrl_try, axios_get. rewrite Hweb. simpl.
    rewrite Ht. unfold UrlList.essential_missing.
    destruct (JS.truthy (UrlList.name t)) eqn:Hn;
      destruct (JS.truthy (UrlList.sizeNo t)) eqn:Hs; simpl;
      rewrite ?truthy_true ?truthy_false in Hn Hs; intuition congruence.
Qed.

Lemma incomplete_iff_a_mandatory_field_empty_witness :
  let t := Sitemap.scrapeTireData page_no_size product_url in
  (Sitemap.scrapeUrl_try Sitemap.CONFIG simple_URL_parse (serve page_no_size)
     product_url fresh).2 = Throw EssentialDataMissing
  ↔ Sitemap.name t = "" ∨ Sitemap.sizeNo t = "".
Proof.
  apply (proj1 incomplete_iff_a_mandatory_field_empty
           Sitemap.CONFIG simple_URL_parse (serve page_no_size) product_url fresh
           page_no_size); reflexivity.
Defined.

(** ** The tabular export *)

(** C3, counterexample.  In the sitemap script a flush that is not forced and
    brings one new valid record to an empty store, a total of 1, writes the
    workbook. *)
Lemma export_off_boundary_counterexample :
  let t := Sitemap.scrapeTireData page_full product_url in
  let st := Sitemap.saveData [t] false fresh in
  length (Sitemap.loadExistingData st) = 1 ∧ 1 mod 50 ≠ 0
  ∧ Sitemap.exports st = S (Sitemap.exports fresh)
  ∧ Sitemap.outputFile st = Content [t].
Proof. by vm_compute. Qed.

(** C3, amended.  The URL-list script always writes the JSON store and writes
    the workbook exactly when the flush is forced or the merged total is a
    multiple of 50.  The sitemap script writes the workbook exactly when the
    flush is forced or brings at least one valid new record, whatever the
    total; a flush that is neither changes nothing at all. *)
Theorem export_regenerated_iff :
  (∀ newData finalSave st,
     let st' := UrlList.saveData newData finalSave st in
     let total := length (UrlList.loadExistingData st') in
     UrlList.jsonOutputFile st' = Content (UrlList.loadExistingData st')
     ∧ (finalSave = true ∨ total mod 50 = 0 →
        UrlList.exports st' = S (UrlList.exports st)
        ∧ UrlList.outputFile st' = UrlList.jsonOutputFile st')
     ∧ (¬ (finalSave = true ∨ total mod 50 = 0) →
        UrlList.exports st' = UrlList.exports st
        ∧ UrlList.outputFile st' = UrlList.outputFile st))
  ∧ (∀ newData finalSave st,
       let st' := Sitemap.saveData newData finalSave st in
       let brings_valid := ∃ r, r ∈ newData ∧ Sitemap.valid r = true in
       (finalSave = true ∨ brings_valid →
        Sitemap.exports st' = S (Sitemap.exports st)
        ∧ Sitemap.outputFile st' = Sitemap.jsonOutputFile st'
        ∧ Sitemap.jsonOutputFile st' = Content (Sitemap.loadExistingData st'))
       ∧ (¬ (finalSave = true ∨ brings_valid) → st' = st)).
Proof.
  split.
  - intros newData finalSave st st' total. subst st' total.
    unfold UrlList.saveData.
    set (merged := UrlList.merge _ _ _).
    destruct (finalSave || (length merged mod 50 =? 0)%nat) eqn:Hc;
      cbn [UrlList.loadExistingData UrlList.jsonOutputFile UrlList.outputFile
           UrlList.exports UrlList.write_json UrlList.write_xlsx read_array].
    + split; [done|]. split; [done|]. intros H. destruct H.
      apply orb_true_iff in Hc as [?|?%Nat.eqb_eq]; by [left|right].
    + apply orb_false_iff in Hc as [-> Hm%Nat.eqb_neq].
      split; [done|]. split; [|done]. intros [?|?]; done.
  - intros newData finalSave st st' brings_valid.
    assert (brings_valid ↔ (0 < length (List.filter Sitemap.valid newData))%nat) as Hv.
    { subst brings_valid. split.
      - intros (r & Hr & Hvalid).
        assert (r ∈ List.filter Sitemap.valid newData) as Hin.
        { apply list_elem_of_In, filter_In. by rewrite -list_elem_of_In. }
        destruct (List.filter Sitemap.valid newData); [by inversion Hin|simpl; lia].
      - destruct (List.filter Sitemap.valid newData) as [|r l] eqn:Hf; simpl; [lia|].
        intros _. exists r.
        assert (In r (List.filter Sitemap.valid newData)) as Hin by (rewrite Hf; by left).
        apply filter_In in Hin as [? ?]. by rewrite list_elem_of_In. }
    subst st'. unfold Sitemap.saveData.
    set (merged := Sitemap.merge _ _ _).
    destruct (List.filter Sitemap.valid newData) as [|r l] eqn:Hf; simpl in *.
    + destruct finalSave; simpl.
      * split; [done|]. intros H. destruct H. by left.
      * split; [|done]. intros [?|?%Hv]; [done|lia].
    + split; [by destruct finalSave|].
      intros H. destruct H. right. apply Hv. lia.
Qed.

Lemma export_regenerated_iff_witness :
  let t := Sitemap.scrapeTireData page_no_price product_url in
  Sitemap.saveData [t] false fresh = fresh.
Proof.
  apply (proj2 (proj2 export_regenerated_iff
                  [Sitemap.scrapeTireData page_no_price product_url] false fresh)).
  intros [H|(r & Hr & Hvalid)]; [discriminate H|].
  apply list_elem_of_In in Hr. destruct Hr as [<-|[]]. discriminate Hvalid.
Defined.

(** ** What [scrapeUrl] returns *)

Section Returned.

Variables (cfg : Sitemap.Config) (parse : URLParser) (web : Web) (u : string).

Lemma not_missing_mandatory t : Sitemap.essential_missing t = false → mandatory t.
Proof.
  unfold Sitemap.essential_missing, mandatory.
  rewrite orb_false_iff !negb_false_iff !truthy_true. tauto.
Qed.

Lemma try_return st st' t :
  Sitemap.scrapeUrl_try cfg parse web u st = (st', Return (Some t)) → mandatory t.
Proof.
  unfold Sitemap.scrapeUrl_try.
  destruct (negb _); [done|].
  destruct (axios_get _ _ _) as [[status data]|e]; [|done].
  destruct (negb _); [done|].
  destruct (Sitemap.essential_missing _) eqn:Hm; [done|].
  intros [= _ <-]. by apply not_missing_mandatory.
Qed.

(** A record that [scrapeUrl] returns has a name and a size. *)
Lemma scrapeUrl_fuel_return fuel retryCount st st' t :
  Sitemap.scrapeUrl_fuel fuel cfg parse web u retryCount st = Some (st', Return (Some t)) →
  mandatory t.
Proof.
  revert retryCount st. induction fuel as [|fuel IH]; intros retryCount st; [done|].
  simpl.
  destruct (Sitemap.scrapeUrl_try cfg parse web u st) as [st1 [r|e]] eqn:Htry.
  - intros [= <- ->]. by eapply try_return.
  - destruct (_ <? _)%nat; [apply IH|done].
Qed.

End Returned.

(** ** Appending *)

Section Appended.

Context {A : Type} (key : A → string).

Lemma appended_refl l : appended key l l.
Proof.
  exists []. rewrite app_nil_r. split; [done|]. split; [apply NoDup_nil_2|].
  by intros r ?%elem_of_nil.
Qed.

Lemma appended_one l x : key x ∉ key <$> l → appended key l (l ++ [x]).
Proof.
  intros Hx. exists [x]. split; [done|]. split; [apply NoDup_singleton|].
  by intros r ->%list_elem_of_singleton.
Qed.

Lemma appended_trans l1 l2 l3 :
  appended key l1 l2 → appended key l2 l3 → appended key l1 l3.
Proof.
  intros (a1 & -> & Hnd1 & Hfresh1) (a2 & -> & Hnd2 & Hfresh2).
  exists (a1 ++ a2). split; [by rewrite app_assoc|]. split.
  - rewrite fmap_app. apply NoDup_app. split; [done|]. split; [|done].
    intros k (r1 & -> & Hr1)%list_elem_of_fmap (r2 & Hk & Hr2)%list_elem_of_fmap.
    apply (Hfresh2 r2 Hr2). rewrite -Hk fmap_app elem_of_app. right.
    apply list_elem_of_fmap. by exists r1.
  - intros r [Hr|Hr]%elem_of_app; [by apply Hfresh1|].
    intros Hin. apply (Hfresh2 r Hr). rewrite fmap_app elem_of_app. by left.
Qed.

(** Appending keeps the keys pairwise distinct. *)
Lemma appended_NoDup l l' :
  appended key l l' → NoDup (key <$> l) → NoDup (key <$> l').
Proof.
  intros (added & -> & Hnd & Hfresh) Hl.
  rewrite fmap_app. apply NoDup_app. split; [done|]. split; [|done].
  intros k Hk (r & -> & Hr)%list_elem_of_fmap. by apply (Hfresh r Hr).
Qed.

End Appended.

(** ** The record store *)

Section Merge.

(** The merge loop only appends, and what it appends comes from the new
    records. *)
Lemma Sitemap_merge_elem r existingUrls mergedData validNewData :
  r ∈ Sitemap.merge existingUrls mergedData validNewData →
  r ∈ mergedData ∨ r ∈ validNewData.
Proof.
  revert existingUrls mergedData.
  induction validNewData as [|newItem rest IH]; intros existingUrls mergedData; simpl.
  - by left.
  - destruct (_ && _).
    + intros [[?|?%list_elem_of_singleton]%elem_of_app|?]%IH.
      * by left.
      * subst. right. by left.
      * right. by right.
    + intros [?|?]%IH; [by left|right; by right].
Qed.

Lemma UrlList_merge_elem r existingUrls mergedData newData :
  r ∈ UrlList.merge existingUrls mergedData newData →
  r ∈ mergedData ∨ r ∈ newData.
Proof.
  revert existingUrls mergedData.
  induction newData as [|newItem rest IH]; intros existingUrls mergedData; simpl.
  - by left.
  - destruct (negb _).
    + intros [[?|?%list_elem_of_singleton]%elem_of_app|?]%IH.
      * by left.
      * subst. right. by left.
      * right. by right.
    + intros [?|?]%IH; [by left|right; by right].
Qed.

(** While the set holds the URLs of the records merged so far, the loop
    appends records with fresh, pairwise distinct URLs. *)
Lemma Sitemap_merge_appended existingUrls mergedData validNewData :
  (∀ u, u ∈ existingUrls ↔ u ∈ Sitemap.url <$> mergedData) →
  appended Sitemap.url mergedData (Sitemap.merge existingUrls mergedData validNewData).
Proof.
  revert existingUrls mergedData.
  induction validNewData as [|newItem rest IH]; intros existingUrls mergedData Hset;
    simpl; [apply appended_refl|].
  destruct (JS.truthy _); simpl; [|by apply IH].
  case_bool_decide as Hin; simpl; [by apply IH|].
  eapply appended_trans; [apply appended_one; by rewrite -Hset|].
  apply IH. intros u.
  rewrite fmap_app elem_of_app elem_of_union elem_of_singleton -Hset.
  simpl. rewrite list_elem_of_singleton. tauto.
Qed.

Lemma UrlList_merge_appended existingUrls mergedData newData :
  (∀ u, u ∈ existingUrls ↔ u ∈ UrlList.url <$> mergedData) →
  appended UrlList.url mergedData (UrlList.merge existingUrls mergedData newData).
Proof.
  revert existingUrls mergedData.
  induction newData as [|newItem rest IH]; intros existingUrls mergedData Hset;
    simpl; [apply appended_refl|].
  case_bool_decide as Hin; simpl; [by apply IH|].
  eapply appended_trans; [apply appended_one; by rewrite -Hset|].
  apply IH. intros u.
  rewrite fmap_app elem_of_app elem_of_union elem_of_singleton -Hset.
  simpl. rewrite list_elem_of_singleton. tauto.
Qed.

(** What a flush leaves in the store: the store as it was, or the merge. *)
Lemma Sitemap_saveData_store newData finalSave st :
  Sitemap.loadExistingData (Sitemap.saveData newData finalSave st)
  = Sitemap.loadExistingData st
  ∨ Sitemap.loadExistingData (Sitemap.saveData newData finalSave st)
    = Sitemap.merge (list_to_set (Sitemap.url <$> Sitemap.loadExistingData st))
        (Sitemap.loadExistingData st) (List.filter Sitemap.valid newData).
Proof.
  unfold Sitemap.saveData.
  destruct (_ && _); [by left|]. right.
  by destruct (_ || _).
Qed.

Lemma UrlList_saveData_store newData finalSave st :
  UrlList.loadExistingData (UrlList.saveData newData finalSave st)
  = UrlList.merge (list_to_set (UrlList.url <$> UrlList.loadExistingData st))
      (UrlList.loadExistingData st) newData.
Proof.
  unfold UrlList.saveData. by destruct (_ || _).
Qed.

Lemma Sitemap_saveData_appended newData finalSave st :
  appended Sitemap.url (Sitemap.loadExistingData st)
    (Sitemap.loadExistingData (Sitemap.saveData newData finalSave st)).
Proof.
  destruct (Sitemap_saveData_store newData finalSave st) as [-> | ->];
    [apply appended_refl|].
  apply Sitemap_merge_appended. intros u. by rewrite elem_of_list_to_set.
Qed.

Lemma UrlList_saveData_appended newData finalSave st :
  appended UrlList.url (UrlList.loadExistingData st)
    (UrlList.loadExistingData (UrlList.saveData newData finalSave st)).
Proof.
  rewrite UrlList_saveData_store.
  apply UrlList_merge_appended. intros u. by rewrite elem_of_list_to_set.
Qed.

Lemma valid_mandatory r : Sitemap.valid r = true → mandatory r.
Proof.
  unfold Sitemap.valid, mandatory.
  rewrite !andb_true_iff !truthy_true. tauto.
Qed.

Lemma Sitemap_saveData_elem newData finalSave st r :
  r ∈ Sitemap.loadExistingData (Sitemap.saveData newData finalSave st) →
  r ∈ Sitemap.loadExistingData st ∨ (r ∈ newData ∧ Sitemap.valid r = true).
Proof.
  destruct (Sitemap_saveData_store newData finalSave st) as [-> | ->]; [by left|].
  intros [?|Hr]%Sitemap_merge_elem; [by left|right].
  apply list_elem_of_In, filter_In in Hr as [? ?]. by rewrite list_elem_of_In.
Qed.

End Merge.

(** C4.  Whatever sequence of flushes is run, the store it leaves is the
    store it found followed by records whose URLs are pairwise distinct and
    were not in the store: the merge appends a record only when its URL is
    not yet there.  So the URLs of the store are pairwise distinct after the
    sequence when they were before it, as they are in a store that does not
    exist yet.  This holds in both scripts. *)
Theorem store_urls_distinct :
  (∀ ops st,
     appended Sitemap.url (Sitemap.loadExistingData st)
       (Sitemap.loadExistingData (flushes ops st))
     ∧ (NoDup (Sitemap.url <$> Sitemap.loadExistingData st) →
        NoDup (Sitemap.url <$> Sitemap.loadExistingData (flushes ops st))))
  ∧ (∀ ops st,
       appended UrlList.url (UrlList.loadExistingData st)
         (UrlList.loadExistingData (flushes_list ops st))
       ∧ (NoDup (UrlList.url <$> UrlList.loadExistingData st) →
          NoDup (UrlList.url <$> UrlList.loadExistingData (flushes_list ops st)))).
Proof.
  split.
  - assert (∀ ops st, appended Sitemap.url (Sitemap.loadExistingData st)
                        (Sitemap.loadExistingData (flushes ops st))) as Happ.
    { intros ops. induction ops as [|[newData finalSave] ops IH]; intros st;
        [apply appended_refl|].
      simpl. eapply appended_trans; [apply Sitemap_saveData_appended|apply IH]. }
    intros ops st. split; [done|]. by apply appended_NoDup.
  - assert (∀ ops st, appended UrlList.url (UrlList.loadExistingData st)
                        (UrlList.loadExistingData (flushes_list ops st))) as Happ.
    { intros ops. induction ops as [|[newData finalSave] ops IH]; intros st;
        [apply appended_refl|].
      simpl. eapply appended_trans; [apply UrlList_saveData_appended|apply IH]. }
    intros ops st. split; [done|]. by apply appended_NoDup.
Qed.

Lemma store_urls_distinct_witness :
  let t := Sitemap.scrapeTireData page_full product_url in
  NoDup (Sitemap.url <$> Sitemap.loadExistingData
           (flushes [([t; t], false); ([t], false); ([t], true)] fresh)).
Proof.
  apply (proj2 (proj1 store_urls_distinct _ _)). simpl. apply NoDup_nil_2.
Defined.

(** C5.  A record that [scrapeUrl] hands on has a name and a size, and a
    flush of the sitemap script writes a record to the store only if it came
    with valid fields, name and size among them; so a record whose name or
    size is empty is never written, and after any sequence of flushes every
    record of the store has a name and a size, provided those of the store
    it started from had. *)
Theorem store_has_mandatory_fields :
  (∀ cfg parse web u retryCount st st' t,
     Sitemap.scrapeUrl cfg parse web u retryCount st = Some (st', Return (Some t)) →
     mandatory t)
  ∧ (∀ newData finalSave st r,
       r ∈ Sitemap.loadExistingData (Sitemap.saveData newData finalSave st) →
       r ∈ Sitemap.loadExistingData st ∨ (r ∈ newData ∧ mandatory r))
  ∧ (∀ ops st,
       Forall mandatory (Sitemap.loadExistingData st) →
       Forall mandatory (Sitemap.loadExistingData (flushes ops st))).
Proof.
  assert (∀ newData finalSave st r,
     r ∈ Sitemap.loadExistingData (Sitemap.saveData newData finalSave st) →
     r ∈ Sitemap.loadExistingData st ∨ (r ∈ newData ∧ mandatory r)) as Hstep.
  { intros newData finalSave st r [?|[? ?%valid_mandatory]]%Sitemap_saveData_elem;
      [by left|by right]. }
  split; [|split; [done|]].
  { intros cfg parse web u retryCount st st' t. apply scrapeUrl_fuel_return. }
  intros ops. induction ops as [|[newData finalSave] ops IH]; intros st Hall; [done|].
  simpl. apply IH. apply Forall_forall. intros r [?|[_ ?]]%Hstep; [|done].
  by eapply Forall_forall in Hall.
Qed.

Lemma store_has_mandatory_fields_witness :
  let full := Sitemap.scrapeTireData page_full product_url in
  let no_price := Sitemap.scrapeTireData page_no_price other_url in
  let no_size := Sitemap.scrapeTireData page_no_size "https://www.pitstoparabia.com/x" in
  Forall mandatory
    (Sitemap.loadExistingData
       (flushes [([no_size; no_price], false); ([no_size], true)]
          (Sitemap.saveData [full] false fresh))).
Proof.
  apply (proj2 (proj2 store_has_mandatory_fields)).
  apply Forall_cons. split; [|apply Forall_nil_2].
  split; discriminate.
Defined.

(** ** The ledgers *)

Section Ledgers.

Lemma ledger_set_ledger f g v st :
  Sitemap.ledger f (Sitemap.set_ledger g v st)
  = match f, g with
    | Sitemap.successFile, Sitemap.successFile
    | Sitemap.failedFile, Sitemap.failedFile
    | Sitemap.nonMatchFile, Sitemap.nonMatchFile => v
    | _, _ => Sitemap.ledger f st
    end.
Proof. by destruct f, g. Qed.

Lemma includes_true u l : includes u l = true ↔ u ∈ l.
Proof. unfold includes. apply bool_decide_eq_true. Qed.

Lemma includes_false u l : includes u l = false ↔ u ∉ l.
Proof. unfold includes. apply bool_decide_eq_false. Qed.

(** One call adds at most its own URL, at the end, and only to its own
    ledger when the URL is not there. *)
Lemma saveProgress_load u g st f :
  Sitemap.loadProcessedUrls f (Sitemap.saveProgress u g st)
  = Sitemap.loadProcessedUrls f st
  ∨ (f = g ∧ (u ∉ Sitemap.loadProcessedUrls f st)
     ∧ Sitemap.loadProcessedUrls f (Sitemap.saveProgress u g st)
       = Sitemap.loadProcessedUrls f st ++ [u]).
Proof.
  unfold Sitemap.saveProgress.
  destruct (includes u _) eqn:Hin; simpl; [by left|].
  apply includes_false in Hin.
  unfold Sitemap.loadProcessedUrls in *. rewrite ledger_set_ledger.
  destruct f, g; try (by left); right; done.
Qed.

Lemma saveProgress_elem u f st :
  u ∈ Sitemap.loadProcessedUrls f (Sitemap.saveProgress u f st).
Proof.
  unfold Sitemap.saveProgress.
  destruct (includes u _) eqn:Hin; simpl; [by apply includes_true in Hin|].
  unfold Sitemap.loadProcessedUrls. rewrite ledger_set_ledger.
  destruct f; simpl; apply elem_of_app; right; by left.
Qed.

Lemma saveProgress_present u f st :
  u ∈ Sitemap.loadProcessedUrls f st → Sitemap.saveProgress u f st = st.
Proof.
  intros Hin%includes_true. unfold Sitemap.saveProgress. by rewrite Hin.
Qed.

Lemma saveProgress_twice u f st :
  Sitemap.saveProgress u f (Sitemap.saveProgress u f st) = Sitemap.saveProgress u f st.
Proof. apply saveProgress_present, saveProgress_elem. Qed.

Lemma saveProgress_other_fields u f st :
  Sitemap.requests (Sitemap.saveProgress u f st) = Sitemap.requests st
  ∧ Sitemap.clock (Sitemap.saveProgress u f st) = Sitemap.clock st
  ∧ Sitemap.jsonOutputFile (Sitemap.saveProgress u f st) = Sitemap.jsonOutputFile st
  ∧ Sitemap.outputFile (Sitemap.saveProgress u f st) = Sitemap.outputFile st
  ∧ Sitemap.exports (Sitemap.saveProgress u f st) = Sitemap.exports st.
Proof. unfold Sitemap.saveProgress. by destruct (negb _). Qed.

Lemma fmap_self (l : list string) : (λ url, url) <$> l = l.
Proof. induction l as [|x l IH]; [done|]. rewrite fmap_cons. by f_equal. Qed.

End Ledgers.

(** C8, counterexample.  A success ledger that holds a URL twice still holds
    it twice after a call of [saveProgress]: the call removes nothing, and
    nothing removes duplicates. *)
Lemma ledger_duplicates_kept_counterexample :
  let st := Sitemap.set_ledger Sitemap.successFile
              (Content ["https://a.example/1"; "https://a.example/1"]) fresh in
  let l := Sitemap.loadProcessedUrls Sitemap.successFile
             (saveProgress_all [("https://a.example/2", Sitemap.successFile)] st) in
  l = ["https://a.example/1"; "https://a.example/1"; "https://a.example/2"]
  ∧ ¬ NoDup l.
Proof.
  split; [by vm_compute|].
  vm_compute. intros [Hnotin _]%NoDup_cons. apply Hnotin. by left.
Qed.

(** C8, amended.  Whatever a ledger file holds and whatever calls of
    [saveProgress] follow, on this ledger or on the others, the resulting
    sequence is the sequence the file held followed by URLs that are
    pairwise distinct and were not in it: nothing is removed or reordered,
    and a URL is added only when absent.  When the file held no URL twice,
    the result holds none twice. *)
Theorem ledger_append_only calls st f :
  appended (λ url, url) (Sitemap.loadProcessedUrls f st)
    (Sitemap.loadProcessedUrls f (saveProgress_all calls st))
  ∧ (NoDup (Sitemap.loadProcessedUrls f st) →
     NoDup (Sitemap.loadProcessedUrls f (saveProgress_all calls st))).
Proof.
  assert (appended (λ url, url) (Sitemap.loadProcessedUrls f st)
            (Sitemap.loadProcessedUrls f (saveProgress_all calls st))) as Happ.
  { revert st. induction calls as [|[u g] calls IH]; intros st; [apply appended_refl|].
    simpl. eapply appended_trans; [|apply IH].
    destruct (saveProgress_load u g st f) as [->|(_ & Hnotin & ->)];
      [apply appended_refl|].
    apply appended_one. by intros (y & <- & Hy)%list_elem_of_fmap. }
  split; [done|]. intros Hnd.
  apply appended_NoDup in Happ.
  - by rewrite fmap_self in Happ.
  - by rewrite fmap_self.
Qed.

Lemma ledger_append_only_witness :
  let st := Sitemap.set_ledger Sitemap.failedFile (Content ["https://a.example/1"]) fresh in
  NoDup (Sitemap.loadProcessedUrls Sitemap.failedFile
           (saveProgress_all
              [("https://a.example/2", Sitemap.failedFile);
               ("https://a.example/1", Sitemap.failedFile);
               ("https://a.example/2", Sitemap.successFile);
               ("https://a.example/2", Sitemap.failedFile)] st)).
Proof.
  apply (proj2 (ledger_append_only _ _ _)).
  simpl. apply NoDup_singleton.
Defined.

(** ** Retries *)

Local Open Scope nat_scope.

Section Retries.

Variables (cfg : Sitemap.Config) (parse : URLParser) (web : Web) (u : string).

(** An attempt that throws was made on a target URL; it leaves the request
    in the log and nothing else. *)
Lemma try_throw st st' e :
  Sitemap.scrapeUrl_try cfg parse web u st = (st', Throw e) →
  Sitemap.isTargetUrl cfg parse u = true ∧ st' = Sitemap.log_request u st.
Proof.
  unfold Sitemap.scrapeUrl_try.
  destruct (Sitemap.isTargetUrl cfg parse u); simpl; [|done].
  destruct (axios_get _ _ _) as [[status data]|e']; [|by intros [= <- _]].
  destruct (negb _); [by intros [= <- _]|].
  destruct (Sitemap.essential_missing _); [by intros [= <- _]|done].
Qed.

(** An attempt on a URL outside the target domains requests nothing. *)
Lemma try_non_target st :
  Sitemap.isTargetUrl cfg parse u = false →
  Sitemap.scrapeUrl_try cfg parse web u st
  = (Sitemap.saveProgress u Sitemap.nonMatchFile st, Return None).
Proof. intros H. unfold Sitemap.scrapeUrl_try. by rewrite H. Qed.

(** More fuel than the budget leaves does not change the outcome. *)
Lemma scrapeUrl_fuel_enough fuel retryCount st :
  budget cfg parse u - retryCount < fuel →
  Sitemap.scrapeUrl_fuel fuel cfg parse web u retryCount st
  = Sitemap.scrapeUrl_fuel (S (budget cfg parse u - retryCount)) cfg parse web u
      retryCount st.
Proof.
  revert retryCount st. induction fuel as [|fuel IH]; intros retryCount st Hfuel; [lia|].
  simpl. destruct (Sitemap.scrapeUrl_try cfg parse web u st) as [st1 [r|e]]; [done|].
  fold (budget cfg parse u).
  destruct (Nat.ltb_spec retryCount (budget cfg parse u)) as [Hlt|Hge]; [|done].
  rewrite IH; [lia|].
  replace (budget cfg parse u - retryCount) with (S (budget cfg parse u - (retryCount + 1)))
    by lia.
  done.
Qed.

(** [scrapeUrl] always ends. *)
Lemma scrapeUrl_total retryCount st :
  ∃ r, Sitemap.scrapeUrl cfg parse web u retryCount st = Some r.
Proof.
  unfold Sitemap.scrapeUrl.
  rewrite scrapeUrl_fuel_enough; [unfold budget; destruct (Sitemap.isTargetUrl _ _ _); lia|].
  remember (budget cfg parse u - retryCount) as k eqn:Hk.
  revert retryCount st Hk. induction k as [|k IH]; intros retryCount st Hk; simpl.
  - destruct (Sitemap.scrapeUrl_try cfg parse web u st) as [st1 [r|e]]; [by eauto|].
    fold (budget cfg parse u).
    destruct (Nat.ltb_spec retryCount (budget cfg parse u)); [lia|by eauto].
  - destruct (Sitemap.scrapeUrl_try cfg parse web u st) as [st1 [r|e]]; [by eauto|].
    fold (budget cfg parse u).
    destruct (Nat.ltb_spec retryCount (budget cfg parse u)); [|by eauto].
    apply IH. lia.
Qed.

(** The outcome does not depend on the budget for URLs outside the target
    domains. *)
Lemma scrapeUrl_fuel_budget_irrelevant n fuel retryCount st :
  Sitemap.scrapeUrl_fuel fuel (with_maxRetriesForNonMatches n cfg) parse web u retryCount st
  = Sitemap.scrapeUrl_fuel fuel cfg parse web u retryCount st.
Proof.
  revert retryCount st. induction fuel as [|fuel IH]; intros retryCount st; [done|].
  simpl.
  change (Sitemap.scrapeUrl_try (with_maxRetriesForNonMatches n cfg) parse web u st)
    with (Sitemap.scrapeUrl_try cfg parse web u st).
  destruct (Sitemap.scrapeUrl_try cfg parse web u st) as [st1 [r|e]] eqn:Htry; [done|].
  apply try_throw in Htry as [Htarget _].
  change (Sitemap.isTargetUrl (with_maxRetriesForNonMatches n cfg) parse u)
    with (Sitemap.isTargetUrl cfg parse u).
  rewrite Htarget. simpl.
  destruct (retryCount <? Sitemap.maxRetries cfg)%nat; [apply IH|done].
Qed.

(** When every attempt on a target URL fails, the retries are used up: one
    request per value of [retryCount] up to the budget, then the failed
    ledger. *)
Lemma retries_exhausted fuel retryCount st :
  Sitemap.isTargetUrl cfg parse u = true →
  always_fails cfg parse web u →
  retryCount ≤ Sitemap.maxRetries cfg →
  Sitemap.maxRetries cfg - retryCount < fuel →
  ∃ st2 e,
    Sitemap.scrapeUrl_fuel fuel cfg parse web u retryCount st
    = Some (Sitemap.saveProgress u Sitemap.failedFile st2, Throw e)
    ∧ same_files st st2
    ∧ Sitemap.requests st2
      = Sitemap.requests st ++ replicate (S (Sitemap.maxRetries cfg - retryCount)) u.
Proof.
  intros Htarget Hfails.
  revert retryCount st. induction fuel as [|fuel IH]; intros retryCount st Hle Hfuel; [lia|].
  simpl. destruct (Hfails st) as [e He].
  destruct (Sitemap.scrapeUrl_try cfg parse web u st) as [st1 c] eqn:Htry.
  simpl in He. subst c. apply try_throw in Htry as [_ ->].
  rewrite Htarget.
  destruct (Nat.ltb_spec retryCount (Sitemap.maxRetries cfg)) as [Hlt|Hge].
  - destruct (IH (retryCount + 1)
                (Sitemap.sleep (1000 * N.of_nat (retryCount + 1))
                   (Sitemap.log_request u st)))
      as (st2 & e' & -> & Hfiles & Hreq); [lia|lia|].
    exists st2, e'. split; [done|]. split; [done|].
    rewrite Hreq. simpl.
    replace (Sitemap.maxRetries cfg - retryCount)
      with (S (Sitemap.maxRetries cfg - (retryCount + 1))) by lia.
    by rewrite -app_assoc.
  - exists (Sitemap.log_request u st), e. split; [done|]. split; [done|].
    by replace (Sitemap.maxRetries cfg - retryCount) with 0 by lia.
Qed.

End Retries.

Section RetriesList.

Variables (cfg : UrlList.Config) (web : Web) (u : string).

Lemma try_list_state st :
  (UrlList.scrapeUrl_try web u st).1 = UrlList.log_request u st.
Proof.
  unfold UrlList.scrapeUrl_try.
  destruct (axios_get _ _ _) as [[status data]|e]; [|done].
  destruct (negb _); [done|].
  destruct (UrlList.scrapeTireData _ _) as [t|e]; [|done].
  by destruct (UrlList.essential_missing _).
Qed.

(** One call of [scrapeUrl] on a URL that always fails: one request per
    value of [retryCount] up to [maxRetries], and no ledger is touched. *)
Lemma retries_exhausted_list fuel retryCount st :
  always_fails_list web u →
  retryCount ≤ UrlList.maxRetries cfg →
  UrlList.maxRetries cfg - retryCount < fuel →
  ∃ st1 e,
    UrlList.scrapeUrl_fuel fuel cfg web u retryCount st = Some (st1, Throw e)
    ∧ same_files_list st st1
    ∧ UrlList.requests st1
      = UrlList.requests st ++ replicate (S (UrlList.maxRetries cfg - retryCount)) u.
Proof.
  intros Hfails.
  revert retryCount st. induction fuel as [|fuel IH]; intros retryCount st Hle Hfuel; [lia|].
  simpl. destruct (Hfails st) as [e He].
  pose proof (try_list_state st) as Hst.
  destruct (UrlList.scrapeUrl_try web u st) as [st1 c].
  simpl in He, Hst. subst c st1.
  destruct (Nat.ltb_spec retryCount (UrlList.maxRetries cfg)) as [Hlt|Hge].
  - destruct (IH (retryCount + 1)
                (UrlList.sleep (2000 * N.of_nat (retryCount + 1))
                   (UrlList.log_request u st)))
      as (st2 & e' & -> & Hfiles & Hreq); [lia|lia|].
    exists st2, e'. split; [done|]. split; [done|].
    rewrite Hreq. simpl.
    replace (UrlList.maxRetries cfg - retryCount)
      with (S (UrlList.maxRetries cfg - (retryCount + 1))) by lia.
    by rewrite -app_assoc.
  - exists (UrlList.log_request u st), e. split; [done|]. split; [done|].
    by replace (UrlList.maxRetries cfg - retryCount) with 0 by lia.
Qed.

Lemma saveProgress_list_elem f st :
  u ∈ UrlList.loadProcessedUrls f (UrlList.saveProgress u f st).
Proof.
  unfold UrlList.saveProgress.
  destruct (includes u _) eqn:Hin; simpl; [by apply includes_true in Hin|].
  unfold UrlList.loadProcessedUrls.
  destruct f; simpl; apply elem_of_app; right; by left.
Qed.

Lemma saveProgress_list_requests f st :
  UrlList.requests (UrlList.saveProgress u f st) = UrlList.requests st.
Proof. unfold UrlList.saveProgress. destruct (negb _); [by destruct f|done]. Qed.

Lemma attempt_loop_done fuel attempts success newTireData st :
  UrlList.maxRetries cfg ≤ attempts →
  UrlList.attempt_loop fuel cfg web u attempts success newTireData st
  = Some (st, newTireData, success).
Proof.
  intros Hle.
  destruct fuel; simpl;
    by destruct (Nat.ltb_spec attempts (UrlList.maxRetries cfg)); [lia|].
Qed.

(** The loop of [runScraper] on a URL that always fails: every round left
    is a whole call of [scrapeUrl], and the last one writes the failed
    ledger. *)
Lemma attempt_loop_exhausted rounds attempts fuel newTireData st :
  always_fails_list web u →
  attempts + rounds = UrlList.maxRetries cfg →
  rounds ≤ fuel →
  ∃ st',
    UrlList.attempt_loop fuel cfg web u attempts false newTireData st
    = Some (st', newTireData, false)
    ∧ UrlList.requests st'
      = UrlList.requests st ++ replicate (rounds * S (UrlList.maxRetries cfg)) u
    ∧ (0 < rounds → u ∈ UrlList.loadProcessedUrls UrlList.failedFile st').
Proof.
  intros Hfails.
  revert attempts fuel st.
  induction rounds as [|rounds IH]; intros attempts fuel st Hsum Hfuel.
  - exists st. rewrite attempt_loop_done; [lia|].
    split; [done|]. split; [by rewrite app_nil_r|lia].
  - destruct fuel as [|fuel]; [lia|].
    cbn [UrlList.attempt_loop].
    destruct (Nat.ltb_spec attempts (UrlList.maxRetries cfg)) as [_|?]; [|lia].
    cbn [andb negb].
    destruct (retries_exhausted_list (S (UrlList.maxRetries cfg - 0)) 0 st)
      as (st1 & e & Hscrape & Hfiles & Hreq); [done|lia|lia|].
    unfold UrlList.scrapeUrl. rewrite Hscrape.
    rewrite Nat.sub_0_r in Hreq.
    destruct (Nat.leb_spec (UrlList.maxRetries cfg) (S attempts)) as [Hlast|Hmore].
    + rewrite attempt_loop_done; [done|].
      exists (UrlList.saveProgress u UrlList.failedFile st1).
      split; [done|]. split; [|intros _; apply saveProgress_list_elem].
      rewrite saveProgress_list_requests Hreq.
      assert (rounds = 0) as -> by lia. simpl. by rewrite Nat.add_0_r.
    + destruct (IH (S attempts) fuel
                  (UrlList.sleep (3000 * N.of_nat (S attempts)) st1))
        as (st' & -> & Hreq' & Hfailed); [lia|lia|].
      exists st'. split; [done|]. split; [|intros _; apply Hfailed; lia].
      rewrite Hreq'. cbn [UrlList.requests UrlList.sleep]. rewrite Hreq -app_assoc.
      f_equal. by rewrite -replicate_add.
Qed.

(** [scrapeUrl], the loop and [runScraper] always end: the fuel they are
    given is enough. *)
Lemma scrapeUrl_list_total retryCount st :
  ∃ r, UrlList.scrapeUrl cfg web u retryCount st = Some r.
Proof.
  unfold UrlList.scrapeUrl.
  remember (UrlList.maxRetries cfg - retryCount) as k eqn:Hk.
  revert retryCount st Hk. induction k as [|k IH]; intros retryCount st Hk; simpl;
    destruct (UrlList.scrapeUrl_try web u st) as [st1 [r|e]]; try (by eauto);
    destruct (Nat.ltb_spec retryCount (UrlList.maxRetries cfg)); try (by eauto);
    [lia|].
  apply IH. lia.
Qed.

Lemma attempt_loop_total fuel attempts success newTireData st :
  UrlList.maxRetries cfg - attempts ≤ fuel →
  ∃ r, UrlList.attempt_loop fuel cfg web u attempts success newTireData st = Some r.
Proof.
  revert attempts success newTireData st.
  induction fuel as [|fuel IH]; intros attempts success newTireData st Hfuel.
  - rewrite attempt_loop_done; [lia|by eauto].
  - cbn [UrlList.attempt_loop].
    destruct (_ && _); [|by eauto].
    destruct (scrapeUrl_list_total 0 st) as [[st1 c] ->].
    destruct c as [tireData|e].
    + destruct (UrlList.essential_missing tireData); [|apply IH; lia].
      destruct (_ <=? _); apply IH; lia.
    + destruct (_ <=? _); apply IH; lia.
Qed.

End RetriesList.

Lemma process_urls_total cfg web total index urls newTireData st :
  ∃ r, UrlList.process_urls cfg web total index urls newTireData st = Some r.
Proof.
  revert index newTireData st.
  induction urls as [|u rest IH]; intros index newTireData st; simpl; [by eauto|].
  destruct (attempt_loop_total cfg web u (UrlList.maxRetries cfg) 0 false newTireData st)
    as [[[st1 nd] success] ->]; [lia|].
  apply IH.
Qed.

Lemma runScraper_total cfg web urls st :
  ∃ st', UrlList.runScraper cfg web urls st = Some st'.
Proof.
  unfold UrlList.runScraper.
  destruct urls as [|u0 urls0]; [by eauto|].
  destruct (UrlList.urlsToProcess _ _) as [|t0 todo] eqn:Htodo; [by eauto|].
  destruct (process_urls_total cfg web (length (t0 :: todo)) 0 (t0 :: todo) []
              (UrlList.initializeFiles st)) as [[st1 nd] ->].
  destruct (_ <? _); by eauto.
Qed.

(** C2, counterexample.  The URL-list script with [maxRetries = 3] and a
    site that never answers: the URL is requested 12 times, not 4, before it
    is written to the failed ledger. *)
Lemma twelve_requests_counterexample :
  ∃ st,
    UrlList.runScraper UrlList.CONFIG web_down [product_url] fresh_list = Some st
    ∧ UrlList.maxRetries UrlList.CONFIG = 3
    ∧ UrlList.failed st = Content [product_url]
    ∧ UrlList.requests st = replicate 12 product_url
    ∧ length (UrlList.requests st) ≠ 4.
Proof.
  eexists. split; [vm_compute; reflexivity|].
  split; [reflexivity|]. split; [reflexivity|]. split; [reflexivity|].
  simpl. lia.
Qed.

(** C2, amended.  With [maxRetries = 3], one call of [scrapeUrl] on a URL
    whose every attempt fails makes exactly 4 requests, in both scripts.  In
    the sitemap script the call is made on a target URL and ends by writing
    the URL to the failed ledger.  In the URL-list script the call touches
    no ledger; the loop of [runScraper] makes 3 such calls, 12 requests in
    all, and then writes the URL to the failed ledger. *)
Theorem attempts_before_failed :
  (∀ cfg parse web u st,
     Sitemap.maxRetries cfg = 3 →
     Sitemap.isTargetUrl cfg parse u = true →
     always_fails cfg parse web u →
     ∃ st' e,
       Sitemap.scrapeUrl cfg parse web u 0 st = Some (st', Throw e)
       ∧ Sitemap.requests st' = Sitemap.requests st ++ [u; u; u; u]
       ∧ Sitemap.pipeline cfg parse web u st = Some (st', None)
       ∧ u ∈ Sitemap.loadProcessedUrls Sitemap.failedFile st'
       ∧ Sitemap.success st' = Sitemap.success st)
  ∧ (∀ cfg web u newTireData st,
       UrlList.maxRetries cfg = 3 →
       always_fails_list web u →
       (∃ st1 e,
          UrlList.scrapeUrl cfg web u 0 st = Some (st1, Throw e)
          ∧ UrlList.requests st1 = UrlList.requests st ++ [u; u; u; u]
          ∧ same_files_list st st1)
       ∧ (∃ st',
            UrlList.attempt_loop (UrlList.maxRetries cfg) cfg web u 0 false newTireData st
            = Some (st', newTireData, false)
            ∧ UrlList.requests st' = UrlList.requests st ++ replicate 12 u
            ∧ u ∈ UrlList.loadProcessedUrls UrlList.failedFile st')).
Proof.
  split.
  - intros cfg parse web u st Hmax Htarget Hfails.
    destruct (retries_exhausted cfg parse web u
                (S (Nat.max (Sitemap.maxRetries cfg)
                      (Sitemap.maxRetriesForNonMatches cfg) - 0)) 0 st)
      as (st2 & e & Hscrape & Hfiles & Hreq); [done|done|lia|lia|].
    exists (Sitemap.saveProgress u Sitemap.failedFile st2), e.
    split; [done|].
    rewrite Hmax in Hreq.
    destruct (saveProgress_other_fields u Sitemap.failedFile st2) as [-> _].
    split; [done|].
    split; [unfold Sitemap.pipeline, Sitemap.scrapeUrl; by rewrite Hscrape|].
    split; [apply saveProgress_elem|].
    destruct Hfiles as [<- _].
    unfold Sitemap.saveProgress. by destruct (negb _).
  - intros cfg web u newTireData st Hmax Hfails. split.
    + destruct (retries_exhausted_list cfg web u (S (UrlList.maxRetries cfg - 0)) 0 st)
        as (st1 & e & Hscrape & Hfiles & Hreq); [done|lia|lia|].
      exists st1, e. rewrite Hmax in Hreq. done.
    + destruct (attempt_loop_exhausted cfg web u (UrlList.maxRetries cfg) 0
                  (UrlList.maxRetries cfg) newTireData st)
        as (st' & Hloop & Hreq & Hfailed); [done|lia|lia|].
      exists st'. split; [done|]. rewrite Hmax in Hreq, Hfailed.
      split; [done|]. apply Hfailed. lia.
Qed.

Lemma attempts_before_failed_witness :
  ∃ st' e,
    Sitemap.scrapeUrl Sitemap.CONFIG simple_URL_parse web_down product_url 0 fresh
    = Some (st', Throw e)
    ∧ Sitemap.requests st'
      = Sitemap.requests fresh ++ [product_url; product_url; product_url; product_url]
    ∧ Sitemap.pipeline Sitemap.CONFIG simple_URL_parse web_down product_url fresh
      = Some (st', None)
    ∧ product_url ∈ Sitemap.loadProcessedUrls Sitemap.failedFile st'
    ∧ Sitemap.success st' = Sitemap.success fresh.
Proof.
  apply (proj1 attempts_before_failed Sitemap.CONFIG simple_URL_parse web_down
           product_url fresh).
  - reflexivity.
  - vm_compute. reflexivity.
  - intros st. exists RequestFailed. reflexivity.
Defined.

(** ** URLs outside the target domains *)

Section NonTarget.

Variables (cfg : Sitemap.Config) (parse : URLParser) (web : Web) (u : string).

Lemma scrapeUrl_fuel_throw fuel retryCount st st' e :
  Sitemap.scrapeUrl_fuel fuel cfg parse web u retryCount st = Some (st', Throw e) →
  Sitemap.isTargetUrl cfg parse u = true ∧ Sitemap.nonMatch st' = Sitemap.nonMatch st.
Proof.
  revert retryCount st. induction fuel as [|fuel IH]; intros retryCount st; [done|].
  simpl.
  destruct (Sitemap.scrapeUrl_try cfg parse web u st) as [st1 [r|e1]] eqn:Htry; [done|].
  apply try_throw in Htry as [Htarget ->]. rewrite Htarget.
  destruct (retryCount <? Sitemap.maxRetries cfg).
  - intros [? ?]%IH. done.
  - intros [= <- _]. split; [done|].
    unfold Sitemap.saveProgress. by destruct (negb _).
Qed.

Lemma pipeline_non_target st :
  Sitemap.isTargetUrl cfg parse u = false →
  Sitemap.pipeline cfg parse web u st
  = Some (Sitemap.saveProgress u Sitemap.nonMatchFile st, None).
Proof.
  intros Hnon. unfold Sitemap.pipeline, Sitemap.scrapeUrl. simpl.
  rewrite try_non_target; [done|]. by rewrite saveProgress_twice.
Qed.

Lemma scrapeUrl_budget_irrelevant n retryCount st :
  Sitemap.scrapeUrl (with_maxRetriesForNonMatches n cfg) parse web u retryCount st
  = Sitemap.scrapeUrl cfg parse web u retryCount st.
Proof.
  unfold Sitemap.scrapeUrl. rewrite scrapeUrl_fuel_budget_irrelevant.
  destruct (Sitemap.isTargetUrl cfg parse u) eqn:Htarget.
  - rewrite scrapeUrl_fuel_enough; [unfold budget; rewrite Htarget; simpl; lia|].
    symmetry.
    rewrite scrapeUrl_fuel_enough; [unfold budget; rewrite Htarget; simpl; lia|].
    done.
  - simpl. by rewrite !try_non_target.
Qed.

End NonTarget.

(** C9.  For a URL that the target-domain predicate rejects, the pipeline of
    the sitemap script settles with no record, has the URL in the
    non-matching ledger and adds no request to the log.  The budget
    [maxRetriesForNonMatches] plays no part: [scrapeUrl] gives the same
    result whatever its value, and whenever [scrapeUrl] ends with an error
    the URL is a target URL and the non-matching ledger is as it was. *)
Theorem non_target_never_fetched :
  (∀ cfg parse web u st,
     Sitemap.isTargetUrl cfg parse u = false →
     ∃ st',
       Sitemap.pipeline cfg parse web u st = Some (st', None)
       ∧ u ∈ Sitemap.loadProcessedUrls Sitemap.nonMatchFile st'
       ∧ Sitemap.requests st' = Sitemap.requests st
       ∧ Sitemap.success st' = Sitemap.success st
       ∧ Sitemap.failed st' = Sitemap.failed st)
  ∧ (∀ cfg n parse web u retryCount st,
       Sitemap.scrapeUrl (with_maxRetriesForNonMatches n cfg) parse web u retryCount st
       = Sitemap.scrapeUrl cfg parse web u retryCount st)
  ∧ (∀ cfg parse web u retryCount st st' e,
       Sitemap.scrapeUrl cfg parse web u retryCount st = Some (st', Throw e) →
       Sitemap.isTargetUrl cfg parse u = true
       ∧ Sitemap.nonMatch st' = Sitemap.nonMatch st).
Proof.
  split; [|split].
  - intros cfg parse web u st Hnon.
    exists (Sitemap.saveProgress u Sitemap.nonMatchFile st).
    split; [by apply pipeline_non_target|].
    split; [apply saveProgress_elem|].
    destruct (saveProgress_other_fields u Sitemap.nonMatchFile st) as [-> _].
    unfold Sitemap.saveProgress. by destruct (negb _).
  - intros cfg n parse web u retryCount st. apply scrapeUrl_budget_irrelevant.
  - intros cfg parse web u retryCount st st' e. apply scrapeUrl_fuel_throw.
Qed.

Lemma non_target_never_fetched_witness :
  ∃ st',
    Sitemap.pipeline Sitemap.CONFIG simple_URL_parse (serve page_full) other_url fresh
    = Some (st', None)
    ∧ other_url ∈ Sitemap.loadProcessedUrls Sitemap.nonMatchFile st'
    ∧ Sitemap.requests st' = Sitemap.requests fresh
    ∧ Sitemap.success st' = Sitemap.success fresh
    ∧ Sitemap.failed st' = Sitemap.failed fresh.
Proof.
  apply (proj1 non_target_never_fetched Sitemap.CONFIG simple_URL_parse
           (serve page_full) other_url fresh).
  vm_compute. reflexivity.
Defined.

(** ** Success without a record *)

Section SuccessCriterion.

Lemma valid_fields r :
  Sitemap.valid r = true →
  Sitemap.url r ≠ "" ∧ Sitemap.name r ≠ "" ∧ Sitemap.sizeNo r ≠ "" ∧ Sitemap.price r ≠ "".
Proof.
  unfold Sitemap.valid. rewrite !andb_true_iff !truthy_true. tauto.
Qed.

Lemma mandatory_not_missing r : mandatory r → Sitemap.essential_missing r = false.
Proof.
  intros [Hn%truthy_true Hs%truthy_true].
  unfold Sitemap.essential_missing. by rewrite Hn Hs.
Qed.

(** A complete record: the pipeline settles with it and the URL is in the
    success ledger. *)
Lemma pipeline_success cfg parse web u st page :
  Sitemap.isTargetUrl cfg parse u = true →
  web (Sitemap.requests st) u = Answer 200 page →
  mandatory (Sitemap.scrapeTireData page u) →
  Sitemap.pipeline cfg parse web u st
  = Some (Sitemap.saveProgress u Sitemap.successFile (Sitemap.log_request u st),
          Some (Sitemap.scrapeTireData page u)).
Proof.
  intros Htarget Hweb Hm%mandatory_not_missing.
  unfold Sitemap.pipeline, Sitemap.scrapeUrl. simpl.
  unfold Sitemap.scrapeUrl_try, axios_get. rewrite Htarget Hweb. simpl.
  rewrite Hm. by rewrite saveProgress_twice.
Qed.

Lemma urlsToProcess_skips_success urls st u :
  u ∈ Sitemap.loadProcessedUrls Sitemap.successFile st →
  u ∉ Sitemap.urlsToProcess urls st.
Proof.
  intros Hin%includes_true Hu. unfold Sitemap.urlsToProcess in Hu.
  apply list_elem_of_In, filter_In in Hu as [_ Hu].
  by rewrite Hin in Hu.
Qed.

Lemma flushes_never_add ops st t :
  Sitemap.valid t = false →
  t ∉ Sitemap.loadExistingData st →
  t ∉ Sitemap.loadExistingData (flushes ops st).
Proof.
  intros Hinvalid. revert st.
  induction ops as [|[newData finalSave] ops IH]; intros st Hnotin; [done|].
  simpl. apply IH. intros [?|[_ Hvalid]]%Sitemap_saveData_elem; [done|].
  by rewrite Hinvalid in Hvalid.
Qed.

End SuccessCriterion.

(** C10.  In the sitemap script the filter of [saveData] asks for more than
    the success criterion: a record it lets through has a URL, a name, a
    size and a price, while a target URL goes to the success ledger as soon
    as its record has a name and a size; and a URL of the success ledger is
    not handed to the batches again.  The page without a price shows the
    gap: its URL is in the success ledger, a later run skips it, and no
    sequence of flushes puts its record in the store. *)
Theorem success_without_record :
  (∀ r, Sitemap.valid r = true → Sitemap.essential_missing r = false)
  ∧ (∀ newData finalSave st r,
       r ∈ Sitemap.loadExistingData (Sitemap.saveData newData finalSave st) →
       r ∈ Sitemap.loadExistingData st
       ∨ (r ∈ newData ∧ Sitemap.url r ≠ "" ∧ Sitemap.name r ≠ ""
          ∧ Sitemap.sizeNo r ≠ "" ∧ Sitemap.price r ≠ ""))
  ∧ (∀ cfg parse web u st page,
       Sitemap.isTargetUrl cfg parse u = true →
       web (Sitemap.requests st) u = Answer 200 page →
       mandatory (Sitemap.scrapeTireData page u) →
       ∃ st1,
         Sitemap.pipeline cfg parse web u st
         = Some (st1, Some (Sitemap.scrapeTireData page u))
         ∧ u ∈ Sitemap.loadProcessedUrls Sitemap.successFile st1)
  ∧ (∀ urls st u,
       u ∈ Sitemap.loadProcessedUrls Sitemap.successFile st →
       u ∉ Sitemap.urlsToProcess urls st)
  ∧ (let t := Sitemap.scrapeTireData page_no_price product_url in
     mandatory t ∧ Sitemap.price t = ""
     ∧ (∃ st1,
          Sitemap.pipeline Sitemap.CONFIG simple_URL_parse (serve page_no_price)
            product_url fresh = Some (st1, Some t)
          ∧ Sitemap.success st1 = Content [product_url]
          ∧ Sitemap.urlsToProcess [product_url] st1 = [])
     ∧ (∀ ops st,
          t ∉ Sitemap.loadExistingData st →
          t ∉ Sitemap.loadExistingData (flushes ops st))).
Proof.
  split; [|split; [|split; [|split]]].
  - intros r Hvalid. apply mandatory_not_missing. by apply valid_mandatory.
  - intros newData finalSave st r [?|[? ?%valid_fields]]%Sitemap_saveData_elem;
      [by left|by right].
  - intros cfg parse web u st page Htarget Hweb Hm.
    eexists. split; [by apply pipeline_success|]. apply saveProgress_elem.
  - apply urlsToProcess_skips_success.
  - intros t. split; [split; discriminate|]. split; [reflexivity|].
    split.
    + eexists. split; [vm_compute; reflexivity|]. split; reflexivity.
    + intros ops st. by apply flushes_never_add.
Qed.

Lemma success_without_record_witness :
  ∃ st1,
    Sitemap.pipeline Sitemap.CONFIG simple_URL_parse (serve page_no_price)
      product_url fresh
    = Some (st1, Some (Sitemap.scrapeTireData page_no_price product_url))
    ∧ product_url ∈ Sitemap.loadProcessedUrls Sitemap.successFile st1.
Proof.
  apply (proj1 (proj2 (proj2 success_without_record))
           Sitemap.CONFIG simple_URL_parse (serve page_no_price) product_url fresh
           page_no_price).
  - vm_compute. reflexivity.
  - reflexivity.
  - split; discriminate.
Defined.


(** * Further properties of the scripts *)

Set Warnings "-clear-no-such-hyp".

(** ** One call of [scrapeUrl] in the sitemap script *)

Section ScrapeUrl.

Variables (cfg : Sitemap.Config) (parse : URLParser) (web : Web) (u : string).

Lemma scrapeTireData_url page : Sitemap.url (Sitemap.scrapeTireData page u) = u.
Proof. done. Qed.

(** The three ways an attempt ends. *)
Lemma try_cases st :
  (Sitemap.isTargetUrl cfg parse u = false
   ∧ Sitemap.scrapeUrl_try cfg parse web u st
     = (Sitemap.saveProgress u Sitemap.nonMatchFile st, Return None))
  ∨ (Sitemap.isTargetUrl cfg parse u = true
     ∧ ∃ e, Sitemap.scrapeUrl_try cfg parse web u st
            = (Sitemap.log_request u st, Throw e))
  ∨ (Sitemap.isTargetUrl cfg parse u = true
     ∧ ∃ t, Sitemap.scrapeUrl_try cfg parse web u st
            = (Sitemap.saveProgress u Sitemap.successFile (Sitemap.log_request u st),
               Return (Some t))
            ∧ Sitemap.url t = u ∧ mandatory t).
Proof.
  unfold Sitemap.scrapeUrl_try.
  destruct (Sitemap.isTargetUrl cfg parse u); simpl; [right|by left].
  destruct (axios_get _ _ _) as [[status data]|e]; [|left; by eauto].
  destruct (negb _); [left; by eauto|].
  destruct (Sitemap.essential_missing _) eqn:Hm; [left; by eauto|].
  right. split; [done|]. eexists. split; [done|].
  split; [done|]. by apply not_missing_mandatory.
Qed.

Lemma saveProgress_grown v f g st :
  grown v (Sitemap.loadProcessedUrls f st)
    (Sitemap.loadProcessedUrls f (Sitemap.saveProgress v g st)).
Proof.
  destruct (saveProgress_load v g st f) as [->|(_ & ? & ->)]; [by left|by right].
Qed.

Lemma saveProgress_other v f g st :
  f ≠ g →
  Sitemap.loadProcessedUrls f (Sitemap.saveProgress v g st)
  = Sitemap.loadProcessedUrls f st.
Proof.
  intros Hne. destruct (saveProgress_load v g st f) as [->|(? & _)]; done.
Qed.

Lemma saveProgress_same_store v f st : same_store st (Sitemap.saveProgress v f st).
Proof.
  destruct (saveProgress_other_fields v f st) as (_ & _ & ? & ? & ?). done.
Qed.

Lemma grown_refl v l : grown v l l.
Proof. by left. Qed.

(** What a call that starts at [retryCount] does: it requests its URL [k]
    times, sleeps between the requests, leaves the store alone, adds at most
    its URL to the ledgers, and the ledger it adds it to goes with the
    outcome. *)
Lemma scrapeUrl_fuel_sound fuel retryCount st st' c :
  Sitemap.scrapeUrl_fuel fuel cfg parse web u retryCount st = Some (st', c) →
  same_store st st'
  ∧ (∀ f, grown u (Sitemap.loadProcessedUrls f st) (Sitemap.loadProcessedUrls f st'))
  ∧ (∃ k,
       Sitemap.requests st' = Sitemap.requests st ++ replicate k u
       ∧ k ≤ S (Sitemap.maxRetries cfg - retryCount)
       ∧ (k = 0 ↔ Sitemap.isTargetUrl cfg parse u = false)
       ∧ Sitemap.clock st' = (Sitemap.clock st + total_delay 1000 retryCount (k - 1))%N)
  ∧ match c with
    | Return (Some t) =>
        Sitemap.isTargetUrl cfg parse u = true ∧ Sitemap.url t = u ∧ mandatory t
        ∧ u ∈ Sitemap.loadProcessedUrls Sitemap.successFile st'
        ∧ Sitemap.failed st' = Sitemap.failed st
        ∧ Sitemap.nonMatch st' = Sitemap.nonMatch st
    | Return None =>
        Sitemap.isTargetUrl cfg parse u = false
        ∧ u ∈ Sitemap.loadProcessedUrls Sitemap.nonMatchFile st'
        ∧ Sitemap.success st' = Sitemap.success st
        ∧ Sitemap.failed st' = Sitemap.failed st
    | Throw _ =>
        Sitemap.isTargetUrl cfg parse u = true
        ∧ u ∈ Sitemap.loadProcessedUrls Sitemap.failedFile st'
        ∧ Sitemap.success st' = Sitemap.success st
        ∧ Sitemap.nonMatch st' = Sitemap.nonMatch st
    end.
Proof.
  revert retryCount st. induction fuel as [|fuel IH]; intros retryCount st; [done|].
  simpl.
  destruct (try_cases st) as [[Hnon ->]|[[Htarget [e ->]]|[Htarget (t & -> & Hurl & Hm)]]].
  - intros [= <- <-]. split; [apply saveProgress_same_store|].
    split; [intros f; apply saveProgress_grown|].
    destruct (saveProgress_other_fields u Sitemap.nonMatchFile st) as (Hreq & Hclock & _).
    split.
    { exists 0. rewrite Hreq Hclock app_nil_r. simpl. rewrite N.add_0_r.
      split; [done|]. split; [lia|]. by split. }
    split; [done|]. split; [apply saveProgress_elem|].
    unfold Sitemap.saveProgress. by destruct (negb _).
  - rewrite Htarget.
    destruct (Nat.ltb_spec retryCount (Sitemap.maxRetries cfg)) as [Hlt|Hge].
    + intros (Hstore & Hgrown & (k & Hreq & Hk & Hk0 & Hclock) & Hc)%IH.
      split; [exact Hstore|]. split; [exact Hgrown|].
      split; [|destruct c as [[t|]|e']; simpl in Hc; rewrite Htarget in Hc; exact Hc].
      exists (S k). simpl in Hreq, Hclock. rewrite Hreq Hclock -app_assoc.
      split; [done|]. split; [lia|]. split; [by split|].
      assert (k ≠ 0) as Hpos by (rewrite Hk0 Htarget; done).
      destruct k as [|k']; [done|]. simpl. rewrite Nat.sub_0_r. lia.
    + intros [= <- <-].
      split; [exact (saveProgress_same_store u _ (Sitemap.log_request u st))|].
      split; [intros f; exact (saveProgress_grown u f _ (Sitemap.log_request u st))|].
      destruct (saveProgress_other_fields u Sitemap.failedFile (Sitemap.log_request u st))
        as (Hreq & Hclock & _).
      split.
      { exists 1. rewrite Hreq Hclock. simpl. rewrite N.add_0_r.
        split; [done|]. split; [lia|]. by split. }
      split; [done|]. split; [apply saveProgress_elem|].
      unfold Sitemap.saveProgress. by destruct (negb _).
  - intros [= <- <-].
    split; [exact (saveProgress_same_store u _ (Sitemap.log_request u st))|].
    split; [intros f; exact (saveProgress_grown u f _ (Sitemap.log_request u st))|].
    destruct (saveProgress_other_fields u Sitemap.successFile (Sitemap.log_request u st))
      as (Hreq & Hclock & _).
    split.
    { exists 1. rewrite Hreq Hclock. simpl. rewrite N.add_0_r.
      split; [done|]. split; [lia|]. rewrite Htarget. by split. }
    split; [done|]. split; [done|]. split; [done|].
    split; [apply saveProgress_elem|].
    unfold Sitemap.saveProgress. by destruct (negb _).
Qed.

End ScrapeUrl.

Lemma total_delay_closed b retryCount sleeps :
  total_delay (2 * b) retryCount sleeps
  = (b * N.of_nat sleeps * N.of_nat (2 * retryCount + sleeps + 1))%N.
Proof.
  revert retryCount. induction sleeps as [|n IH]; intros retryCount; simpl total_delay.
  - lia.
  - rewrite IH. nia.
Qed.

(** X1.  Whatever the site answers, a call of [scrapeUrl] of the sitemap
    script ends, and it ends with its URL in the ledger that goes with the
    outcome: the success ledger when it returns a record (whose URL is the
    one asked for), the non-matching ledger when it returns [null], the
    failed ledger when it throws.  So no later run takes the URL up
    again. *)
Theorem scrapeUrl_settles cfg parse web u st :
  ∃ st' c,
    Sitemap.scrapeUrl cfg parse web u 0 st = Some (st', c)
    ∧ match c with
      | Return (Some t) =>
          Sitemap.isTargetUrl cfg parse u = true ∧ Sitemap.url t = u
          ∧ u ∈ Sitemap.loadProcessedUrls Sitemap.successFile st'
      | Return None =>
          Sitemap.isTargetUrl cfg parse u = false
          ∧ u ∈ Sitemap.loadProcessedUrls Sitemap.nonMatchFile st'
      | Throw _ =>
          Sitemap.isTargetUrl cfg parse u = true
          ∧ u ∈ Sitemap.loadProcessedUrls Sitemap.failedFile st'
      end
    ∧ ∀ urls, u ∉ Sitemap.urlsToProcess urls st'.
Proof.
  destruct (scrapeUrl_total cfg parse web u 0 st) as [[st' c] Hrun].
  exists st', c. split; [done|].
  apply scrapeUrl_fuel_sound in Hrun as (_ & _ & _ & Hc).
  assert (u ∈ Sitemap.loadProcessedUrls Sitemap.successFile st'
          ∨ u ∈ Sitemap.loadProcessedUrls Sitemap.failedFile st'
          ∨ u ∈ Sitemap.loadProcessedUrls Sitemap.nonMatchFile st') as Hin.
  { destruct c as [[t|]|e]; naive_solver. }
  split; [destruct c as [[t|]|e]; naive_solver|].
  intros urls Hu. unfold Sitemap.urlsToProcess in Hu.
  apply list_elem_of_In, filter_In in Hu as [_ Hu].
  rewrite !andb_true_iff !negb_true_iff !includes_false in Hu.
  naive_solver.
Qed.

(** X2.  A call of [scrapeUrl] of the sitemap script requests nothing but
    its own URL: not at all when the URL is outside the target domains,
    otherwise [k] times with [1 <= k <= maxRetries + 1].  Between the
    requests it sleeps 1000 ms, 2000 ms, and so on (a linear backoff), which
    adds up to [500 * k * (k - 1)].  It never touches the record store or
    the workbook, and each ledger is as before or has the URL added at its
    end. *)
Theorem scrapeUrl_effects cfg parse web u st :
  ∃ st' c k,
    Sitemap.scrapeUrl cfg parse web u 0 st = Some (st', c)
    ∧ Sitemap.requests st' = Sitemap.requests st ++ replicate k u
    ∧ k ≤ S (Sitemap.maxRetries cfg)
    ∧ (k = 0 ↔ Sitemap.isTargetUrl cfg parse u = false)
    ∧ Sitemap.clock st' = (Sitemap.clock st + 500 * N.of_nat (k * (k - 1)))%N
    ∧ same_store st st'
    ∧ ∀ f, grown u (Sitemap.loadProcessedUrls f st) (Sitemap.loadProcessedUrls f st').
Proof.
  destruct (scrapeUrl_total cfg parse web u 0 st) as [[st' c] Hrun].
  pose proof Hrun as (Hstore & Hgrown & (k & Hreq & Hk & Hk0 & Hclock) & _)%scrapeUrl_fuel_sound.
  exists st', c, k. split; [done|]. split; [done|]. split; [lia|]. split; [done|].
  split; [|done].
  rewrite Hclock. change 1000%N with (2 * 500)%N. rewrite total_delay_closed.
  f_equal. destruct k as [|k']; simpl; [done|]. rewrite Nat.sub_0_r. nia.
Qed.

(** ** Flushes *)

Section Flush.

Lemma appended_prefix {A} (key : A → string) l l' :
  appended key l l' → ∃ added, l' = l ++ added.
Proof. intros (added & -> & _). by exists added. Qed.

(** The store after a flush of the sitemap script, in every case. *)
Lemma Sitemap_saveData_store_eq newData finalSave st :
  Sitemap.loadExistingData (Sitemap.saveData newData finalSave st)
  = Sitemap.merge (list_to_set (Sitemap.url <$> Sitemap.loadExistingData st))
      (Sitemap.loadExistingData st) (List.filter Sitemap.valid newData).
Proof.
  unfold Sitemap.saveData.
  destruct (List.filter Sitemap.valid newData) as [|r l] eqn:Hf.
  - by destruct finalSave.
  - by destruct finalSave.
Qed.

(** Every new record with a URL has its URL in the merge. *)
Lemma Sitemap_merge_complete existingUrls mergedData validNewData r :
  (∀ u, u ∈ existingUrls ↔ u ∈ Sitemap.url <$> mergedData) →
  r ∈ validNewData → Sitemap.url r ≠ "" →
  Sitemap.url r ∈ Sitemap.url <$> Sitemap.merge existingUrls mergedData validNewData.
Proof.
  revert existingUrls mergedData.
  induction validNewData as [|newItem rest IH]; intros existingUrls mergedData Hset Hr Hurl;
    [by apply elem_of_nil in Hr|].
  assert (∀ u, u ∈ ({[Sitemap.url newItem]} ∪ existingUrls : gset string)
               ↔ u ∈ Sitemap.url <$> (mergedData ++ [newItem])) as Hset'.
  { intros u. rewrite fmap_app elem_of_app elem_of_union elem_of_singleton -Hset.
    simpl. rewrite list_elem_of_singleton. tauto. }
  apply elem_of_cons in Hr as [->|Hr]; simpl.
  - apply truthy_true in Hurl. rewrite Hurl. simpl.
    case_bool_decide as Hin; simpl.
    + destruct (appended_prefix _ _ _ (Sitemap_merge_appended existingUrls mergedData rest Hset))
        as [added ->].
      rewrite fmap_app elem_of_app. left. by apply Hset.
    + destruct (appended_prefix _ _ _
                  (Sitemap_merge_appended _ (mergedData ++ [newItem]) rest Hset'))
        as [added ->].
      rewrite !fmap_app !elem_of_app. left. right. simpl. by left.
  - destruct (_ && _); by apply IH.
Qed.

(** New records whose URLs are all there change nothing. *)
Lemma Sitemap_merge_known existingUrls mergedData validNewData :
  (∀ r, r ∈ validNewData → Sitemap.url r ≠ "" → Sitemap.url r ∈ existingUrls) →
  Sitemap.merge existingUrls mergedData validNewData = mergedData.
Proof.
  induction validNewData as [|newItem rest IH]; intros Hknown; simpl; [done|].
  destruct (JS.truthy (Sitemap.url newItem)) eqn:Hurl; simpl.
  - rewrite bool_decide_eq_true_2.
    { apply Hknown; [by left|]. by apply truthy_true. }
    simpl. apply IH. intros r Hr. apply Hknown. by right.
  - apply IH. intros r Hr. apply Hknown. by right.
Qed.

Lemma UrlList_merge_complete existingUrls mergedData newData r :
  (∀ u, u ∈ existingUrls ↔ u ∈ UrlList.url <$> mergedData) →
  r ∈ newData →
  UrlList.url r ∈ UrlList.url <$> UrlList.merge existingUrls mergedData newData.
Proof.
  revert existingUrls mergedData.
  induction newData as [|newItem rest IH]; intros existingUrls mergedData Hset Hr;
    [by apply elem_of_nil in Hr|].
  assert (∀ u, u ∈ ({[UrlList.url newItem]} ∪ existingUrls : gset string)
               ↔ u ∈ UrlList.url <$> (mergedData ++ [newItem])) as Hset'.
  { intros u. rewrite fmap_app elem_of_app elem_of_union elem_of_singleton -Hset.
    simpl. rewrite list_elem_of_singleton. tauto. }
  apply elem_of_cons in Hr as [->|Hr]; simpl.
  - case_bool_decide as Hin; simpl.
    + destruct (appended_prefix _ _ _ (UrlList_merge_appended existingUrls mergedData rest Hset))
        as [added ->].
      rewrite fmap_app elem_of_app. left. by apply Hset.
    + destruct (appended_prefix _ _ _
                  (UrlList_merge_appended _ (mergedData ++ [newItem]) rest Hset'))
        as [added ->].
      rewrite !fmap_app !elem_of_app. left. right. simpl. by left.
  - destruct (negb _); by apply IH.
Qed.

Lemma UrlList_merge_known existingUrls mergedData newData :
  (∀ r, r ∈ newData → UrlList.url r ∈ existingUrls) →
  UrlList.merge existingUrls mergedData newData = mergedData.
Proof.
  induction newData as [|newItem rest IH]; intros Hknown; simpl; [done|].
  rewrite bool_decide_eq_true_2; [apply Hknown; by left|].
  simpl. apply IH. intros r Hr. apply Hknown. by right.
Qed.

(** The URLs of the store after a flush of the URL-list script. *)
Lemma UrlList_saveData_urls newData finalSave st u :
  u ∈ UrlList.url <$> UrlList.loadExistingData (UrlList.saveData newData finalSave st)
  ↔ u ∈ UrlList.url <$> UrlList.loadExistingData st
    ∨ u ∈ UrlList.url <$> newData.
Proof.
  rewrite UrlList_saveData_store. split.
  - intros (r & -> & [?|?]%UrlList_merge_elem)%list_elem_of_fmap;
      [left|right]; apply list_elem_of_fmap; by exists r.
  - intros [Hu|(r & -> & Hr)%list_elem_of_fmap].
    + destruct (appended_prefix _ _ _
                  (UrlList_merge_appended
                     (list_to_set (UrlList.url <$> UrlList.loadExistingData st))
                     (UrlList.loadExistingData st) newData
                     (λ v, elem_of_list_to_set v _))) as [added ->].
      rewrite fmap_app elem_of_app. by left.
    + apply UrlList_merge_complete; [|done]. intros v. by rewrite elem_of_list_to_set.
Qed.

Lemma Sitemap_saveData_urls newData finalSave st u :
  u ∈ Sitemap.url <$> Sitemap.loadExistingData (Sitemap.saveData newData finalSave st)
  ↔ u ∈ Sitemap.url <$> Sitemap.loadExistingData st
    ∨ ∃ r, r ∈ newData ∧ Sitemap.valid r = true ∧ Sitemap.url r = u.
Proof.
  rewrite Sitemap_saveData_store_eq. split.
  - intros (r & -> & [?|Hr]%Sitemap_merge_elem)%list_elem_of_fmap.
    + left. apply list_elem_of_fmap. by exists r.
    + right. apply list_elem_of_In, filter_In in Hr as [Hr Hv].
      exists r. by rewrite list_elem_of_In.
  - intros [Hu|(r & Hr & Hv & <-)].
    + destruct (appended_prefix _ _ _
                  (Sitemap_merge_appended
                     (list_to_set (Sitemap.url <$> Sitemap.loadExistingData st))
                     (Sitemap.loadExistingData st) (List.filter Sitemap.valid newData)
                     (λ v, elem_of_list_to_set v _))) as [added ->].
      rewrite fmap_app elem_of_app. by left.
    + apply Sitemap_merge_complete.
      * intros v. by rewrite elem_of_list_to_set.
      * apply list_elem_of_In, filter_In. by rewrite -list_elem_of_In.
      * by apply valid_fields in Hv as [? _].
Qed.

End Flush.

(** X3.  A flush of the sitemap script, forced or not: the URLs of the store
    afterwards are those it had and those of the valid new records; the
    store it had is still there, unchanged, at the front, so a record that
    is stored is never replaced by a newer one of the same URL; and
    flushing the same records once more leaves the store as it is. *)
Theorem Sitemap_saveData_merges newData finalSave st :
  let st' := Sitemap.saveData newData finalSave st in
  (∀ u, u ∈ Sitemap.url <$> Sitemap.loadExistingData st'
        ↔ u ∈ Sitemap.url <$> Sitemap.loadExistingData st
          ∨ ∃ r, r ∈ newData ∧ Sitemap.valid r = true ∧ Sitemap.url r = u)
  ∧ (∃ added, Sitemap.loadExistingData st' = Sitemap.loadExistingData st ++ added)
  ∧ (∀ finalSave',
       Sitemap.loadExistingData (Sitemap.saveData newData finalSave' st')
       = Sitemap.loadExistingData st').
Proof.
  intros st'. split; [intros u; apply Sitemap_saveData_urls|]. split.
  - eapply appended_prefix, Sitemap_saveData_appended.
  - intros finalSave'. rewrite Sitemap_saveData_store_eq.
    apply Sitemap_merge_known. intros r Hr _.
    apply list_elem_of_In, filter_In in Hr as [Hr Hv].
    rewrite elem_of_list_to_set. apply Sitemap_saveData_urls. right.
    exists r. by rewrite list_elem_of_In.
Qed.

(** X4.  A flush of the URL-list script stores every new record whose URL is
    not in the store yet, whatever its fields: the URLs of the store
    afterwards are those it had and those of all the new records.  The store
    it had is still there at the front, and flushing the same records once
    more leaves the store as it is. *)
Theorem UrlList_saveData_merges newData finalSave st :
  let st' := UrlList.saveData newData finalSave st in
  (∀ u, u ∈ UrlList.url <$> UrlList.loadExistingData st'
        ↔ u ∈ UrlList.url <$> UrlList.loadExistingData st
          ∨ u ∈ UrlList.url <$> newData)
  ∧ (∃ added, UrlList.loadExistingData st' = UrlList.loadExistingData st ++ added)
  ∧ (∀ finalSave',
       UrlList.loadExistingData (UrlList.saveData newData finalSave' st')
       = UrlList.loadExistingData st').
Proof.
  intros st'. split; [intros u; apply UrlList_saveData_urls|]. split.
  - eapply appended_prefix, UrlList_saveData_appended.
  - intros finalSave'. rewrite UrlList_saveData_store.
    apply UrlList_merge_known. intros r Hr.
    rewrite elem_of_list_to_set. apply UrlList_saveData_urls. right.
    apply list_elem_of_fmap. by exists r.
Qed.

(** ** One URL in the URL-list script *)

Section OneUrl.

Variables (cfg : UrlList.Config) (web : Web) (u : string).

Lemma scrapeTireData_list_return page t :
  UrlList.scrapeTireData page u = Return t → UrlList.url t = u.
Proof.
  unfold UrlList.scrapeTireData.
  destruct (split_colon_1 _); [|done]. by intros [= <-].
Qed.

Lemma not_missing_complete t : UrlList.essential_missing t = false → complete t.
Proof.
  unfold UrlList.essential_missing, complete.
  rewrite orb_false_iff !negb_false_iff !truthy_true. tauto.
Qed.

Lemma try_list_return st st1 t :
  UrlList.scrapeUrl_try web u st = (st1, Return t) → UrlList.url t = u ∧ complete t.
Proof.
  unfold UrlList.scrapeUrl_try.
  destruct (axios_get _ _ _) as [[status data]|e]; [|done].
  destruct (negb _); [done|].
  destruct (UrlList.scrapeTireData data u) as [t'|e] eqn:Hdata; [|done].
  destruct (UrlList.essential_missing t') eqn:Hm; [done|].
  intros [= _ <-]. split; [by eapply scrapeTireData_list_return|].
  by apply not_missing_complete.
Qed.

(** What a call of [scrapeUrl] does in the URL-list script: it requests its
    URL [k] times, sleeps between the requests, touches no file, and a
    record it returns is a complete record of that URL. *)
Lemma scrapeUrl_list_sound fuel retryCount st st' c :
  UrlList.scrapeUrl_fuel fuel cfg web u retryCount st = Some (st', c) →
  same_files_list st st'
  ∧ (∃ k,
       UrlList.requests st' = UrlList.requests st ++ replicate k u
       ∧ 1 ≤ k ∧ k ≤ S (UrlList.maxRetries cfg - retryCount)
       ∧ UrlList.clock st' = (UrlList.clock st + total_delay 2000 retryCount (k - 1))%N)
  ∧ (∀ t, c = Return t → UrlList.url t = u ∧ complete t).
Proof.
  revert retryCount st. induction fuel as [|fuel IH]; intros retryCount st; [done|].
  simpl.
  pose proof (try_list_state web u st) as Hst.
  destruct (UrlList.scrapeUrl_try web u st) as [st1 [t|e]] eqn:Htry; simpl in Hst; subst st1.
  - intros [= <- <-]. split; [done|]. split.
    + exists 1. simpl. rewrite N.add_0_r. split; [done|]. lia.
    + intros t' [= <-]. by eapply try_list_return.
  - destruct (Nat.ltb_spec retryCount (UrlList.maxRetries cfg)) as [Hlt|Hge].
    + intros (Hfiles & (k & Hreq & Hk1 & Hk & Hclock) & Hc)%IH.
      split; [exact Hfiles|]. split; [|done].
      exists (S k). simpl in Hreq, Hclock. rewrite Hreq Hclock -app_assoc.
      split; [done|]. split; [lia|]. split; [lia|].
      destruct k as [|k']; [lia|]. simpl. rewrite Nat.sub_0_r. lia.
    + intros [= <- <-]. split; [done|]. split; [|done].
      exists 1. simpl. rewrite N.add_0_r. split; [done|]. lia.
Qed.

(** [saveProgress] and [saveData] in the URL-list script, field by field. *)
Lemma saveProgress_list_frame v f st :
  UrlList.requests (UrlList.saveProgress v f st) = UrlList.requests st
  ∧ UrlList.clock (UrlList.saveProgress v f st) = UrlList.clock st
  ∧ UrlList.jsonOutputFile (UrlList.saveProgress v f st) = UrlList.jsonOutputFile st
  ∧ UrlList.outputFile (UrlList.saveProgress v f st) = UrlList.outputFile st
  ∧ UrlList.exports (UrlList.saveProgress v f st) = UrlList.exports st.
Proof. unfold UrlList.saveProgress. destruct (negb _); [by destruct f|done]. Qed.

Lemma saveProgress_list_load v g st f :
  UrlList.loadProcessedUrls f (UrlList.saveProgress v g st)
  = UrlList.loadProcessedUrls f st
  ∨ (f = g ∧ (v ∉ UrlList.loadProcessedUrls f st)
     ∧ UrlList.loadProcessedUrls f (UrlList.saveProgress v g st)
       = UrlList.loadProcessedUrls f st ++ [v]).
Proof.
  unfold UrlList.saveProgress.
  destruct (includes v _) eqn:Hin; simpl; [by left|].
  apply includes_false in Hin.
  destruct f, g; try (by left); right; done.
Qed.

Lemma saveProgress_list_other v f g st :
  f ≠ g → UrlList.ledger f (UrlList.saveProgress v g st) = UrlList.ledger f st.
Proof.
  intros Hne. unfold UrlList.saveProgress.
  destruct (negb _); [|done]. by destruct f, g.
Qed.

Lemma saveProgress_failed_success v st :
  UrlList.success (UrlList.saveProgress v UrlList.failedFile st) = UrlList.success st.
Proof. unfold UrlList.saveProgress. by destruct (negb _). Qed.

Lemma saveProgress_success_failed v st :
  UrlList.failed (UrlList.saveProgress v UrlList.successFile st) = UrlList.failed st.
Proof. unfold UrlList.saveProgress. by destruct (negb _). Qed.

Lemma saveProgress_list_exists v g st f :
  existsSync (UrlList.ledger f st) = true →
  existsSync (UrlList.ledger f (UrlList.saveProgress v g st)) = true.
Proof.
  intros Hex. unfold UrlList.saveProgress.
  destruct (negb _); [|done]. by destruct f, g.
Qed.

Lemma saveData_list_frame newData finalSave st :
  UrlList.success (UrlList.saveData newData finalSave st) = UrlList.success st
  ∧ UrlList.failed (UrlList.saveData newData finalSave st) = UrlList.failed st
  ∧ UrlList.requests (UrlList.saveData newData finalSave st) = UrlList.requests st
  ∧ UrlList.clock (UrlList.saveData newData finalSave st) = UrlList.clock st.
Proof. unfold UrlList.saveData. by destruct (_ || _). Qed.

Lemma attempt_loop_succeeded fuel attempts newTireData st :
  UrlList.attempt_loop fuel cfg web u attempts true newTireData st
  = Some (st, newTireData, true).
Proof. destruct fuel; simpl; by rewrite andb_false_r. Qed.

End OneUrl.

Section OneUrlLoop.

Variables (cfg : UrlList.Config) (web : Web) (u : string).

Lemma grown_trans v l1 l2 l3 : grown v l1 l2 → grown v l2 l3 → grown v l1 l3.
Proof.
  intros [->|[Hv ->]] [->|[Hv' ->]]; [by left|by right|by right|].
  destruct Hv'. apply elem_of_app. right. by left.
Qed.

(** The loop of [runScraper] for one URL, whatever the site answers. *)
Lemma attempt_loop_sound fuel attempts newTireData st st' nd' success :
  UrlList.attempt_loop fuel cfg web u attempts false newTireData st
  = Some (st', nd', success) →
  (∃ k,
     UrlList.requests st' = UrlList.requests st ++ replicate k u
     ∧ k ≤ (UrlList.maxRetries cfg - attempts) * S (UrlList.maxRetries cfg))
  ∧ settled u st st' newTireData nd' success
  ∧ (success = false → attempts < UrlList.maxRetries cfg →
     u ∈ UrlList.loadProcessedUrls UrlList.failedFile st')
  ∧ (∀ f, existsSync (UrlList.ledger f st) = true →
          existsSync (UrlList.ledger f st') = true).
Proof.
  revert attempts st st' nd' success.
  induction fuel as [|fuel IH]; intros attempts st st' nd' success.
  - simpl. destruct (Nat.ltb_spec attempts (UrlList.maxRetries cfg)); [done|].
    simpl. intros [= <- <- <-].
    split; [exists 0; rewrite app_nil_r; split; [done|lia]|].
    split; [by repeat split; try apply grown_refl|]. split; [lia|done].
  - cbn [UrlList.attempt_loop].
    destruct (Nat.ltb_spec attempts (UrlList.maxRetries cfg)) as [Hlt|Hge];
      cbn [andb negb].
    2:{ intros [= <- <- <-].
        split; [exists 0; rewrite app_nil_r; split; [done|lia]|].
        split; [by repeat split; try apply grown_refl|]. split; [lia|done]. }
    destruct (UrlList.scrapeUrl cfg web u 0 st) as [[st1 c]|] eqn:Hscrape; [|done].
    apply scrapeUrl_list_sound in Hscrape
      as ((Hs1 & Hf1 & Hj1 & Ho1 & He1) & (k1 & Hreq1 & _ & Hk1 & _) & Hc).
    rewrite Nat.sub_0_r in Hk1.
    (* what the [catch] does *)
    assert (∀ st'' nd'' s'',
      (if (UrlList.maxRetries cfg <=? S attempts)%nat
       then UrlList.attempt_loop fuel cfg web u (S attempts) false newTireData
              (UrlList.saveProgress u UrlList.failedFile st1)
       else UrlList.attempt_loop fuel cfg web u (S attempts) false newTireData
              (UrlList.sleep (3000 * N.of_nat (S attempts)) st1))
      = Some (st'', nd'', s'') →
      (∃ k,
         UrlList.requests st'' = UrlList.requests st ++ replicate k u
         ∧ k ≤ (UrlList.maxRetries cfg - attempts) * S (UrlList.maxRetries cfg))
      ∧ settled u st st'' newTireData nd'' s''
      ∧ (s'' = false → attempts < UrlList.maxRetries cfg →
         u ∈ UrlList.loadProcessedUrls UrlList.failedFile st'')
      ∧ (∀ f, existsSync (UrlList.ledger f st) = true →
              existsSync (UrlList.ledger f st'') = true)) as Hcatch.
    { intros st'' nd'' s''.
      destruct (Nat.leb_spec (UrlList.maxRetries cfg) (S attempts)) as [Hlast|Hmore].
      - rewrite attempt_loop_done; [done|]. intros [= <- <- <-].
        destruct (saveProgress_list_frame u UrlList.failedFile st1)
          as (Hreq & _ & Hj & _ & _).
        split.
        { exists k1. rewrite Hreq Hreq1. split; [done|].
          assert (UrlList.maxRetries cfg - attempts = 1) as -> by lia. lia. }
        split.
        { split; [done|].
          split; [by rewrite saveProgress_failed_success|].
          split; [by rewrite Hj|].
          destruct (saveProgress_list_load u UrlList.failedFile st1 UrlList.failedFile)
            as [Heq|(_ & Hnotin & Heq)]; rewrite Heq;
            unfold UrlList.loadProcessedUrls in *; simpl in *; rewrite Hf1;
            [by left|right; by rewrite -Hf1]. }
        split; [intros _ _; apply saveProgress_list_elem|].
        intros f Hex. apply saveProgress_list_exists.
        destruct f; simpl in *; by rewrite ?Hs1 ?Hf1.
      - intros (( k & Hreq & Hk) & Hset & Hfail & Hex)%IH.
        split.
        { exists (k1 + k). simpl in Hreq. rewrite Hreq Hreq1 -app_assoc replicate_add.
          split; [done|].
          replace (UrlList.maxRetries cfg - attempts)
            with (S (UrlList.maxRetries cfg - S attempts)) by lia.
          simpl. lia. }
        split.
        { destruct s''; simpl in *.
          - destruct Hset as (t & ? & ? & ? & Hf & Hg & ? & Hstore).
            exists t. unfold UrlList.loadProcessedUrls, UrlList.loadExistingData in *.
            simpl in *. rewrite -Hs1 -Hj1 -Hf1. done.
          - destruct Hset as (? & Hs & Hj & Hg).
            unfold UrlList.loadProcessedUrls in *. simpl in *.
            rewrite -Hs1 -Hj1 -Hf1. done. }
        split; [intros Hs'' _; apply Hfail; [done|lia]|].
        intros f Hf. apply Hex. destruct f; simpl in *; by rewrite ?Hs1 ?Hf1. }
    destruct c as [tireData|e]; [|apply Hcatch].
    destruct (UrlList.essential_missing tireData) eqn:Hm; [apply Hcatch|].
    rewrite attempt_loop_succeeded. intros [= <- <- <-].
    destruct (Hc tireData eq_refl) as [Hurl Hcomplete].
    set (st2 := UrlList.saveProgress u UrlList.successFile st1).
    destruct (saveData_list_frame (newTireData ++ [tireData]) false st2)
      as (Hs & Hf & Hreq & _).
    destruct (saveProgress_list_frame u UrlList.successFile st1)
      as (Hreq2 & _ & Hj2 & _ & _).
    split.
    { exists k1. rewrite Hreq Hreq2 Hreq1. split; [done|].
      replace (UrlList.maxRetries cfg - attempts)
        with (S (UrlList.maxRetries cfg - S attempts)) by lia.
      simpl. lia. }
    split.
    { exists tireData. split; [done|]. split; [done|]. split; [done|].
      split.
      { rewrite Hf. unfold st2. by rewrite saveProgress_success_failed. }
      assert (UrlList.loadProcessedUrls UrlList.successFile
                (UrlList.saveData (newTireData ++ [tireData]) false st2)
              = UrlList.loadProcessedUrls UrlList.successFile st2) as ->.
      { unfold UrlList.loadProcessedUrls. simpl. by rewrite Hs. }
      split.
      { destruct (saveProgress_list_load u UrlList.successFile st1 UrlList.successFile)
          as [Heq|(_ & Hnotin & Heq)]; unfold st2; rewrite Heq;
          unfold UrlList.loadProcessedUrls in *; simpl in *; rewrite Hs1;
          [by left|right; by rewrite -Hs1]. }
      split; [apply saveProgress_list_elem|].
      rewrite UrlList_saveData_store. unfold UrlList.loadExistingData, st2.
      by rewrite Hj2 Hj1. }
    split; [done|].
    intros f Hex.
    assert (existsSync (UrlList.ledger f st2) = true) as Hex2.
    { apply saveProgress_list_exists. destruct f; simpl in *; by rewrite ?Hs1 ?Hf1. }
    destruct f; simpl in *; by rewrite ?Hs ?Hf.
Qed.

End OneUrlLoop.

(** ** The loop of [runScraper] over the list *)

Section ManyUrls.

Variables (cfg : UrlList.Config) (web : Web).

Lemma grown_elem v l l' x : grown v l l' → x ∈ l' → x ∈ l ∨ x = v.
Proof.
  intros [->|[_ ->]]; [by left|].
  intros [?| ->%list_elem_of_singleton]%elem_of_app; [by left|by right].
Qed.

Lemma grown_kept v l l' x : grown v l l' → x ∈ l → x ∈ l'.
Proof. intros [->|[_ ->]] Hx; [done|]. apply elem_of_app. by left. Qed.

Lemma processed_nil st nd : processed cfg [] st st nd nd.
Proof.
  split; try done.
  - exists []. rewrite app_nil_r. split; [done|]. split; [apply Forall_nil_2|simpl; lia].
  - intros f v Hv. by left.
  - intros _ v Hv. by apply elem_of_nil in Hv.
  - exists []. rewrite app_nil_r. split; [done|]. intros t Ht. by apply elem_of_nil in Ht.
  - intros r Hr. by left.
  - exists []. by rewrite app_nil_r.
  - intros v Hv. by left.
Qed.

Lemma processed_app l1 l2 st st1 st2 nd nd1 nd2 :
  processed cfg l1 st st1 nd nd1 →
  processed cfg l2 st1 st2 nd1 nd2 →
  processed cfg (l1 ++ l2) st st2 nd nd2.
Proof.
  intros [(x1 & Hr1 & Hx1 & Hn1) Ha1 Hk1 Hall1 (new1 & Hnd1 & Hnew1) Hs1 (ad1 & Had1)
            Hss1 He1 Hd1]
         [(x2 & Hr2 & Hx2 & Hn2) Ha2 Hk2 Hall2 (new2 & Hnd2 & Hnew2) Hs2 (ad2 & Had2)
            Hss2 He2 Hd2].
  split.
  - exists (x1 ++ x2). rewrite Hr2 Hr1 app_assoc. split; [done|]. split.
    + apply Forall_app. split; eapply Forall_impl; eauto; simpl; intros v Hv;
        apply elem_of_app; by [left|right].
    + rewrite !length_app. lia.
  - intros f v [Hv|Hv]%Ha2; [|right; apply elem_of_app; by right].
    apply Ha1 in Hv as [?|?]; [by left|right; apply elem_of_app; by left].
  - intros f v Hv. by apply Hk2, Hk1.
  - intros Hpos v [Hv|Hv]%elem_of_app; [|by apply Hall2].
    destruct (Hall1 Hpos v Hv) as [?|?]; [left|right]; by apply Hk2.
  - exists (new1 ++ new2). rewrite Hnd2 Hnd1 app_assoc. split; [done|].
    intros t [Ht|Ht]%elem_of_app.
    + destruct (Hnew1 t Ht) as (? & ? & ?).
      split; [apply elem_of_app; by left|]. split; [done|]. by apply Hk2.
    + destruct (Hnew2 t Ht) as (? & ? & ?).
      split; [apply elem_of_app; by right|]. done.
  - intros r [Hr|Hr]%Hs2; [|by right].
    apply Hs1 in Hr as [?|?]; [by left|right]. rewrite Hnd2. apply elem_of_app. by left.
  - exists (ad1 ++ ad2). by rewrite Had2 Had1 app_assoc.
  - intros v [Hv|Hv]%Hss2; [|by right].
    apply Hss1 in Hv as [?|Hv]; [by left|right].
    rewrite Had2 fmap_app. apply elem_of_app. by left.
  - intros f Hf. by apply He2, He1.
  - intros [Hnd_l1 [Hnd_sep Hnd_l2]]%NoDup_app Hfresh Hdis.
    apply Hd2; [done| |].
    + intros v Hv. split; intros [Hin|Hin]%Ha1.
      * destruct (Hfresh v) as [? _]; [apply elem_of_app; by right|done].
      * by apply (Hnd_sep v).
      * destruct (Hfresh v) as [_ ?]; [apply elem_of_app; by right|done].
      * by apply (Hnd_sep v).
    + apply Hd1; [done| |done].
      intros v Hv. apply Hfresh, elem_of_app. by left.
Qed.

(** The pause between two URLs changes nothing that [processed] speaks of. *)
Lemma processed_sleep ms urls st st1 nd nd1 :
  processed cfg urls st st1 nd nd1 →
  processed cfg urls st (UrlList.sleep ms st1) nd nd1.
Proof.
  intros [Hr Ha Hk Hall Hnew Hs Had Hss He Hd].
  by split.
Qed.

Lemma processed_one u st st1 nd nd1 success :
  UrlList.attempt_loop (UrlList.maxRetries cfg) cfg web u 0 false nd st
  = Some (st1, nd1, success) →
  processed cfg [u] st st1 nd nd1.
Proof.
  intros ((k & Hreq & Hk) & Hset & Hfail & Hex)%attempt_loop_sound.
  rewrite Nat.sub_0_r in Hk.
  (* each ledger is as it was or has [u] added, and one of them is as it was *)
  assert ((∀ f, grown u (UrlList.loadProcessedUrls f st) (UrlList.loadProcessedUrls f st1))
          ∧ (UrlList.loadProcessedUrls UrlList.failedFile st1
             = UrlList.loadProcessedUrls UrlList.failedFile st
             ∨ UrlList.loadProcessedUrls UrlList.successFile st1
               = UrlList.loadProcessedUrls UrlList.successFile st)) as [Hgrown Hone].
  { destruct success; simpl in Hset.
    - destruct Hset as (t & _ & _ & _ & Hf & Hg & _ & _).
      unfold UrlList.loadProcessedUrls in *. simpl in *. rewrite Hf.
      split; [intros []; simpl; [done|rewrite Hf; by left]|by left].
    - destruct Hset as (_ & Hs & _ & Hg).
      unfold UrlList.loadProcessedUrls in *. simpl in *. rewrite Hs.
      split; [intros []; simpl; [rewrite Hs; by left|done]|by right]. }
  split.
  - exists (replicate k u). split; [done|]. split; [|rewrite length_replicate; simpl; lia].
    apply Forall_forall. intros v [-> _]%elem_of_replicate. by left.
  - intros f v Hv. destruct (grown_elem _ _ _ _ (Hgrown f) Hv) as [?| ->];
      [by left|right; by left].
  - intros f v Hv. by eapply grown_kept.
  - intros Hpos v ->%list_elem_of_singleton.
    destruct success; simpl in Hset.
    + left. by destruct Hset as (t & _ & _ & _ & _ & _ & ? & _).
    + right. by apply Hfail.
  - destruct success; simpl in Hset.
    + destruct Hset as (t & -> & Hurl & Hc & _ & _ & Hin & _).
      exists [t]. split; [done|]. intros t' ->%list_elem_of_singleton.
      rewrite Hurl. split; [by left|done].
    + destruct Hset as (-> & _). exists []. rewrite app_nil_r. split; [done|].
      intros t Ht. by apply elem_of_nil in Ht.
  - intros r Hr. destruct success; simpl in Hset.
    + destruct Hset as (t & _ & _ & _ & _ & _ & _ & Hstore).
      rewrite Hstore in Hr. by apply UrlList_merge_elem in Hr.
    + destruct Hset as (_ & _ & Hj & _). left.
      unfold UrlList.loadExistingData in *. by rewrite -Hj.
  - destruct success; simpl in Hset.
    + destruct Hset as (t & _ & _ & _ & _ & _ & _ & ->).
      eapply appended_prefix, UrlList_merge_appended.
      intros v. by rewrite elem_of_list_to_set.
    + destruct Hset as (_ & _ & Hj & _). exists [].
      unfold UrlList.loadExistingData. by rewrite Hj app_nil_r.
  - intros v Hv. destruct success; simpl in Hset.
    + destruct Hset as (t & -> & Hurl & _ & _ & Hg & _ & Hstore).
      destruct (grown_elem _ _ _ _ Hg Hv) as [?| ->]; [by left|right].
      rewrite Hstore -Hurl. apply UrlList_merge_complete.
      * intros w. by rewrite elem_of_list_to_set.
      * apply elem_of_app. right. by left.
    + destruct Hset as (_ & Hs & _). left.
      unfold UrlList.loadProcessedUrls in *. simpl in *. by rewrite -Hs.
  - done.
  - intros _ Hfresh Hdis v [Hs Hf].
    destruct (Hfresh u) as [Hus Huf]; [by left|].
    destruct Hone as [Heq|Heq].
    + rewrite Heq in Hf.
      destruct (grown_elem _ _ _ _ (Hgrown UrlList.successFile) Hs) as [?| ->];
        [by apply (Hdis v)|done].
    + rewrite Heq in Hs.
      destruct (grown_elem _ _ _ _ (Hgrown UrlList.failedFile) Hf) as [?| ->];
        [by apply (Hdis v)|done].
Qed.

(** The loop over the list. *)
Lemma process_urls_sound total index urls nd st st' nd' :
  UrlList.process_urls cfg web total index urls nd st = Some (st', nd') →
  processed cfg urls st st' nd nd'.
Proof.
  revert index nd st.
  induction urls as [|u rest IH]; intros index nd st; simpl.
  - intros [= <- <-]. apply processed_nil.
  - destruct (UrlList.attempt_loop _ _ _ _ _ _ _ _) as [[[st1 nd1] success]|] eqn:Hloop;
      [|done].
    apply processed_one in Hloop.
    intros Hrest%IH.
    apply (processed_app [u] rest _ _ _ _ _ _) with (2 := Hrest).
    destruct (_ && _); [by apply processed_sleep|done].
Qed.

End ManyUrls.

(** ** A whole run of the URL-list script *)

Section Run.

Lemma unique_from_spec seen urls v :
  v ∈ unique_from seen urls ↔ v ∈ urls ∧ v ∉ seen.
Proof.
  revert seen. induction urls as [|x urls IH]; intros seen; simpl.
  - split; [by intros ?%elem_of_nil|by intros [?%elem_of_nil _]].
  - case_bool_decide as Hx.
    + rewrite IH elem_of_cons. split; [naive_solver|].
      intros [[-> |?] ?]; [done|by split].
    + rewrite !elem_of_cons IH elem_of_union elem_of_singleton.
      split; [naive_solver|].
      intros [[-> |?] ?]; [by left|].
      destruct (decide (v = x)) as [->|]; [by left|right]. naive_solver.
Qed.

Lemma unique_from_NoDup seen urls : NoDup (unique_from seen urls).
Proof.
  revert seen. induction urls as [|x urls IH]; intros seen; simpl; [apply NoDup_nil_2|].
  case_bool_decide as Hx; [apply IH|].
  apply NoDup_cons. split; [|apply IH].
  rewrite unique_from_spec elem_of_union elem_of_singleton. naive_solver.
Qed.

Lemma unique_from_length seen urls : length (unique_from seen urls) ≤ length urls.
Proof.
  revert seen. induction urls as [|x urls IH]; intros seen; simpl; [lia|].
  case_bool_decide; simpl; [specialize (IH seen)|specialize (IH ({[x]} ∪ seen))]; lia.
Qed.

(** The list of URLs to process: those of the list that are in no ledger,
    each once. *)
Lemma urlsToProcess_list_spec urls st v :
  v ∈ UrlList.urlsToProcess urls st
  ↔ v ∈ urls
    ∧ (v ∉ UrlList.loadProcessedUrls UrlList.successFile st)
    ∧ (v ∉ UrlList.loadProcessedUrls UrlList.failedFile st).
Proof.
  unfold UrlList.urlsToProcess.
  rewrite list_elem_of_In filter_In -list_elem_of_In.
  unfold unique. rewrite unique_from_spec andb_true_iff !negb_true_iff !includes_false.
  split; [naive_solver|]. intros (? & ? & ?). split; [|done]. split; [done|].
  apply not_elem_of_empty.
Qed.

Lemma urlsToProcess_list_NoDup urls st : NoDup (UrlList.urlsToProcess urls st).
Proof.
  unfold UrlList.urlsToProcess.
  apply NoDup_ListNoDup, List.NoDup_filter, NoDup_ListNoDup, unique_from_NoDup.
Qed.

Lemma urlsToProcess_list_length urls st :
  length (UrlList.urlsToProcess urls st) ≤ length urls.
Proof.
  unfold UrlList.urlsToProcess.
  etrans; [apply List.filter_length_le|]. apply unique_from_length.
Qed.

(** [initializeFiles] creates the ledgers that are missing and changes
    nothing that can be read. *)
Lemma initializeFiles_list_spec st :
  (∀ f, UrlList.loadProcessedUrls f (UrlList.initializeFiles st)
        = UrlList.loadProcessedUrls f st)
  ∧ (∀ f, existsSync (UrlList.ledger f (UrlList.initializeFiles st)) = true)
  ∧ UrlList.jsonOutputFile (UrlList.initializeFiles st) = UrlList.jsonOutputFile st
  ∧ UrlList.requests (UrlList.initializeFiles st) = UrlList.requests st.
Proof.
  unfold UrlList.initializeFiles, UrlList.loadProcessedUrls.
  destruct st as [[] [] ? ? ? ? ?]; simpl; repeat split; by intros [].
Qed.

Lemma initializeFiles_list_present st :
  (∀ f, existsSync (UrlList.ledger f st) = true) → UrlList.initializeFiles st = st.
Proof.
  intros Hex. unfold UrlList.initializeFiles.
  pose proof (Hex UrlList.successFile) as Hs. pose proof (Hex UrlList.failedFile) as Hf.
  simpl in *. rewrite Hs. simpl. by rewrite Hf.
Qed.

(** The two ways a run goes: nothing to process, or the loop over the URLs
    to process followed by the final flush when there are new records. *)
Lemma runScraper_cases cfg web urls st st' :
  UrlList.runScraper cfg web urls st = Some st' →
  let st0 := UrlList.initializeFiles st in
  (UrlList.urlsToProcess urls st0 = [] ∧ st' = st0)
  ∨ ∃ st1 nd',
      processed cfg (UrlList.urlsToProcess urls st0) st0 st1 [] nd'
      ∧ (st' = UrlList.saveData nd' true st1 ∨ (nd' = [] ∧ st' = st1)).
Proof.
  intros Hrun st0. unfold UrlList.runScraper in Hrun. fold st0 in Hrun.
  destruct urls as [|u0 urls0]; [left; by injection Hrun as <-|].
  destruct (UrlList.urlsToProcess (u0 :: urls0) st0) as [|t0 todo] eqn:Htodo;
    [left; by injection Hrun as <-|].
  right.
  destruct (UrlList.process_urls _ _ _ _ _ _ _) as [[st1 nd']|] eqn:Hloop; [|done].
  apply process_urls_sound in Hloop. exists st1, nd'. split; [done|].
  destruct nd' as [|t nd']; simpl in Hrun; injection Hrun as <-; [by right|by left].
Qed.

End Run.

Section RunFacts.

Variables (cfg : UrlList.Config) (web : Web) (urls : list string) (st : UrlList.State).

Lemma saveData_list_loads newData finalSave st1 f :
  UrlList.loadProcessedUrls f (UrlList.saveData newData finalSave st1)
  = UrlList.loadProcessedUrls f st1.
Proof.
  destruct (saveData_list_frame newData finalSave st1) as (Hs & Hf & _).
  unfold UrlList.loadProcessedUrls. destruct f; simpl; by rewrite ?Hs ?Hf.
Qed.

Lemma saveData_list_exists newData finalSave st1 f :
  existsSync (UrlList.ledger f (UrlList.saveData newData finalSave st1))
  = existsSync (UrlList.ledger f st1).
Proof.
  destruct (saveData_list_frame newData finalSave st1) as (Hs & Hf & _).
  destruct f; simpl; by rewrite ?Hs ?Hf.
Qed.

(** A run, seen from its two ends: what [runScraper_cases] gives, with the
    final flush folded in. *)
Lemma runScraper_summary st' :
  UrlList.runScraper cfg web urls st = Some st' →
  ∃ st1 nd',
    processed cfg (UrlList.urlsToProcess urls (UrlList.initializeFiles st))
      (UrlList.initializeFiles st) st1 [] nd'
    ∧ (∀ f, UrlList.loadProcessedUrls f st' = UrlList.loadProcessedUrls f st1)
    ∧ (∀ f, existsSync (UrlList.ledger f st') = existsSync (UrlList.ledger f st1))
    ∧ UrlList.requests st' = UrlList.requests st1
    ∧ (∀ r, r ∈ UrlList.loadExistingData st' →
            r ∈ UrlList.loadExistingData st1 ∨ r ∈ nd')
    ∧ (∃ added, UrlList.loadExistingData st' = UrlList.loadExistingData st1 ++ added).
Proof.
  intros [[Htodo ->]|(st1 & nd' & Hp & Hfinal)]%runScraper_cases.
  - exists (UrlList.initializeFiles st), []. rewrite Htodo.
    split; [apply processed_nil|]. repeat split; try done.
    + intros r Hr. by left.
    + exists []. by rewrite app_nil_r.
  - exists st1, nd'. split; [done|].
    destruct Hfinal as [-> |[-> ->]].
    + split; [intros f; apply saveData_list_loads|].
      split; [intros f; apply saveData_list_exists|].
      split; [by destruct (saveData_list_frame nd' true st1) as (_ & _ & ? & _)|].
      split.
      * intros r Hr. rewrite UrlList_saveData_store in Hr.
        by apply UrlList_merge_elem in Hr.
      * eapply appended_prefix, UrlList_saveData_appended.
    + repeat split; try done.
      * intros r Hr. by left.
      * exists []. by rewrite app_nil_r.
Qed.

End RunFacts.


(** X6.  With at least one attempt allowed, a run of the URL-list script
    leaves every URL of its list in the success ledger or in the failed
    ledger, whatever the site answers.  A second run on the same list then
    finds nothing to process: it requests nothing and leaves the state as it
    is. *)
Theorem runScraper_resumes cfg web urls st :
  0 < UrlList.maxRetries cfg →
  ∃ st',
    UrlList.runScraper cfg web urls st = Some st'
    ∧ (∀ v, v ∈ urls →
         v ∈ UrlList.loadProcessedUrls UrlList.successFile st'
         ∨ v ∈ UrlList.loadProcessedUrls UrlList.failedFile st')
    ∧ ∀ web', UrlList.runScraper cfg web' urls st' = Some st'.
Proof.
  intros Hpos.
  destruct (runScraper_total cfg web urls st) as [st' Hrun].
  destruct (runScraper_summary _ _ _ _ _ Hrun)
    as (st1 & nd' & [_ _ Hkept Hall _ _ _ _ Hex _] & Hload' & Hex' & _).
  destruct (initializeFiles_list_spec st) as (_ & Hex0 & _).
  exists st'. split; [done|].
  assert (∀ v, v ∈ urls →
            v ∈ UrlList.loadProcessedUrls UrlList.successFile st'
            ∨ v ∈ UrlList.loadProcessedUrls UrlList.failedFile st') as Hin.
  { intros v Hv. rewrite !Hload'.
    destruct (decide (v ∈ UrlList.urlsToProcess urls (UrlList.initializeFiles st)))
      as [Htodo|Hknown]; [by apply Hall|].
    rewrite urlsToProcess_list_spec in Hknown.
    destruct (decide (v ∈ UrlList.loadProcessedUrls UrlList.successFile
                            (UrlList.initializeFiles st))) as [?|?];
      [left; by apply Hkept|].
    destruct (decide (v ∈ UrlList.loadProcessedUrls UrlList.failedFile
                            (UrlList.initializeFiles st))) as [?|?];
      [right; by apply Hkept|].
    by destruct Hknown. }
  split; [done|]. intros web'.
  assert (UrlList.initializeFiles st' = st') as Hinit.
  { apply initializeFiles_list_present. intros f. rewrite Hex'. apply Hex, Hex0. }
  assert (UrlList.urlsToProcess urls st' = []) as Htodo.
  { destruct (UrlList.urlsToProcess urls st') as [|v todo] eqn:Heq; [done|].
    assert (v ∈ UrlList.urlsToProcess urls st') as Hv by (rewrite Heq; by left).
    apply urlsToProcess_list_spec in Hv as (Hv & ? & ?).
    by destruct (Hin v Hv). }
  unfold UrlList.runScraper. rewrite Hinit Htodo. by destruct urls.
Qed.

Lemma runScraper_resumes_witness :
  ∃ st',
    UrlList.runScraper UrlList.CONFIG (serve page_no_size)
      [product_url; other_url; product_url] fresh_list = Some st'
    ∧ (∀ v, v ∈ [product_url; other_url; product_url] →
         v ∈ UrlList.loadProcessedUrls UrlList.successFile st'
         ∨ v ∈ UrlList.loadProcessedUrls UrlList.failedFile st')
    ∧ ∀ web', UrlList.runScraper UrlList.CONFIG web'
                [product_url; other_url; product_url] st' = Some st'.
Proof.
  apply (runScraper_resumes UrlList.CONFIG (serve page_no_size)
           [product_url; other_url; product_url] fresh_list).
  simpl. lia.
Defined.

(** X7.  After a run of the URL-list script, every URL that the run has
    added to the success ledger has a record in the store, and every record
    that the run has added to the store is a record of a URL of the list
    that is in the success ledger, with a name and a size.  The store the
    run found is still there, unchanged, at the front. *)
Theorem runScraper_store cfg web urls st :
  ∃ st',
    UrlList.runScraper cfg web urls st = Some st'
    ∧ (∀ v, v ∈ UrlList.loadProcessedUrls UrlList.successFile st' →
            v ∈ UrlList.loadProcessedUrls UrlList.successFile st
            ∨ v ∈ UrlList.url <$> UrlList.loadExistingData st')
    ∧ (∀ r, r ∈ UrlList.loadExistingData st' →
            r ∈ UrlList.loadExistingData st
            ∨ (UrlList.url r ∈ urls ∧ complete r
               ∧ UrlList.url r ∈ UrlList.loadProcessedUrls UrlList.successFile st'))
    ∧ ∃ added, UrlList.loadExistingData st' = UrlList.loadExistingData st ++ added.
Proof.
  destruct (runScraper_total cfg web urls st) as [st' Hrun].
  destruct (runScraper_summary _ _ _ _ _ Hrun)
    as (st1 & nd' & [_ _ _ _ (new & Hnd & Hnew) Hstore (ad & Had) Hss _ _]
        & Hload' & _ & _ & Hstore' & (ad' & Had')).
  destruct (initializeFiles_list_spec st) as (Hload & _ & Hj & _).
  assert (UrlList.loadExistingData (UrlList.initializeFiles st)
          = UrlList.loadExistingData st) as Hstore0.
  { unfold UrlList.loadExistingData. by rewrite Hj. }
  exists st'. split; [done|]. split; [|split].
  - intros v Hv. rewrite Hload' in Hv.
    apply Hss in Hv as [Hv|Hv]; [left; by rewrite -Hload|right].
    rewrite Had' fmap_app. apply elem_of_app. by left.
  - assert (∀ r, r ∈ nd' →
              UrlList.url r ∈ urls ∧ complete r
              ∧ UrlList.url r ∈ UrlList.loadProcessedUrls UrlList.successFile st') as Hrec.
    { intros r Hr. rewrite Hnd in Hr. simpl in Hr.
      destruct (Hnew r Hr) as (Hurl%urlsToProcess_list_spec & ? & ?).
      rewrite Hload'. by destruct Hurl. }
    intros r [Hr|Hr]%Hstore'; [|right; by apply Hrec].
    apply Hstore in Hr as [Hr|Hr]; [left; by rewrite -Hstore0|right; by apply Hrec].
  - exists (ad ++ ad'). by rewrite Had' Had Hstore0 app_assoc.
Qed.

(** X8.  A run of the URL-list script only adds to the ledgers, and if no
    URL was in both ledgers before the run, none is in both after it. *)
Theorem runScraper_ledgers cfg web urls st :
  (∀ v, ¬ (v ∈ UrlList.loadProcessedUrls UrlList.successFile st
           ∧ v ∈ UrlList.loadProcessedUrls UrlList.failedFile st)) →
  ∃ st',
    UrlList.runScraper cfg web urls st = Some st'
    ∧ (∀ f v, v ∈ UrlList.loadProcessedUrls f st → v ∈ UrlList.loadProcessedUrls f st')
    ∧ (∀ f v, v ∈ UrlList.loadProcessedUrls f st' →
              v ∈ UrlList.loadProcessedUrls f st ∨ v ∈ urls)
    ∧ ∀ v, ¬ (v ∈ UrlList.loadProcessedUrls UrlList.successFile st'
              ∧ v ∈ UrlList.loadProcessedUrls UrlList.failedFile st').
Proof.
  intros Hdis.
  destruct (runScraper_total cfg web urls st) as [st' Hrun].
  destruct (runScraper_summary _ _ _ _ _ Hrun)
    as (st1 & nd' & [_ Hadded Hkept _ _ _ _ _ _ Hd] & Hload' & _).
  destruct (initializeFiles_list_spec st) as (Hload & _).
  exists st'. split; [done|]. split; [|split].
  - intros f v Hv. rewrite Hload'. apply Hkept. by rewrite Hload.
  - intros f v Hv. rewrite Hload' in Hv.
    apply Hadded in Hv as [Hv|Hv%urlsToProcess_list_spec];
      [left; by rewrite -Hload|right; by destruct Hv].
  - intros v. rewrite !Hload'. apply Hd.
    + apply urlsToProcess_list_NoDup.
    + intros w (_ & ? & ?)%urlsToProcess_list_spec. done.
    + intros w. rewrite !Hload. apply Hdis.
Qed.

Lemma runScraper_ledgers_witness :
  ∃ st',
    UrlList.runScraper UrlList.CONFIG (serve page_full) [product_url; other_url]
      fresh_list = Some st'
    ∧ (∀ f v, v ∈ UrlList.loadProcessedUrls f fresh_list →
              v ∈ UrlList.loadProcessedUrls f st')
    ∧ (∀ f v, v ∈ UrlList.loadProcessedUrls f st' →
              v ∈ UrlList.loadProcessedUrls f fresh_list
              ∨ v ∈ [product_url; other_url])
    ∧ ∀ v, ¬ (v ∈ UrlList.loadProcessedUrls UrlList.successFile st'
              ∧ v ∈ UrlList.loadProcessedUrls UrlList.failedFile st').
Proof.
  apply (runScraper_ledgers UrlList.CONFIG (serve page_full) [product_url; other_url]
           fresh_list).
  intros v [Hv _]. simpl in Hv. inversion Hv.
Defined.

(** ** The batches of the sitemap script *)

Section Rounds.

Variables (cfg : Sitemap.Config) (urls : list string).

Let B := Sitemap.maxConcurrentRequests cfg.
Let n := length urls.

(** The rounds from index [i] on, one by one. *)
Lemma rounds_from_spec fuel i processedCount :
  0 < B → n - i ≤ fuel →
  ∃ rs,
    Sitemap.rounds_from fuel cfg urls i processedCount = Some rs
    ∧ concat (Sitemap.batch <$> rs) = drop i urls
    ∧ (∀ j, j < length rs ↔ i + j * B < n)
    ∧ ∀ j r, rs !! j = Some r →
        Sitemap.batch r = take B (drop (i + j * B) urls)
        ∧ Sitemap.pauses r = (i + j * B + B <? n)
        ∧ Sitemap.saves r
          = Sitemap.remainder_is_zero (processedCount + Nat.min (S j * B) (n - i))
              (Sitemap.saveInterval cfg)
            || (n <=? i + j * B + B).
Proof.
  intros HB. revert i processedCount.
  induction fuel as [|fuel IH]; intros i processedCount Hfuel.
  - exists []. simpl. fold n.
    destruct (Nat.ltb_spec i n); [lia|].
    split; [done|]. split; [by rewrite drop_ge|].
    split; [intros j; simpl; nia|]. intros j r Hr. by rewrite lookup_nil in Hr.
  - simpl. fold n B.
    destruct (Nat.ltb_spec i n) as [Hlt|Hge].
    2:{ exists []. split; [done|]. split; [by rewrite drop_ge|].
        split; [intros j; simpl; nia|]. intros j r Hr. by rewrite lookup_nil in Hr. }
    destruct (IH (i + B) (processedCount + length (take B (drop i urls))))
      as (rs & -> & Hcat & Hlen & Hrs); [lia|].
    eexists. split; [done|]. split; [|split].
    + simpl. rewrite Hcat -drop_drop. apply take_drop.
    + intros [|j]; simpl; [lia|]. rewrite -Nat.succ_lt_mono Hlen. nia.
    + intros [|j] r; simpl.
      * intros [= <-]. simpl. rewrite !Nat.add_0_r.
        split; [done|]. split; [done|].
        rewrite length_take length_drop. fold n. f_equal; f_equal; lia.
      * intros Hr. destruct (Hrs j r Hr) as (Hb & Hp & Hs).
        rewrite Hb Hp Hs length_take length_drop. fold n.
        split; [f_equal; f_equal; lia|]. split; [f_equal; lia|].
        f_equal; f_equal; nia.
Qed.

(** With no URL taken per round the index never moves. *)
Lemma rounds_from_stuck fuel i processedCount :
  B = 0 → i < n → Sitemap.rounds_from fuel cfg urls i processedCount = None.
Proof.
  intros HB. revert i processedCount.
  induction fuel as [|fuel IH]; intros i processedCount Hi; simpl; fold n B.
  - by destruct (Nat.ltb_spec i n); [|lia].
  - destruct (Nat.ltb_spec i n); [|lia].
    rewrite IH; [lia|done].
Qed.

End Rounds.

(** X9.  The loop of [processUrlsInBatches] with a batch size [B > 0] ends
    after as many rounds as it takes to cover the list: round [j] takes the
    URLs [j * B] to [j * B + B - 1], so the batches are the list cut in
    order into pieces of [B] URLs, the last one possibly shorter and none
    empty.  The loop pauses after every round but the last, and the last
    round always ends with a flush. *)
Theorem rounds_partition cfg urls :
  0 < Sitemap.maxConcurrentRequests cfg →
  ∃ rs,
    Sitemap.rounds cfg urls = Some rs
    ∧ concat (Sitemap.batch <$> rs) = urls
    ∧ (∀ j, j < length rs ↔ j * Sitemap.maxConcurrentRequests cfg < length urls)
    ∧ ∀ j r, rs !! j = Some r →
        Sitemap.batch r
        = take (Sitemap.maxConcurrentRequests cfg)
            (drop (j * Sitemap.maxConcurrentRequests cfg) urls)
        ∧ 0 < length (Sitemap.batch r)
        ∧ length (Sitemap.batch r) ≤ Sitemap.maxConcurrentRequests cfg
        ∧ (S j < length rs →
           length (Sitemap.batch r) = Sitemap.maxConcurrentRequests cfg)
        ∧ (Sitemap.pauses r = true ↔ S j < length rs)
        ∧ (S j = length rs → Sitemap.saves r = true).
Proof.
  intros HB.
  destruct (rounds_from_spec cfg urls (length urls) 0 0)
    as (rs & Hrun & Hcat & Hlen & Hrs); [done|lia|].
  exists rs. split; [done|]. split; [done|]. split; [done|].
  intros j r Hr. destruct (Hrs j r Hr) as (Hb & Hp & Hs). simpl in *.
  assert (j < length rs) as Hj by (by eapply lookup_lt_Some).
  pose proof (proj1 (Hlen j) Hj) as Hjn.
  pose proof (Hlen (S j)) as HSj. simpl in HSj.
  split; [done|]. rewrite Hb length_take length_drop.
  split; [lia|]. split; [lia|]. split; [lia|]. split.
  - rewrite Hp Nat.ltb_lt. lia.
  - intros Hlast. rewrite Hs orb_true_iff Nat.leb_le. right. lia.
Qed.

Lemma rounds_partition_witness :
  ∃ rs,
    Sitemap.rounds Sitemap.CONFIG (replicate 12 product_url) = Some rs
    ∧ concat (Sitemap.batch <$> rs) = replicate 12 product_url
    ∧ (∀ j, j < length rs
            ↔ j * Sitemap.maxConcurrentRequests Sitemap.CONFIG
              < length (replicate 12 product_url))
    ∧ ∀ j r, rs !! j = Some r →
        Sitemap.batch r
        = take (Sitemap.maxConcurrentRequests Sitemap.CONFIG)
            (drop (j * Sitemap.maxConcurrentRequests Sitemap.CONFIG)
               (replicate 12 product_url))
        ∧ 0 < length (Sitemap.batch r)
        ∧ length (Sitemap.batch r) ≤ Sitemap.maxConcurrentRequests Sitemap.CONFIG
        ∧ (S j < length rs →
           length (Sitemap.batch r) = Sitemap.maxConcurrentRequests Sitemap.CONFIG)
        ∧ (Sitemap.pauses r = true ↔ S j < length rs)
        ∧ (S j = length rs → Sitemap.saves r = true).
Proof.
  apply (rounds_partition Sitemap.CONFIG (replicate 12 product_url)).
  simpl. lia.
Defined.

(** X10.  A round is followed by a flush of its own results only: when the
    number of URLs processed so far is a multiple of [saveInterval], or after
    the last round.  When [saveInterval] divides the batch size, as in the
    configuration of the script (5 and 5), every round is followed by a
    flush. *)
Theorem rounds_flush cfg urls :
  0 < Sitemap.maxConcurrentRequests cfg →
  ∃ rs,
    Sitemap.rounds cfg urls = Some rs
    ∧ (∀ j r, rs !! j = Some r →
         (Sitemap.saves r = true
          ↔ S j = length rs
            ∨ (0 < Sitemap.saveInterval cfg
               ∧ (Nat.min (S j * Sitemap.maxConcurrentRequests cfg) (length urls))
                 mod Sitemap.saveInterval cfg = 0)))
    ∧ (0 < Sitemap.saveInterval cfg →
       Sitemap.maxConcurrentRequests cfg mod Sitemap.saveInterval cfg = 0 →
       ∀ r, r ∈ rs → Sitemap.saves r = true).
Proof.
  intros HB.
  destruct (rounds_from_spec cfg urls (length urls) 0 0)
    as (rs & Hrun & Hcat & Hlen & Hrs); [done|lia|].
  exists rs. split; [done|].
  assert (∀ j r, rs !! j = Some r →
         (Sitemap.saves r = true
          ↔ S j = length rs
            ∨ (0 < Sitemap.saveInterval cfg
               ∧ (Nat.min (S j * Sitemap.maxConcurrentRequests cfg) (length urls))
                 mod Sitemap.saveInterval cfg = 0))) as Hsaves.
  { intros j r Hr. destruct (Hrs j r Hr) as (_ & _ & Hs).
    assert (j < length rs) as Hj by (by eapply lookup_lt_Some).
    pose proof (Hlen (S j)) as HSj. simpl in *.
    rewrite Hs orb_true_iff Nat.leb_le Nat.sub_0_r.
    unfold Sitemap.remainder_is_zero.
    destruct (Sitemap.saveInterval cfg) as [|si] eqn:Hsi.
    - split; [intros [?|?]; [done|left; lia]|intros [?|[? _]]; [right; lia|lia]].
    - rewrite Nat.eqb_eq. split.
      + intros [?|?]; [right; split; [lia|done]|left; lia].
      + intros [?|[_ ?]]; [right; lia|by left]. }
  split; [done|].
  intros Hsi Hdiv r (j & Hr)%list_elem_of_lookup.
  apply (Hsaves j r Hr).
  assert (j < length rs) as Hj by (by eapply lookup_lt_Some).
  pose proof (Hlen (S j)) as HSj. simpl in HSj.
  destruct (decide (S j = length rs)) as [?|Hne]; [by left|right].
  split; [done|].
  rewrite Nat.min_l; [lia|].
  apply Nat.Div0.mod_divides in Hdiv as [c Hc].
  apply Nat.Div0.mod_divides. exists (S j * c). rewrite Hc. lia.
Qed.

Lemma rounds_flush_witness :
  ∃ rs,
    Sitemap.rounds Sitemap.CONFIG (replicate 12 product_url) = Some rs
    ∧ (∀ j r, rs !! j = Some r →
         (Sitemap.saves r = true
          ↔ S j = length rs
            ∨ (0 < Sitemap.saveInterval Sitemap.CONFIG
               ∧ (Nat.min (S j * Sitemap.maxConcurrentRequests Sitemap.CONFIG)
                    (length (replicate 12 product_url)))
                 mod Sitemap.saveInterval Sitemap.CONFIG = 0)))
    ∧ (0 < Sitemap.saveInterval Sitemap.CONFIG →
       Sitemap.maxConcurrentRequests Sitemap.CONFIG
         mod Sitemap.saveInterval Sitemap.CONFIG = 0 →
       ∀ r, r ∈ rs → Sitemap.saves r = true).
Proof.
  apply (rounds_flush Sitemap.CONFIG (replicate 12 product_url)).
  simpl. lia.
Defined.

(** X11.  With a batch size of 0 the loop of [processUrlsInBatches] never
    ends on a list that is not empty: the index stays where it is, whatever
    the number of rounds allowed. *)
Theorem rounds_never_end cfg urls fuel :
  Sitemap.maxConcurrentRequests cfg = 0 → urls ≠ [] →
  Sitemap.rounds_from fuel cfg urls 0 0 = None.
Proof.
  intros HB Hurls. apply rounds_from_stuck; [done|].
  destruct urls; [done|simpl; lia].
Qed.

Lemma rounds_never_end_witness :
  Sitemap.rounds_from 1000 (with_maxConcurrentRequests 0 Sitemap.CONFIG)
    [product_url] 0 0 = None.
Proof.
  apply (rounds_never_end (with_maxConcurrentRequests 0 Sitemap.CONFIG)
           [product_url] 1000).
  - reflexivity.
  - discriminate.
Defined.

(** ** Texts *)

Section Texts.

Lemma append_cons c a b : String c a +:+ b = String c (a +:+ b).
Proof. done. Qed.

Lemma append_nil_r s : s +:+ "" = s.
Proof. induction s as [|c s IH]; [done|]. by rewrite append_cons IH. Qed.

Lemma append_assoc a b c : (a +:+ b) +:+ c = a +:+ b +:+ c.
Proof. induction a as [|x a IH]; [done|]. by rewrite !append_cons IH. Qed.

Lemma span_append p s : s = (JS.span p s).1 +:+ (JS.span p s).2.
Proof.
  induction s as [|c s IH]; simpl; [done|].
  destruct (p c); [|done].
  destruct (JS.span p s) as [a b]; simpl in *. by rewrite append_cons -IH.
Qed.

Lemma span_all p s : all_chars p (JS.span p s).1 = true.
Proof.
  induction s as [|c s IH]; simpl; [done|].
  destruct (p c) eqn:Hc; [|done].
  destruct (JS.span p s) as [a b]; simpl in *. by rewrite Hc.
Qed.

Lemma span_stops p s : stops p (JS.span p s).2.
Proof.
  induction s as [|c s IH]; simpl; [done|].
  destruct (p c) eqn:Hc; [|done].
  by destruct (JS.span p s) as [a b].
Qed.

Lemma span_stop p s : stops p s → JS.span p s = ("", s).
Proof. destruct s as [|c s]; simpl; [done|]. by intros ->. Qed.

Lemma span_app_all p a b :
  all_chars p a = true →
  JS.span p (a +:+ b) = (a +:+ (JS.span p b).1, (JS.span p b).2).
Proof.
  induction a as [|c a IH].
  - intros _. change ("" +:+ b) with b. by destruct (JS.span p b).
  - rewrite append_cons. simpl. intros [-> Ha]%andb_true_iff. by rewrite (IH Ha).
Qed.

Lemma span_exact p a b :
  all_chars p a = true → stops p b → JS.span p (a +:+ b) = (a, b).
Proof.
  intros Ha Hb. rewrite span_app_all; [done|].
  by rewrite (span_stop p b Hb) append_nil_r.
Qed.

Lemma truthy_append a b : JS.truthy (a +:+ b) = JS.truthy a || JS.truthy b.
Proof. by destruct a. Qed.

Lemma space_not_digit c : JS.is_space c = true → JS.is_digit c = false.
Proof. destruct c as [[] [] [] [] [] [] [] []]; done. Qed.

End Texts.

(** ** The size of a tyre *)

Section Size.

Lemma size_match_here_sound s w r d :
  Sitemap.size_match_here s = Some (w, r, d) →
  ∃ blanks after, size_shape s "" w r blanks d after ∧ stops JS.is_digit after.
Proof.
  unfold Sitemap.size_match_here.
  pose proof (span_append JS.is_digit s) as Hs.
  pose proof (span_all JS.is_digit s) as Hw.
  destruct (JS.span JS.is_digit s) as [w0 rest]; simpl in *.
  destruct (JS.truthy w0) eqn:Hw0; [|done].
  destruct rest as [|c rest1]; [done|].
  destruct c as [[] [] [] [] [] [] [] []]; try done.
  pose proof (span_append JS.is_digit rest1) as Hs1.
  pose proof (span_all JS.is_digit rest1) as Hr.
  destruct (JS.span JS.is_digit rest1) as [r0 rest2]; simpl in *.
  destruct (JS.truthy r0) eqn:Hr0; [|done].
  pose proof (span_append JS.is_space rest2) as Hs2.
  pose proof (span_all JS.is_space rest2) as Hb.
  destruct (JS.span JS.is_space rest2) as [blanks rest3]; simpl in *.
  destruct rest3 as [|c rest4]; [done|].
  destruct c as [[] [] [] [] [] [] [] []]; try done.
  pose proof (span_append JS.is_digit rest4) as Hs4.
  pose proof (span_all JS.is_digit rest4) as Hd.
  pose proof (span_stops JS.is_digit rest4) as Hafter.
  destruct (JS.span JS.is_digit rest4) as [d0 after]; simpl in *.
  destruct (JS.truthy d0) eqn:Hd0; [|done].
  intros [= <- <- <-]. exists blanks, after. split; [|done].
  apply truthy_true in Hw0, Hr0, Hd0.
  split; [|done].
  rewrite Hs Hs1 Hs2 Hs4. done.
Qed.

Lemma size_match_sound s w r d :
  Sitemap.size_match s = Some (w, r, d) →
  ∃ before blanks after, size_shape s before w r blanks d after ∧ stops JS.is_digit after.
Proof.
  induction s as [|c s IH].
  - done.
  - cbn [Sitemap.size_match].
    destruct (Sitemap.size_match_here (String c s)) as [[[w' r'] d']|] eqn:Hhere.
    + intros [= -> -> ->].
      apply size_match_here_sound in Hhere as (blanks & after & Hshape & Hafter).
      by exists "", blanks, after.
    + intros (before & blanks & after & (-> & Hrest) & Hafter)%IH.
      exists (String c before), blanks, after. done.
Qed.

Lemma size_match_here_complete w r blanks d after :
  w ≠ "" → all_chars JS.is_digit w = true →
  r ≠ "" → all_chars JS.is_digit r = true →
  all_chars JS.is_space blanks = true →
  d ≠ "" → all_chars JS.is_digit d = true →
  ∃ g, Sitemap.size_match_here (w +:+ "/" +:+ r +:+ blanks +:+ "R" +:+ d +:+ after)
       = Some g.
Proof.
  intros Hw0 Hw Hr0 Hr Hb Hd0 Hd. unfold Sitemap.size_match_here.
  rewrite (span_exact JS.is_digit w); [done|done|].
  apply truthy_true in Hw0 as ->. rewrite append_cons.
  rewrite (span_exact JS.is_digit r); [done| |].
  { destruct blanks as [|c blanks]; [done|]. simpl in *.
    apply andb_true_iff in Hb as [Hc _]. by apply space_not_digit. }
  apply truthy_true in Hr0 as ->.
  rewrite (span_exact JS.is_space blanks); [done|done|]. simpl.
  rewrite (span_app_all JS.is_digit d); [done|].
  rewrite truthy_append. apply truthy_true in Hd0 as ->. simpl. by eauto.
Qed.

Lemma size_match_skip before x :
  (∃ g, Sitemap.size_match x = Some g) →
  ∃ g, Sitemap.size_match (before +:+ x) = Some g.
Proof.
  intros Hx. induction before as [|c before IH]; [done|].
  rewrite append_cons. cbn [Sitemap.size_match].
  destruct (Sitemap.size_match_here _); [by eauto|done].
Qed.

Lemma size_match_complete s before w r blanks d after :
  size_shape s before w r blanks d after → ∃ g, Sitemap.size_match s = Some g.
Proof.
  intros (-> & Hw0 & Hw & Hr0 & Hr & Hb & Hd0 & Hd).
  apply size_match_skip.
  destruct (size_match_here_complete w r blanks d after) as [g Hg]; try done.
  destruct w as [|c w]; [done|]. rewrite append_cons in Hg |- *.
  cbn [Sitemap.size_match]. rewrite Hg. by eauto.
Qed.

End Size.


(** ** The brand *)

Section Brand.

Lemma or_else_nil x : JS.or_else x "" = x.
Proof. by destruct x. Qed.

Lemma or_else_cases a b : JS.or_else a b = a ∨ JS.or_else a b = b.
Proof. unfold JS.or_else. destruct (JS.truthy a); by [left|right]. Qed.

Lemma before_space_spec s :
  ∃ rest,
    s = JS.before_space s +:+ rest
    ∧ (rest = "" ∨ ∃ r, rest = String " "%char r)
    ∧ all_chars not_blank (JS.before_space s) = true.
Proof.
  induction s as [|c s (rest & Hs & Hrest & Hall)]; simpl.
  - exists "". by split; [|split; [left|]].
  - destruct (Ascii.eqb_spec c " "%char) as [->|Hne].
    + exists (String " "%char s). split; [done|]. split; [right; by eauto|done].
    + exists rest. rewrite append_cons -Hs. split; [done|]. split; [done|].
      simpl. rewrite Hall andb_true_r. unfold not_blank.
      by apply negb_true_iff, Ascii.eqb_neq.
Qed.

Lemma trimStart_stops s : stops JS.is_space (JS.trimStart s).
Proof.
  induction s as [|c s IH]; simpl; [done|].
  destruct (JS.is_space c) eqn:Hc; [done|by simpl].
Qed.

Lemma trimEnd_head s :
  match JS.trimEnd s with
  | String c _ => ∃ r, s = String c r
  | EmptyString => True
  end.
Proof.
  destruct s as [|c s]; simpl; [done|].
  destruct (JS.trimEnd s); [|by eauto].
  destruct (JS.is_space c); [done|by eauto].
Qed.

(** What [trim] returns does not begin with a blank. *)
Lemma trim_stops s : stops JS.is_space (JS.trim s).
Proof.
  unfold JS.trim.
  pose proof (trimStart_stops s) as Hstart.
  pose proof (trimEnd_head (JS.trimStart s)) as Hhead.
  destruct (JS.trimEnd (JS.trimStart s)) as [|c r]; [done|].
  destruct Hhead as [r' Heq]. rewrite Heq in Hstart. done.
Qed.

Lemma name_stops page u :
  stops JS.is_space (Sitemap.name (Sitemap.scrapeTireData page u)).
Proof.
  simpl.
  destruct (or_else_cases (JS.trim (page PageTitleOwnText))
              (JS.or_else (JS.trim (page ProductNameH1)) (JS.trim (page FirstH1))))
    as [-> | ->]; [apply trim_stops|].
  destruct (or_else_cases (JS.trim (page ProductNameH1)) (JS.trim (page FirstH1)))
    as [-> | ->]; apply trim_stops.
Qed.

End Brand.

(** X13.  The brand is the name up to its first space: the name is the brand
    followed by nothing or by a space and the rest, and the brand holds no
    space.  In a scraped record the brand is empty only when the name is:
    the name is trimmed, so it does not begin with a space. *)
Theorem extractBrand_spec :
  (∀ productName,
     ∃ rest,
       productName = Sitemap.extractBrand productName +:+ rest
       ∧ (rest = "" ∨ ∃ r, rest = String " "%char r)
       ∧ all_chars not_blank (Sitemap.extractBrand productName) = true)
  ∧ (∀ page u,
       let t := Sitemap.scrapeTireData page u in
       Sitemap.brand t = Sitemap.extractBrand (Sitemap.name t)
       ∧ (Sitemap.brand t = "" ↔ Sitemap.name t = "")).
Proof.
  split.
  - intros productName. unfold Sitemap.extractBrand.
    destruct productName as [|c s]; [exists ""; by split; [|split; [left|]]|].
    simpl negb. cbv iota. rewrite or_else_nil. apply before_space_spec.
  - intros page u t. split; [done|].
    change (Sitemap.brand t) with (Sitemap.extractBrand (Sitemap.name t)).
    pose proof (name_stops page u) as Hstops. fold t in Hstops.
    destruct (Sitemap.name t) as [|c s]; [done|].
    unfold Sitemap.extractBrand. simpl negb. cbv iota. rewrite or_else_nil.
    simpl in *. destruct (Ascii.eqb_spec c " "%char) as [->|Hne]; [done|].
    split; [done|done].
Qed.

(** ** Prices *)

Section Prices.

Lemma numeric_match_here_stop s :
  stops JS.is_digit_or_comma s → JS.numeric_match_here s = None.
Proof.
  intros Hs. unfold JS.numeric_match_here. by rewrite (span_stop _ _ Hs).
Qed.

(** The search for the number passes over what is neither digit nor
    comma. *)
Lemma numeric_match_skip before x :
  all_chars not_numeric before = true →
  JS.numeric_match (before +:+ x) = JS.numeric_match x.
Proof.
  induction before as [|c before IH]; [done|].
  rewrite append_cons. simpl. intros [Hc Hrest]%andb_true_iff.
  rewrite numeric_match_here_stop; [|by apply IH].
  simpl. unfold not_numeric in Hc. by apply negb_true_iff in Hc.
Qed.

Lemma stops_numeric s :
  stops is_numeric_char s →
  stops JS.is_digit_or_comma s ∧ stops JS.is_digit s
  ∧ match s with String "."%char _ => False | _ => True end.
Proof.
  destruct s as [|c s]; [done|]. simpl. unfold is_numeric_char.
  destruct c as [[] [] [] [] [] [] [] []]; done.
Qed.

Lemma numeric_match_lone_comma rest :
  stops is_numeric_char rest →
  JS.numeric_match ("," +:+ rest) = Some ",".
Proof.
  intros (Hdc & Hd & Hpoint)%stops_numeric.
  rewrite append_cons. change ("" +:+ rest) with rest.
  cbn [JS.numeric_match]. unfold JS.numeric_match_here. simpl.
  rewrite (span_stop _ _ Hdc). simpl.
  assert (match rest with
          | String "."%char r => ("."%string, r)
          | _ => (EmptyString, rest)
          end = (EmptyString, rest)) as ->.
  { destruct rest as [|c r]; [done|].
    destruct c as [[] [] [] [] [] [] [] []]; done. }
  by rewrite (span_stop _ _ Hd).
Qed.

End Prices.

(** X14.  A price in which a comma comes before the first digit, and is not
    itself followed by a digit, a comma or a point, is returned as it is,
    whatever number stands further on: the regular expression stops at the
    comma, and the match holds no number. *)
Theorem discounted_comma_first offset before rest :
  all_chars not_numeric before = true →
  stops is_numeric_char rest →
  discounted offset (before +:+ "," +:+ rest) = before +:+ "," +:+ rest.
Proof.
  intros Hbefore Hrest. unfold discounted.
  rewrite truthy_append. simpl. rewrite orb_true_r. simpl.
  rewrite numeric_match_skip; [done|].
  by rewrite numeric_match_lone_comma.
Qed.

Lemma discounted_comma_first_witness :
  Sitemap.calculateDiscountedPrice "Now, AED 100.00" = "Now, AED 100.00".
Proof.
  apply (discounted_comma_first 5 "Now" " AED 100.00"); reflexivity.
Defined.

(** ** The year of manufacture *)

Section Year.

Lemma split_colon_1_none s :
  split_colon_1 s = None ↔ all_chars not_colon s = true.
Proof.
  induction s as [|c s IH]; [done|]. simpl. unfold not_colon.
  destruct (Ascii.eqb c ":"); simpl; [by split|exact IH].
Qed.

Lemma year_always_fails web u :
  (∀ log status page,
     web log u = Answer status page →
     all_chars not_colon (page YearOfManufacture) = true) →
  always_fails_list web u.
Proof.
  intros Hyear st. unfold UrlList.scrapeUrl_try, axios_get.
  destruct (web (UrlList.requests st) u) as [|status page] eqn:Hweb; [by eauto|].
  destruct (_ && _); [|by eauto]. destruct (negb _); [by eauto|].
  unfold UrlList.scrapeTireData.
  apply Hyear, split_colon_1_none in Hweb. rewrite Hweb. by eauto.
Qed.

End Year.

(** X15.  The year of manufacture is what follows the first colon of its
    text.  On a text without a colon the URL-list script throws, whatever
    else the page holds, and the sitemap script leaves the year undefined.
    So a URL whose pages never show a colon there is given up by the loop of
    the URL-list script after [maxRetries] rounds of [maxRetries + 1]
    requests each: no record, the success ledger and the store as they
    were, the URL in the failed ledger. *)
Theorem year_without_colon :
  (∀ page u,
     (UrlList.scrapeTireData page u = Throw TypeError
      ↔ all_chars not_colon (page YearOfManufacture) = true)
     ∧ (Sitemap.manufactureYear (Sitemap.scrapeTireData page u) = None
        ↔ all_chars not_colon (page YearOfManufacture) = true))
  ∧ (∀ cfg web u,
       (∀ log status page,
          web log u = Answer status page →
          all_chars not_colon (page YearOfManufacture) = true) →
       ∀ newTireData st,
       ∃ st',
         UrlList.attempt_loop (UrlList.maxRetries cfg) cfg web u 0 false newTireData st
         = Some (st', newTireData, false)
         ∧ UrlList.requests st'
           = UrlList.requests st
             ++ replicate (UrlList.maxRetries cfg * S (UrlList.maxRetries cfg)) u
         ∧ UrlList.success st' = UrlList.success st
         ∧ UrlList.jsonOutputFile st' = UrlList.jsonOutputFile st
         ∧ ((0 < UrlList.maxRetries cfg)%nat →
            u ∈ UrlList.loadProcessedUrls UrlList.failedFile st')).
Proof.
  split.
  - intros page u. split.
    + rewrite -split_colon_1_none. unfold UrlList.scrapeTireData.
      by destruct (split_colon_1 _).
    + rewrite -split_colon_1_none. simpl.
      by destruct (split_colon_1 _).
  - intros cfg web u Hyear newTireData st.
    destruct (attempt_loop_exhausted cfg web u (UrlList.maxRetries cfg) 0
                (UrlList.maxRetries cfg) newTireData st)
      as (st' & Hloop & Hreq & Hfailed);
      [by apply year_always_fails|done|done|].
    exists st'. split; [done|]. split; [done|].
    apply attempt_loop_sound in Hloop as (_ & (_ & Hs & Hj & _) & _).
    by repeat split.
Qed.

Lemma year_without_colon_witness :
  ∃ st',
    UrlList.attempt_loop 3 UrlList.CONFIG (serve page_no_year) product_url 0 false []
      fresh_list
    = Some (st', [], false)
    ∧ UrlList.requests st' = replicate 12 product_url
    ∧ UrlList.success st' = Absent
    ∧ UrlList.jsonOutputFile st' = Absent
    ∧ ((0 < 3)%nat → product_url ∈ UrlList.loadProcessedUrls UrlList.failedFile st').
Proof.
  apply (proj2 year_without_colon UrlList.CONFIG (serve page_no_year) product_url).
  intros log status page [= _ <-]. reflexivity.
Defined.

(** ** The pipeline of one URL *)

Section Pipeline.

Lemma saveProgress_all_kept calls u f st :
  u ∈ Sitemap.loadProcessedUrls f st →
  u ∈ Sitemap.loadProcessedUrls f (saveProgress_all calls st).
Proof.
  unfold saveProgress_all. revert st.
  induction calls as [|[v g] calls IH]; intros st Hin; [done|].
  simpl. apply IH.
  destruct (saveProgress_load v g st f) as [->|(_ & _ & ->)]; [done|].
  apply elem_of_app. by left.
Qed.

End Pipeline.

(** X16.  The handlers that [processUrlsInBatches] chains to [scrapeUrl] add
    nothing to the ledgers: [scrapeUrl] has already written its URL to the
    ledger that the [then] handler writes it to, so the pipeline of a URL
    ends in the state in which [scrapeUrl] ended, with the record, or with
    [null] when [scrapeUrl] returned [null] or threw.  The handler's write
    stays without effect whatever the other pipelines have written to the
    ledgers in between. *)
Theorem pipeline_adds_nothing cfg parse web u st :
  ∃ st1 c,
    Sitemap.scrapeUrl cfg parse web u 0 st = Some (st1, c)
    ∧ Sitemap.pipeline cfg parse web u st
      = Some (st1, match c with Return r => r | Throw _ => None end)
    ∧ ∀ calls,
        let st2 := saveProgress_all calls st1 in
        match c with
        | Return (Some _) => Sitemap.saveProgress u Sitemap.successFile st2 = st2
        | Return None => Sitemap.saveProgress u Sitemap.nonMatchFile st2 = st2
        | Throw _ => True
        end.
Proof.
  destruct (scrapeUrl_total cfg parse web u 0 st) as [[st1 c] Hrun].
  exists st1, c. split; [done|].
  unfold Sitemap.pipeline. rewrite Hrun.
  apply scrapeUrl_fuel_sound in Hrun as (_ & _ & _ & Hc).
  destruct c as [[t|]|e].
  - destruct Hc as (_ & _ & _ & Hin & _).
    split; [by rewrite saveProgress_present|].
    intros calls. by apply saveProgress_present, saveProgress_all_kept.
  - destruct Hc as (_ & Hin & _).
    split; [by rewrite saveProgress_present|].
    intros calls. by apply saveProgress_present, saveProgress_all_kept.
  - done.
Qed.

(** ** The URLs to process *)

Section Pending.

Lemma unique_from_sublist seen urls : unique_from seen urls `sublist_of` urls.
Proof.
  revert seen. induction urls as [|x urls IH]; intros seen; simpl; [done|].
  case_bool_decide; [apply sublist_cons|apply sublist_skip]; apply IH.
Qed.

Lemma filter_sublist (p : string → bool) l : List.filter p l `sublist_of` l.
Proof.
  induction l as [|x l IH]; simpl; [done|].
  destruct (p x); [by apply sublist_skip|by apply sublist_cons].
Qed.

Lemma count_occ_filter (p : string → bool) l v :
  count_occ string_dec (List.filter p l) v
  = if p v then count_occ string_dec l v else 0.
Proof.
  induction l as [|x l IH]; simpl; [by destruct (p v)|].
  destruct (p x) eqn:Hx; simpl; destruct (string_dec x v) as [->|Hne];
    rewrite IH; try done.
  - by rewrite Hx.
  - by rewrite Hx.
Qed.

End Pending.

(** X17.  What [runScraper] takes up.  The URL-list script goes through the
    listed URLs that are in neither ledger, in the order of the list and
    each once, however often it is listed.  The sitemap script removes no
    duplicate: a URL of the sitemap that is in none of the three ledgers is
    handed to the batches as many times as the sitemap lists it. *)
Theorem urlsToProcess_spec urls :
  (∀ st,
     NoDup (UrlList.urlsToProcess urls st)
     ∧ UrlList.urlsToProcess urls st `sublist_of` urls
     ∧ ∀ v, v ∈ UrlList.urlsToProcess urls st
            ↔ v ∈ urls
              ∧ (v ∉ UrlList.loadProcessedUrls UrlList.successFile st)
              ∧ (v ∉ UrlList.loadProcessedUrls UrlList.failedFile st))
  ∧ (∀ st,
       Sitemap.urlsToProcess urls st `sublist_of` urls
       ∧ ∀ v, count_occ string_dec (Sitemap.urlsToProcess urls st) v
              = if bool_decide (v ∈ Sitemap.loadProcessedUrls Sitemap.successFile st
                                ∨ v ∈ Sitemap.loadProcessedUrls Sitemap.failedFile st
                                ∨ v ∈ Sitemap.loadProcessedUrls Sitemap.nonMatchFile st)
                then 0 else count_occ string_dec urls v).
Proof.
  split; intros st.
  - split; [apply urlsToProcess_list_NoDup|].
    split; [|apply urlsToProcess_list_spec].
    unfold UrlList.urlsToProcess. etrans; [apply filter_sublist|].
    apply unique_from_sublist.
  - unfold Sitemap.urlsToProcess. split; [apply filter_sublist|].
    intros v. rewrite count_occ_filter.
    destruct (includes v (Sitemap.loadProcessedUrls Sitemap.successFile st)) eqn:Hs;
      [apply includes_true in Hs|apply includes_false in Hs];
      (destruct (includes v (Sitemap.loadProcessedUrls Sitemap.failedFile st)) eqn:Hf;
        [apply includes_true in Hf|apply includes_false in Hf]);
      (destruct (includes v (Sitemap.loadProcessedUrls Sitemap.nonMatchFile st)) eqn:Hn;
        [apply includes_true in Hn|apply includes_false in Hn]);
      simpl; case_bool_decide; naive_solver.
Qed.

(** ** The time spent on a URL that fails *)

Section DeadUrl.

Variables (cfg : UrlList.Config) (web : Web) (u : string).

Lemma retries_exhausted_clock fuel retryCount st :
  always_fails_list web u →
  (retryCount ≤ UrlList.maxRetries cfg)%nat →
  (UrlList.maxRetries cfg - retryCount < fuel)%nat →
  ∃ st1 e,
    UrlList.scrapeUrl_fuel fuel cfg web u retryCount st = Some (st1, Throw e)
    ∧ UrlList.clock st1
      = (UrlList.clock st
         + total_delay 2000 retryCount (UrlList.maxRetries cfg - retryCount))%N.
Proof.
  intros Hfails.
  revert retryCount st. induction fuel as [|fuel IH]; intros retryCount st Hle Hfuel; [lia|].
  simpl. destruct (Hfails st) as [e He].
  pose proof (try_list_state web u st) as Hst.
  destruct (UrlList.scrapeUrl_try web u st) as [st1 c].
  simpl in He, Hst. subst c st1.
  destruct (Nat.ltb_spec retryCount (UrlList.maxRetries cfg)) as [Hlt|Hge].
  - destruct (IH (retryCount + 1)
                (UrlList.sleep (2000 * N.of_nat (retryCount + 1))
                   (UrlList.log_request u st)))
      as (st2 & e' & -> & Hclock); [lia|lia|].
    exists st2, e'. split; [done|].
    rewrite Hclock. simpl UrlList.clock.
    replace (UrlList.maxRetries cfg - retryCount)
      with (S (UrlList.maxRetries cfg - (retryCount + 1))) by lia.
    simpl total_delay. lia.
  - exists (UrlList.log_request u st), e. split; [done|].
    replace (UrlList.maxRetries cfg - retryCount) with 0 by lia.
    simpl. lia.
Qed.

Lemma attempt_loop_clock rounds attempts fuel newTireData st :
  always_fails_list web u →
  attempts + rounds = UrlList.maxRetries cfg →
  (rounds ≤ fuel)%nat →
  ∃ st',
    UrlList.attempt_loop fuel cfg web u attempts false newTireData st
    = Some (st', newTireData, false)
    ∧ UrlList.clock st'
      = (UrlList.clock st
         + N.of_nat rounds * total_delay 2000 0 (UrlList.maxRetries cfg)
         + total_delay 3000 attempts (rounds - 1))%N.
Proof.
  intros Hfails.
  revert attempts fuel st.
  induction rounds as [|rounds IH]; intros attempts fuel st Hsum Hfuel.
  - exists st. rewrite attempt_loop_done; [lia|]. split; [done|]. simpl. lia.
  - destruct fuel as [|fuel]; [lia|].
    cbn [UrlList.attempt_loop].
    destruct (Nat.ltb_spec attempts (UrlList.maxRetries cfg)) as [_|?]; [|lia].
    cbn [andb negb].
    destruct (retries_exhausted_clock (S (UrlList.maxRetries cfg - 0)) 0 st)
      as (st1 & e & Hscrape & Hclock); [done|lia|lia|].
    unfold UrlList.scrapeUrl. rewrite Hscrape.
    rewrite Nat.sub_0_r in Hclock.
    destruct (Nat.leb_spec (UrlList.maxRetries cfg) (S attempts)) as [Hlast|Hmore].
    + rewrite attempt_loop_done; [done|].
      exists (UrlList.saveProgress u UrlList.failedFile st1).
      split; [done|].
      destruct (saveProgress_list_frame u UrlList.failedFile st1) as (_ & -> & _).
      rewrite Hclock. assert (rounds = 0) as -> by lia. simpl. lia.
    + destruct (IH (S attempts) fuel
                  (UrlList.sleep (3000 * N.of_nat (S attempts)) st1))
        as (st' & -> & Hclock'); [lia|lia|].
      exists st'. split; [done|].
      rewrite Hclock'. cbn [UrlList.clock UrlList.sleep]. rewrite Hclock.
      destruct rounds as [|rounds']; [lia|].
      replace (S (S rounds') - 1) with (S rounds') by lia.
      replace (S rounds' - 1) with rounds' by lia.
      cbn [total_delay]. replace (attempts + 1) with (S attempts) by lia. lia.
Qed.

End DeadUrl.

(** X18.  The time that the URL-list script sleeps on a URL that fails at
    every attempt.  The waits of [scrapeUrl] are 2000 ms, 4000 ms and so on
    (linear in the retry count, whatever the comment says), those of the
    loop of [runScraper] 3000 ms, 6000 ms and so on, and the first are
    nested in the second: with [m = maxRetries], [m] calls that sleep
    [1000 * m * (m + 1)] each, and [1500 * m * (m - 1)] between the calls.
    With the configured [m = 3] that is 45 seconds for one dead URL, time
    spent waiting for answers apart. *)
Theorem dead_url_delay cfg web u newTireData st :
  always_fails_list web u →
  let m := UrlList.maxRetries cfg in
  ∃ st',
    UrlList.attempt_loop m cfg web u 0 false newTireData st
    = Some (st', newTireData, false)
    ∧ UrlList.clock st'
      = (UrlList.clock st
         + N.of_nat m * (1000 * N.of_nat (m * (m + 1)))
         + 1500 * N.of_nat (m * (m - 1)))%N.
Proof.
  intros Hfails m.
  destruct (attempt_loop_clock cfg web u m 0 m newTireData st)
    as (st' & Hloop & Hclock); [done|done|done|].
  exists st'. split; [done|].
  rewrite Hclock.
  change 2000%N with (2 * 1000)%N. change 3000%N with (2 * 1500)%N.
  rewrite !total_delay_closed. clear Hloop Hclock. subst m.
  destruct (UrlList.maxRetries cfg) as [|m']; [simpl; lia|].
  replace (S m' - 1) with m' by lia. nia.
Qed.

Lemma dead_url_delay_witness :
  ∃ st',
    UrlList.attempt_loop 3 UrlList.CONFIG web_down product_url 0 false [] fresh_list
    = Some (st', [], false)
    ∧ UrlList.clock st' = 45000%N.
Proof.
  apply (dead_url_delay UrlList.CONFIG web_down product_url [] fresh_list).
  intros st. by exists RequestFailed.
Defined.
